(** * HMIpixelsize: the pixel-size notebook over IEEE-754 binary64

    The notebook [HMIpixelsize.ipynb] reads the keyword [CDELT2] from the
    header of a FITS file, evaluates

      [dx = (2*np.pi*meta['CDELT2']*6.955e8/360)]
      [area = np.power(dx,2)]

    on Python floats and prints one line for each.  Python floats are
    IEEE-754 binary64 numbers: they are embedded as Rocq's primitive
    [float], whose operations round to nearest, ties to even, as Python's
    do.  The theorems about all inputs go through the standard library's
    specification of these operations ([Prim2SF], [SFmul], [SFdiv]). *)

From Stdlib Require Import ZArith QArith Qabs Qpower Bool Ascii String List Lia Lqa.
From Stdlib Require Import Floats.
Import ListNotations.

Set Warnings "-inexact-float".

Open Scope Z_scope.

(** ** The value of a float *)

(** The rational number a finite float stands for, [m * 2^e] with its
    sign (0 for infinities and NaN). *)
Definition SF2Q (x : spec_float) : Q :=
  match x with
  | S754_finite s m e =>
      inject_Z (if s then Zneg m else Zpos m) * Qpower 2 e
  | _ => 0%Q
  end.

Definition F2Q (x : float) : Q := SF2Q (Prim2SF x).

(** [lo <= x < hi] on the value of a float: written in decimal, [x]
    starts with the digits of [lo]. *)
Definition between (lo hi : Q) (x : float) : bool :=
  Qle_bool lo (F2Q x) && negb (Qle_bool hi (F2Q x)).

(** ** Python results: a value or a raised exception *)

Module Py.

Inductive exn : Type :=
| KeyError (key : string)
| NameError (name : string)
| TypeError
| ZeroDivisionError.

Inductive result (A : Type) : Type :=
| Ok (a : A)
| Raise (e : exn).
Arguments Ok {A} a.
Arguments Raise {A} e.

Definition bind {A B : Type} (r : result A) (k : A -> result B) : result B :=
  match r with
  | Ok a => k a
  | Raise e => Raise e
  end.

Definition raises {A : Type} (r : result A) : bool :=
  match r with Ok _ => false | Raise _ => true end.

(** [x / y] on floats: Python raises on a zero divisor. *)
Definition truediv (x y : float) : result float :=
  if is_zero y then Raise ZeroDivisionError else Ok (x / y)%float.

End Py.

Notation "x <- c1 ;; c2" := (Py.bind c1 (fun x => c2))
  (at level 61, c1 at next level, right associativity).

(** ** The notebook *)

Module HMI.
Import Py.

(** [np.pi], the double nearest to pi. *)
Definition np_pi : float := 0x1.921fb54442d18p+1%float.

(** The literal [6.955e8] of the first code cell. *)
Definition solar_radius : float := 6.955e8%float.

(** The value of a header card: a number or a string.  A number (an
    integer, logical or floating-point card) is given as the float that
    Python converts it to when a float is multiplied by it. *)
Inductive value : Type :=
| Num (x : float)
| Str (s : string).

(** The header of the loaded file, [sunpy.map.Map(path).meta]: keywords
    with their values, in card order. *)
Definition header : Type := list (string * value).

(** [str.lower] on ASCII text, which FITS keywords are: the letters
    [A] to [Z] (codes 65 to 90) become [a] to [z]. *)
Definition lower_char (c : ascii) : ascii :=
  let n := nat_of_ascii c in
  if (65 <=? n)%nat && (n <=? 90)%nat then ascii_of_nat (n + 32) else c.

Fixpoint lower (s : string) : string :=
  match s with
  | EmptyString => EmptyString
  | String c s' => String (lower_char c) (lower s')
  end.

(** [meta[key]].  [meta] is a sunpy [MetaDict]: it keeps its keys in
    lower case and lower-cases the key it is asked for, so the lookup
    does not see the case of letters and the KeyError it raises carries
    the key in lower case. *)
Fixpoint getitem (meta : header) (key : string) : result value :=
  match meta with
  | [] => Raise (KeyError (lower key))
  | (k, v) :: rest =>
      if String.eqb (lower k) (lower key) then Ok v else getitem rest key
  end.

(** The right operand of [2*np.pi * v]: a float times a string raises
    TypeError. *)
Definition as_float (v : value) : result float :=
  match v with
  | Num x => Ok x
  | Str _ => Raise TypeError
  end.

(** [2*np.pi*cdelt*R/360], evaluated left to right as Python does:
    [((2*np.pi)*cdelt)*R] and then the division, each operation rounded.
    The integers 2 and 360 are converted to floats exactly.  The literal
    [6.955e8] of the source is the argument [solar_radius_m], so that the
    expression is the [compute(cdelt_arcsec, solar_radius_m)] of the
    specification; the notebook calls it at [solar_radius]. *)
Definition pixel_size (cdelt_arcsec solar_radius_m : float) : result float :=
  truediv (2 * np_pi * cdelt_arcsec * solar_radius_m)%float 360%float.

(** [np.power(x, 2)] on a float64, taken to be the correctly rounded
    square [x * x]; the notebook's recorded area is that product. *)
Definition np_power2 (x : float) : float := (x * x)%float.

Record PixelMetrics : Type := {
  pixel_size_m : float;
  pixel_area_m2 : float
}.

Definition compute (cdelt_arcsec solar_radius_m : float) : result PixelMetrics :=
  dx <- pixel_size cdelt_arcsec solar_radius_m ;;
  Ok {| pixel_size_m := dx; pixel_area_m2 := np_power2 dx |}.

(** The closed form as the specification groups it,
    [(2 pi cdelt / 360) R]: once on floats, once on rationals. *)
Definition closed_form (cdelt_arcsec solar_radius_m : float) : float :=
  ((2 * np_pi * cdelt_arcsec / 360) * solar_radius_m)%float.

(** Inputs for which no step of [pixel_size] overflows or leaves the
    normal range: between [2^-500] (3.05e-151) and [2^500] (3.27e150). *)
Definition in_range (x : float) : bool :=
  (0x1p-500 <=? x)%float && (x <=? 0x1p500)%float.

Definition closed_form_Q (cdelt_arcsec solar_radius_m : float) : Q :=
  ((2 * F2Q np_pi * F2Q cdelt_arcsec / 360) * F2Q solar_radius_m)%Q.

(** An f-string before its fields are formatted: literal text and
    replacement fields. *)
Inductive fragment : Type :=
| Text (s : string)
| Field (x : float).

Definition line : Type := list fragment.

(** [f'The HMI pixel size is {dx} meters.'] *)
Definition size_line (dx : float) : line :=
  [Text "The HMI pixel size is "; Field dx; Text " meters."].

(** [f'The HMI pixel area is {area} meters squared.'] *)
Definition area_line (area : float) : line :=
  [Text "The HMI pixel area is "; Field area; Text " meters squared."].

(** The kernel: the global names the cells bind, what was printed, and the
    values the notebook displayed as cell results.  [k_np] says whether
    the name [np] is bound: [import numpy as np] is in the first cell and
    the third cell reads [np] without importing it.  ([sunpy] is bound by
    the first cell too and read only there.) *)
Record kernel : Type := {
  k_np : bool;
  k_path : option string;
  k_meta : option header;
  k_dx : option float;
  k_area : option float;
  k_stdout : list line;
  k_out : list float
}.

Definition fresh : kernel :=
  {| k_np := false; k_path := None; k_meta := None; k_dx := None;
     k_area := None; k_stdout := []; k_out := [] |}.

Definition name (v : string) (binding : option float) : result float :=
  match binding with
  | Some x => Ok x
  | None => Raise (NameError v)
  end.

(** Reading the name of an imported module. *)
Definition imported (v : string) (bound : bool) : result unit :=
  if bound then Ok tt else Raise (NameError v).

(** First code cell; [fits] is the header the loader returns.  The two
    imports come before the lookup. *)
Definition cell1 (fits : header) (k : kernel) : result kernel :=
  let path := "./hmi*.fits"%string in
  let meta := fits in
  v <- getitem meta "CDELT2" ;;
  cdelt <- as_float v ;;
  dx <- pixel_size cdelt solar_radius ;;
  Ok {| k_np := true;
        k_path := Some path; k_meta := Some meta; k_dx := Some dx;
        k_area := k_area k;
        k_stdout := k_stdout k ++ [size_line dx];
        k_out := k_out k |}.

(** Second code cell: [(dx/1000-362.5)/100], shown as the cell's value. *)
Definition cell2 (k : kernel) : result kernel :=
  dx <- name "dx" (k_dx k) ;;
  a <- truediv dx 1000%float ;;
  v <- truediv (a - 362.5)%float 100%float ;;
  Ok {| k_np := k_np k;
        k_path := k_path k; k_meta := k_meta k; k_dx := k_dx k;
        k_area := k_area k;
        k_stdout := k_stdout k;
        k_out := k_out k ++ [v] |}.

(** Third code cell: [np.power] is looked up before its argument [dx]. *)
Definition cell3 (k : kernel) : result kernel :=
  _ <- imported "np" (k_np k) ;;
  dx <- name "dx" (k_dx k) ;;
  let area := np_power2 dx in
  Ok {| k_np := k_np k;
        k_path := k_path k; k_meta := k_meta k; k_dx := k_dx k;
        k_area := Some area;
        k_stdout := k_stdout k ++ [area_line area];
        k_out := k_out k |}.

Definition run_notebook (fits : header) (k : kernel) : result kernel :=
  k1 <- cell1 fits k ;;
  k2 <- cell2 k1 ;;
  cell3 k2.

(** What a run shows of itself: the two values and the lines it added. *)
Definition outcome (k0 : kernel) (r : result kernel)
  : result (option float * option float * list line) :=
  k <- r ;;
  Ok (k_dx k, k_area k, skipn (length (k_stdout k0)) (k_stdout k)).

(** The expression of the second code cell, [(dx/1000-362.5)/100], on
    the value of [dx]. *)
Definition percent_difference (dx : float) : result float :=
  a <- truediv dx 1000%float ;;
  truediv (a - 362.5)%float 100%float.

End HMI.

(** ** Rounding to nearest, as integers

    The specification rounds a product or a quotient by shifting its
    mantissa right bit by bit ([shr_1]) while it keeps a round bit and a
    sticky bit, and then moves to the even neighbour at a tie
    ([round_nearest_even]).  The definitions below say the same with
    integer division, so that the operations can be compared, bounded and
    scaled.  Every finite binary64 number is a multiple of [2^-1074]: a
    float is followed through its signed count of such units, its order
    value [ord]. *)

(** The integer nearest to [N / D], the even one at a tie. *)
Definition rne (N D : Z) : Z :=
  let q := N / D in
  match 2 * (N mod D) ?= D with
  | Lt => q
  | Gt => q + 1
  | Eq => if Z.even q then q else q + 1
  end.

(** The shift record [mrs] stands for the fraction [N / D]: its mantissa
    is the integer part, its round bit says whether the rest reaches one
    half, its sticky bit whether the rest is neither zero nor one half. *)
Definition Repr (N D : Z) (mrs : shr_record) : Prop :=
  shr_m mrs = N / D /\
  shr_r mrs = (D <=? 2 * (N mod D)) /\
  shr_s mrs = negb ((2 * (N mod D)) mod D =? 0).

(** Infinity, in units of [2^emin]: the first power of two that is not a
    finite float. *)
Definition INF (prec emax : Z) : Z := 2 ^ (emax - SpecFloat.emin prec emax).

(** [A / B] units rounded to a float, in units again: [prec] digits are
    kept, fewer below [2^prec] units (the subnormal numbers). *)
Definition R (prec : Z) (A B : Z) : Z :=
  let s := Z.max (Zdigits2 (A / B) - prec) 0 in
  rne A (B * 2 ^ s) * 2 ^ s.

(** The float of sign [s] and magnitude [z] units. *)
Definition encode (prec emax : Z) (s : bool) (z : Z) : spec_float :=
  if z =? 0 then S754_zero s
  else if INF prec emax <=? z then S754_infinity s
  else
    let k := Z.max (Zdigits2 z - prec) 0 in
    S754_finite s (Z.to_pos (z / 2 ^ k)) (SpecFloat.emin prec emax + k).

(** The last step of [binary_round_aux]: a mantissa and an exponent made
    a float. *)
Definition finish (prec emax : Z) (s : bool) (m e : Z) : spec_float :=
  match m with
  | Z0 => S754_zero s
  | Zpos p => if e <=? emax - prec then S754_finite s p e else S754_infinity s
  | Zneg _ => S754_nan
  end.

(** The order value of a float: its value in units of [2^emin], with
    [INF] for the infinities (and 0 for NaN, which has no order). *)
Definition ord (prec emax : Z) (x : spec_float) : Z :=
  match x with
  | S754_zero _ | S754_nan => 0
  | S754_infinity s => if s then - INF prec emax else INF prec emax
  | S754_finite s m e =>
      let z := Zpos m * 2 ^ (e - SpecFloat.emin prec emax) in
      if s then - z else z
  end.

Definition sign_of (x : spec_float) : bool :=
  match x with
  | S754_zero s | S754_infinity s | S754_finite s _ _ => s
  | S754_nan => false
  end.

Definition not_nan (x : spec_float) : bool :=
  match x with S754_nan => false | _ => true end.

Definition signed (s : bool) (z : Z) : Z := if s then - z else z.

(** The magnitude of [x * y] and of [x / y] from the magnitudes [a] of
    [x] and [k] of a finite [y] above zero; an infinite [x] stays
    infinite. *)
Definition mulmag (prec emax : Z) (k a : Z) : Z :=
  if INF prec emax <=? a then INF prec emax
  else Z.min (R prec (a * k) (2 ^ (- SpecFloat.emin prec emax))) (INF prec emax).

Definition divmag (prec emax : Z) (k a : Z) : Z :=
  if INF prec emax <=? a then INF prec emax
  else Z.min (R prec (a * 2 ^ (- SpecFloat.emin prec emax)) k) (INF prec emax).

(** The odd extension of a function on magnitudes. *)
Definition odd_ext (g : Z -> Z) (z : Z) : Z :=
  if z <? 0 then - g (- z) else g z.

(** The fraction [A / B] equal to [N / D * 2^e] in units of [2^emin]. *)
Definition scale_num (prec emax : Z) (N e : Z) : Z :=
  N * 2 ^ Z.max (e - SpecFloat.emin prec emax) 0.

Definition scale_den (prec emax : Z) (D e : Z) : Z :=
  D * 2 ^ Z.max (SpecFloat.emin prec emax - e) 0.

(** A binary64 float read through its specification: its class, and
    canonical when finite. *)
Inductive SFview : spec_float -> Prop :=
| view_zero s : SFview (S754_zero s)
| view_inf s : SFview (S754_infinity s)
| view_nan : SFview S754_nan
| view_finite s m e : bounded prec emax m e = true -> SFview (S754_finite s m e).

(** The constants of the pixel-size formula in units of [2^-1074],
    [2*np.pi] and [360], and the magnitude of the value bound to [dx]:
    the three rounded operations applied to the magnitude [a] of CDELT2
    and [k] of the radius. *)
Definition K2pi : Z := ord prec emax (Prim2SF (2 * HMI.np_pi)%float).
Definition K360 : Z := ord prec emax (Prim2SF 360%float).

Definition dx_mag (k a : Z) : Z :=
  divmag prec emax K360 (mulmag prec emax k (mulmag prec emax K2pi a)).

(** The magnitude of a sum or a difference of [n] units, rounded. *)
Definition addmag (prec emax : Z) (n : Z) : Z :=
  Z.min (R prec n 1) (INF prec emax).

(** The order value of [x - y] from the order value [o] of [x], for a
    finite [y] of order value [k]: an infinite [x] stays as it is. *)
Definition sub_ord (prec emax : Z) (k o : Z) : Z :=
  if INF prec emax <=? Z.abs o then o
  else odd_ext (addmag prec emax) (o - k).

(** The constants of the second cell in units of [2^-1074], and the
    order value of its result from the order value [o] of [dx]. *)
Definition K1000 : Z := ord prec emax (Prim2SF 1000%float).
Definition K3625 : Z := ord prec emax (Prim2SF 362.5%float).
Definition K100 : Z := ord prec emax (Prim2SF 100%float).

Definition pct_ord (o : Z) : Z :=
  odd_ext (divmag prec emax K100)
    (sub_ord prec emax K3625 (odd_ext (divmag prec emax K1000) o)).

(** Powers of two with a large literal exponent are large numbers.
    [blia] and [bnia] hand them to [lia] and [nia] as unknowns: what the
    proof needs of them is stated beforehand. *)
Ltac hide_one p :=
  lazymatch eval cbv in (Pos.leb 64 p) with
  | true => let x := fresh "pw" in set (x := Z.pow 2 (Zpos p)) in *; clearbody x
  end.

Ltac hide_pow2 :=
  repeat match goal with
  | H : context [Z.pow 2 (Zpos ?p)] |- _ => hide_one p
  | |- context [Z.pow 2 (Zpos ?p)] => hide_one p
  end.

Ltac blia := hide_pow2; lia.
Ltac bnia := hide_pow2; nia.

(** * Rounding: the specification's shifts are integer division *)

Lemma shr_1_div2 mrs : 0 <= shr_m mrs -> shr_m (shr_1 mrs) = shr_m mrs / 2.
Proof.
  destruct mrs as [m r s]; simpl. intros H.
  destruct m as [|p|p]; try lia; simpl.
  - reflexivity.
  - destruct p; simpl.
    + rewrite Pos2Z.inj_xI. apply Z.div_unique with 1; lia.
    + rewrite Pos2Z.inj_xO. apply Z.div_unique with 0; lia.
    + reflexivity.
Qed.

Lemma shr_1_odd mrs : 0 <= shr_m mrs -> shr_r (shr_1 mrs) = Z.odd (shr_m mrs).
Proof.
  destruct mrs as [m r s]; simpl. intros H.
  destruct m as [|p|p]; try lia; simpl; try reflexivity.
  destruct p; reflexivity.
Qed.

Lemma shr_1_sticky mrs : shr_s (shr_1 mrs) = shr_r mrs || shr_s mrs.
Proof.
  destruct mrs as [m r s]; simpl.
  destruct m as [|p|p]; simpl; try reflexivity; destruct p; reflexivity.
Qed.

Lemma Repr_shr_1 N D mrs :
  0 <= N -> 0 < D -> Repr N D mrs -> Repr N (2 * D) (shr_1 mrs).
Proof.
  intros HN HD (Hm & Hr & Hs).
  assert (Hq : 0 <= N / D) by (apply Z.div_pos; lia).
  assert (Hmod := Z.mod_pos_bound N D HD).
  assert (Hdm := Z.div_mod N D ltac:(lia)).
  assert (Hq2 := Z.div_mod (N / D) 2 ltac:(lia)).
  assert (Hm2 := Z.mod_pos_bound (N / D) 2 ltac:(lia)).
  assert (HND : N / (2 * D) = N / D / 2).
  { rewrite (Z.mul_comm 2 D). rewrite Z.div_div by lia. reflexivity. }
  assert (Hmod2 : N mod (2 * D) = D * ((N / D) mod 2) + N mod D).
  { symmetry. apply Z.mod_unique with (N / D / 2); nia. }
  repeat split.
  - rewrite shr_1_div2 by (rewrite Hm; lia). rewrite Hm, HND. reflexivity.
  - rewrite shr_1_odd by (rewrite Hm; lia). rewrite Hm, Hmod2.
    rewrite Zodd_mod.
    destruct (Z.eqb_spec ((N / D) mod 2) 1) as [E|E].
    + symmetry. apply Z.leb_le. rewrite E. lia.
    + symmetry. apply Z.leb_gt. assert ((N / D) mod 2 = 0) by lia. nia.
  - rewrite shr_1_sticky, Hr, Hs, Hmod2.
    assert (E : (2 * (D * ((N / D) mod 2) + N mod D)) mod (2 * D) = 2 * (N mod D)).
    { symmetry. apply Z.mod_unique with ((N / D) mod 2); nia. }
    rewrite E.
    destruct (Z.eq_dec (N mod D) 0) as [Z0|NZ].
    + rewrite Z0. change (2 * 0) with 0. rewrite Z.mod_0_l by lia.
      destruct (Z.leb_spec D 0); [lia | reflexivity].
    + replace (2 * (N mod D) =? 0) with false by (symmetry; apply Z.eqb_neq; lia).
      destruct (Z.leb_spec D (2 * (N mod D))) as [L|L]; [reflexivity|].
      rewrite Z.mod_small by lia.
      replace (2 * (N mod D) =? 0) with false by (symmetry; apply Z.eqb_neq; lia).
      reflexivity.
Qed.

Lemma Repr_iter_shr N D p mrs :
  0 <= N -> 0 < D -> Repr N D mrs ->
  Repr N (D * 2 ^ Zpos p) (iter_pos shr_1 p mrs).
Proof.
  intros HN. revert D mrs.
  induction p as [p IH|p IH|]; intros D mrs HD H; simpl iter_pos.
  - apply Repr_shr_1 in H; try lia.
    apply IH in H; try lia.
    apply IH in H.
    + replace (D * 2 ^ Z.pos p~1) with (2 * D * 2 ^ Z.pos p * 2 ^ Z.pos p); [exact H|].
      replace (Z.pos p~1) with (1 + Z.pos p + Z.pos p) by lia.
      rewrite !Z.pow_add_r by lia. rewrite Z.pow_1_r. ring.
    + assert (0 < 2 ^ Z.pos p) by (apply Z.pow_pos_nonneg; lia). nia.
  - apply IH in H; try lia.
    apply IH in H.
    + replace (D * 2 ^ Z.pos p~0) with (D * 2 ^ Z.pos p * 2 ^ Z.pos p); [exact H|].
      replace (Z.pos p~0) with (Z.pos p + Z.pos p) by lia.
      rewrite Z.pow_add_r by lia. ring.
    + assert (0 < 2 ^ Z.pos p) by (apply Z.pow_pos_nonneg; lia). nia.
  - replace (D * 2 ^ 1) with (2 * D) by (rewrite Z.pow_1_r; ring).
    apply Repr_shr_1; assumption.
Qed.

Lemma rne_Repr N D mrs :
  0 < D -> Repr N D mrs ->
  round_nearest_even (shr_m mrs) (loc_of_shr_record mrs) = rne N D.
Proof.
  intros HD. destruct mrs as [m r s]. unfold Repr. cbn [shr_m shr_r shr_s].
  intros (-> & -> & ->).
  assert (Hmod := Z.mod_pos_bound N D HD).
  unfold rne, loc_of_shr_record.
  destruct (Z.compare_spec (2 * (N mod D)) D) as [E|L|G].
  - rewrite E, Z.mod_same, Z.leb_refl by lia. reflexivity.
  - rewrite (proj2 (Z.leb_gt _ _) L).
    destruct (negb _); reflexivity.
  - rewrite (proj2 (Z.leb_le _ _)) by lia.
    replace ((2 * (N mod D)) mod D) with (2 * (N mod D) - D).
    + rewrite (proj2 (Z.eqb_neq _ _)) by lia. reflexivity.
    + apply Z.mod_unique with 1; lia.
Qed.
Lemma digits2_pos_bounds p :
  2 ^ (Zpos (digits2_pos p) - 1) <= Zpos p < 2 ^ Zpos (digits2_pos p).
Proof.
  induction p as [p IH|p IH|]; cbn [digits2_pos].
  - rewrite Pos2Z.inj_succ.
    replace (Z.succ (Z.pos (digits2_pos p)) - 1) with (1 + (Z.pos (digits2_pos p) - 1)) by lia.
    replace (Z.succ (Z.pos (digits2_pos p))) with (1 + Z.pos (digits2_pos p)) by lia.
    rewrite !Z.pow_add_r by lia. rewrite Z.pow_1_r. lia.
  - rewrite Pos2Z.inj_succ.
    replace (Z.succ (Z.pos (digits2_pos p)) - 1) with (1 + (Z.pos (digits2_pos p) - 1)) by lia.
    replace (Z.succ (Z.pos (digits2_pos p))) with (1 + Z.pos (digits2_pos p)) by lia.
    rewrite !Z.pow_add_r by lia. rewrite Z.pow_1_r. lia.
  - simpl. lia.
Qed.

Lemma Zdigits2_bounds m :
  0 < m -> 2 ^ (Zdigits2 m - 1) <= m < 2 ^ Zdigits2 m.
Proof.
  destruct m as [|p|p]; try lia. intros _. apply digits2_pos_bounds.
Qed.

Lemma Zdigits2_pos m : 0 < m -> 0 < Zdigits2 m.
Proof. destruct m; simpl; lia. Qed.

Lemma Zdigits2_nonneg m : 0 <= Zdigits2 m.
Proof. destruct m; simpl; lia. Qed.

Lemma Zdigits2_unique m d :
  2 ^ (d - 1) <= m < 2 ^ d -> 0 < m -> Zdigits2 m = d.
Proof.
  intros [L U] Hm.
  assert (B := Zdigits2_bounds m Hm).
  assert (P := Zdigits2_pos m Hm).
  assert (0 < d).
  { destruct (Z.ltb_spec 0 d); [assumption|].
    destruct (Z.eq_dec d 0) as [->|].
    - simpl in U. lia.
    - rewrite Z.pow_neg_r in U by lia. lia. }
  destruct (Z.lt_trichotomy (Zdigits2 m) d) as [Lt|[Eq|Gt]]; [|assumption|].
  - assert (2 ^ Zdigits2 m <= 2 ^ (d - 1)) by (apply Z.pow_le_mono_r; lia). lia.
  - assert (2 ^ d <= 2 ^ (Zdigits2 m - 1)) by (apply Z.pow_le_mono_r; lia). lia.
Qed.


Lemma Zdigits2_ge m d : 0 < m -> 2 ^ (d - 1) <= m -> d <= Zdigits2 m.
Proof.
  intros Hm L.
  assert (B := Zdigits2_bounds m Hm).
  destruct (Z.leb_spec d (Zdigits2 m)); [assumption|].
  assert (2 ^ Zdigits2 m <= 2 ^ (d - 1)) by (apply Z.pow_le_mono_r; lia). lia.
Qed.

Lemma Zdigits2_lt_pow m d : 0 <= m -> 0 <= d -> m < 2 ^ d -> Zdigits2 m <= d.
Proof.
  intros Hm Hd U.
  destruct (Z.eq_dec m 0) as [->|]; [simpl; lia|].
  assert (B := Zdigits2_bounds m ltac:(lia)).
  destruct (Z.leb_spec (Zdigits2 m) d); [assumption|].
  assert (2 ^ d <= 2 ^ (Zdigits2 m - 1)) by (apply Z.pow_le_mono_r; lia). lia.
Qed.

(** ** Nearest integer, ties to even *)

Lemma rne_bounds N D : 0 < D -> N / D <= rne N D <= N / D + 1.
Proof.
  intros HD. unfold rne.
  destruct (2 * (N mod D) ?= D); [destruct (Z.even _)| |]; lia.
Qed.

Lemma rne_exact N D : 0 < D -> N mod D = 0 -> rne N D = N / D.
Proof.
  intros HD E. unfold rne. rewrite E.
  rewrite (proj2 (Z.compare_lt_iff _ _)) by lia. reflexivity.
Qed.

Lemma rne_half N D : 0 < D -> 2 * Z.abs (rne N D * D - N) <= D.
Proof.
  intros HD. unfold rne.
  assert (Hmod := Z.mod_pos_bound N D HD).
  assert (Hdm := Z.div_mod N D ltac:(lia)).
  destruct (Z.compare_spec (2 * (N mod D)) D) as [E|L|G];
    [destruct (Z.even _)| |]; nia.
Qed.

Lemma rne_nonneg N D : 0 <= N -> 0 < D -> 0 <= rne N D.
Proof.
  intros HN HD. assert (B := rne_bounds N D HD).
  assert (0 <= N / D) by (apply Z.div_pos; lia). lia.
Qed.

Lemma near_cases D q r m :
  0 < D -> 0 <= r < D -> 2 * Z.abs (m * D - (D * q + r)) <= D ->
  m = q \/ m = q + 1.
Proof.
  intros HD Hr H.
  destruct (Z.le_gt_cases m (q - 1)) as [L|L].
  - exfalso. assert ((q - m) * D >= D) by nia. lia.
  - destruct (Z.le_gt_cases (q + 2) m) as [G|G].
    + exfalso. assert ((m - q) * D >= 2 * D) by nia. lia.
    + lia.
Qed.

(** [rne N D] is the only integer within one half of [N/D], even at a tie. *)
Lemma rne_unique N D m :
  0 < D ->
  2 * Z.abs (m * D - N) < D \/ (2 * Z.abs (m * D - N) = D /\ Z.even m = true) ->
  rne N D = m.
Proof.
  intros HD H. unfold rne.
  assert (Hmod := Z.mod_pos_bound N D HD).
  assert (Hdm := Z.div_mod N D ltac:(lia)).
  set (q := N / D) in *. set (r := N mod D) in *.
  assert (C : m = q \/ m = q + 1).
  { apply (near_cases D q r m HD Hmod). rewrite <- Hdm. lia. }
  destruct (Z.compare_spec (2 * r) D) as [E|L|G].
  - destruct H as [H|[H Hev]]; [destruct C as [-> | ->]; lia|].
    destruct C as [-> | ->].
    + rewrite Hev. reflexivity.
    + replace (Z.even q) with false; [reflexivity|].
      rewrite Z.even_add in Hev. simpl in Hev.
      destruct (Z.even q); simpl in Hev; congruence.
  - destruct C as [-> | ->]; [reflexivity|]. destruct H as [H|[H Hev]]; lia.
  - destruct C as [-> | ->]; [|reflexivity]. destruct H as [H|[H Hev]]; lia.
Qed.

Lemma rne_scale N D k : 0 < D -> 0 < k -> rne (N * k) (D * k) = rne N D.
Proof.
  intros HD Hk. apply rne_unique; [nia|].
  assert (H := rne_half N D HD).
  assert (Hmod := Z.mod_pos_bound N D HD).
  assert (Hdm := Z.div_mod N D ltac:(lia)).
  unfold rne in *.
  destruct (Z.compare_spec (2 * (N mod D)) D) as [E|L|G].
  - right. destruct (Z.even (N / D)) eqn:Ev.
    + split; [nia | assumption].
    + split; [nia |]. rewrite Z.even_add, Ev. reflexivity.
  - left. nia.
  - left. nia.
Qed.

Lemma rne_mono N D N' D' :
  0 < D -> 0 < D' -> N * D' <= N' * D -> rne N D <= rne N' D'.
Proof.
  intros HD HD' H.
  assert (Hmod := Z.mod_pos_bound N D HD).
  assert (Hdm := Z.div_mod N D ltac:(lia)).
  assert (Hmod' := Z.mod_pos_bound N' D' HD').
  assert (Hdm' := Z.div_mod N' D' ltac:(lia)).
  unfold rne.
  set (q := N / D) in *. set (r := N mod D) in *.
  set (q' := N' / D') in *. set (r' := N' mod D') in *.
  assert (Hq : q <= q').
  { destruct (Z.leb_spec q q'); [assumption|]. exfalso.
    assert (q' + 1 <= q) by lia.
    assert (N' * D < (q' + 1) * D' * D) by nia.
    assert ((q' + 1) * D' * D <= q * D' * D) by nia.
    nia. }
  destruct (Z.eq_dec q q') as [Eq|Ne].
  - (* same integer part: compare fractions *)
    rewrite <- Eq in *.
    assert (Hr : r * D' <= r' * D) by nia.
    destruct (Z.compare_spec (2 * r) D) as [E|L|G];
      destruct (Z.compare_spec (2 * r') D') as [E'|L'|G'];
      try destruct (Z.even q); try lia; nia.
  - assert (q + 1 <= q') by lia.
    destruct (2 * r ?= D); destruct (2 * r' ?= D');
      try destruct (Z.even q); try destruct (Z.even q'); lia.
Qed.

Lemma pow2_pos k : 0 < 2 ^ k \/ k < 0.
Proof.
  destruct (Z.ltb_spec k 0); [right; assumption | left; apply Z.pow_pos_nonneg; lia].
Qed.

Lemma pow2_gt0 k : 0 <= k -> 0 < 2 ^ k.
Proof. intros; apply Z.pow_pos_nonneg; lia. Qed.

Lemma Zdigits2_mono a b : 0 <= a <= b -> Zdigits2 a <= Zdigits2 b.
Proof.
  intros [Ha Hab].
  destruct (Z.eq_dec a 0) as [->|Na]; [apply Zdigits2_nonneg|].
  apply Zdigits2_ge; [lia|].
  assert (B := Zdigits2_bounds a ltac:(lia)). lia.
Qed.

Lemma Zdigits2_mul_pow2 m k :
  0 < m -> 0 <= k -> Zdigits2 (m * 2 ^ k) = Zdigits2 m + k.
Proof.
  intros Hm Hk.
  assert (B := Zdigits2_bounds m Hm).
  assert (P := pow2_gt0 k Hk).
  assert (Pd := Zdigits2_pos m Hm).
  apply Zdigits2_unique; [|nia].
  replace (Zdigits2 m + k - 1) with (Zdigits2 m - 1 + k) by lia.
  rewrite !Z.pow_add_r by lia. nia.
Qed.

Lemma Zdigits2_div_pow2 m k :
  0 <= m -> 0 <= k -> Zdigits2 (m / 2 ^ k) = Z.max (Zdigits2 m - k) 0.
Proof.
  intros Hm Hk.
  assert (P := pow2_gt0 k Hk).
  destruct (Z.eq_dec m 0) as [->|Nm].
  { rewrite Z.div_0_l by lia. simpl. lia. }
  assert (B := Zdigits2_bounds m ltac:(lia)).
  assert (Pd := Zdigits2_pos m ltac:(lia)).
  destruct (Z.leb_spec (Zdigits2 m) k) as [L|G].
  - (* all bits shifted out *)
    assert (2 ^ Zdigits2 m <= 2 ^ k) by (apply Z.pow_le_mono_r; lia).
    rewrite Z.div_small by lia. simpl. lia.
  - assert (E : 2 ^ (Zdigits2 m - 1) = 2 ^ (Zdigits2 m - k - 1) * 2 ^ k).
    { rewrite <- Z.pow_add_r by lia. f_equal. lia. }
    assert (E' : 2 ^ Zdigits2 m = 2 ^ (Zdigits2 m - k) * 2 ^ k).
    { rewrite <- Z.pow_add_r by lia. f_equal. lia. }
    assert (L1 : 2 ^ (Zdigits2 m - k - 1) <= m / 2 ^ k).
    { apply Z.div_le_lower_bound; lia. }
    assert (L2 : m / 2 ^ k < 2 ^ (Zdigits2 m - k)).
    { apply Z.div_lt_upper_bound; lia. }
    assert (0 < 2 ^ (Zdigits2 m - k - 1)) by (apply pow2_gt0; lia).
    rewrite (Zdigits2_unique (m / 2 ^ k) (Zdigits2 m - k)); lia.
Qed.

Lemma Zdigits2_floor_scale N D j :
  0 < D -> 1 <= N / D -> 0 <= j ->
  Zdigits2 (N * 2 ^ j / D) = Zdigits2 (N / D) + j.
Proof.
  intros HD Hq Hj.
  assert (P := pow2_gt0 j Hj).
  assert (B := Zdigits2_bounds (N / D) ltac:(lia)).
  assert (Pd := Zdigits2_pos (N / D) ltac:(lia)).
  assert (Hmod := Z.mod_pos_bound N D HD).
  assert (Hdm := Z.div_mod N D ltac:(lia)).
  set (q := N / D) in *. set (d := Zdigits2 q) in *.
  assert (L1 : 2 ^ (d + j - 1) <= N * 2 ^ j / D).
  { apply Z.div_le_lower_bound; [lia|].
    replace (d + j - 1) with (d - 1 + j) by lia. rewrite Z.pow_add_r by lia.
    assert (D * 2 ^ (d - 1) <= N) by nia.
    rewrite Z.mul_assoc. apply Z.mul_le_mono_nonneg_r; lia. }
  assert (L2 : N * 2 ^ j / D < 2 ^ (d + j)).
  { apply Z.div_lt_upper_bound; [lia|].
    rewrite Z.pow_add_r by lia.
    assert (N < D * 2 ^ d) by nia.
    rewrite Z.mul_assoc. apply Z.mul_lt_mono_pos_r; lia. }
  assert (0 < 2 ^ (d + j - 1)) by (apply pow2_gt0; lia).
  apply Zdigits2_unique; lia.
Qed.
Section Rounding.
Variables prec emax : Z.
Hypothesis Hprec : 0 < prec.
Hypothesis Hemax : prec < emax.

#[local] Set Default Proof Using "Hprec Hemax".

Abbreviation emin := (SpecFloat.emin prec emax).
Abbreviation fexp := (fexp prec emax).

Lemma fexp_ge_emin k : emin <= fexp k.
Proof. unfold SpecFloat.fexp. lia. Qed.

Lemma shr_fexp_char N D q l e :
  0 <= N -> 0 < D -> Repr N D (shr_record_of_loc q l) ->
  e <= fexp (Zdigits2 q + e) ->
  exists mrs,
    shr_fexp prec emax q e l = (mrs, fexp (Zdigits2 q + e)) /\
    Repr N (D * 2 ^ (fexp (Zdigits2 q + e) - e)) mrs.
Proof.
  intros HN HD HR Hn. unfold shr_fexp, shr.
  set (E := fexp (Zdigits2 q + e)) in *.
  destruct (E - e) as [|p|p] eqn:En.
  - exists (shr_record_of_loc q l). split.
    + f_equal. lia.
    + rewrite Z.pow_0_r, Z.mul_1_r. assumption.
  - exists (iter_pos shr_1 p (shr_record_of_loc q l)). split.
    + f_equal. lia.
    + apply Repr_iter_shr; assumption.
  - lia.
Qed.

Lemma Repr_exact m : Repr m 1 (shr_record_of_loc m loc_Exact).
Proof.
  unfold Repr. cbn [shr_record_of_loc shr_m shr_r shr_s].
  rewrite Z.div_1_r, Z.mod_1_r. repeat split.
Qed.

Lemma Repr_m N D mrs : Repr N D mrs -> shr_m mrs = N / D.
Proof. intros H; apply H. Qed.

Lemma binary_round_aux_stage N D q l e s :
  0 <= N -> 0 < D -> Repr N D (shr_record_of_loc q l) ->
  e <= fexp (Zdigits2 q + e) ->
  let E := fexp (Zdigits2 q + e) in
  let m1 := rne N (D * 2 ^ (E - e)) in
  0 <= m1 <= 2 ^ prec /\
  binary_round_aux prec emax s q e l =
    if m1 <? 2 ^ prec then finish prec emax s m1 E
    else finish prec emax s (2 ^ (prec - 1)) (E + 1).
Proof.
  intros HN HD HR Hn E m1.
  assert (Hq : q = N / D).
  { destruct HR as [H _]. destruct l as [|[| |]]; exact H. }
  assert (Hq0 : 0 <= q) by (subst q; apply Z.div_pos; lia).
  assert (P := pow2_gt0 (E - e) ltac:(lia)).
  assert (HD1 : 0 < D * 2 ^ (E - e)) by nia.
  assert (Hm1 : 0 <= m1 <= 2 ^ prec).
  { split; [apply rne_nonneg; assumption|].
    assert (B := rne_bounds N (D * 2 ^ (E - e)) HD1). fold m1 in B.
    rewrite <- Z.div_div in B by lia. rewrite <- Hq in B.
    assert (Hd : Zdigits2 (q / 2 ^ (E - e)) <= prec).
    { rewrite Zdigits2_div_pow2 by lia. unfold E, SpecFloat.fexp in *. lia. }
    assert (q / 2 ^ (E - e) < 2 ^ prec).
    { assert (0 <= q / 2 ^ (E - e)) by (apply Z.div_pos; lia).
      destruct (Z.eq_dec (q / 2 ^ (E - e)) 0) as [->|Nz]; [apply pow2_gt0; lia|].
      assert (B' := Zdigits2_bounds (q / 2 ^ (E - e)) ltac:(lia)).
      assert (2 ^ Zdigits2 (q / 2 ^ (E - e)) <= 2 ^ prec) by (apply Z.pow_le_mono_r; lia).
      lia. }
    lia. }
  split; [exact Hm1|].
  unfold binary_round_aux.
  destruct (shr_fexp_char N D q l e HN HD HR Hn) as (mrs & -> & HR1).
  fold E in HR1 |- *.
  rewrite (rne_Repr _ _ _ HD1 HR1). fold m1.
  unfold shr_fexp, shr.
  destruct (Z.ltb_spec m1 (2 ^ prec)) as [Lt|Ge].
  - (* no carry *)
    assert (Hd : Zdigits2 m1 <= prec) by (apply Zdigits2_lt_pow; lia).
    assert (Hs : fexp (Zdigits2 m1 + E) - E <= 0).
    { assert (emin <= E) by apply fexp_ge_emin. unfold SpecFloat.fexp. lia. }
    destruct (fexp (Zdigits2 m1 + E) - E) as [|p|p]; try lia;
      cbn [shr_record_of_loc shr_m]; reflexivity.
  - (* carry: the mantissa is 2^prec *)
    assert (Em : m1 = 2 ^ prec) by lia.
    assert (Hd : Zdigits2 m1 = prec + 1).
    { apply Zdigits2_unique; [|lia]. rewrite Em.
      replace (prec + 1 - 1) with prec by lia. split; [lia|].
      apply Z.pow_lt_mono_r; lia. }
    assert (Hs : fexp (Zdigits2 m1 + E) - E = 1).
    { assert (emin <= E) by apply fexp_ge_emin. rewrite Hd. unfold SpecFloat.fexp. lia. }
    rewrite Hs. cbn [iter_pos].
    rewrite shr_1_div2 by (cbn [shr_record_of_loc shr_m]; lia).
    cbn [shr_record_of_loc shr_m]. rewrite Em.
    replace (2 ^ prec / 2) with (2 ^ (prec - 1)).
    + reflexivity.
    + replace prec with (1 + (prec - 1)) at 2 by lia.
      rewrite Z.pow_add_r by lia. rewrite Z.pow_1_r.
      rewrite Z.mul_comm, Z.div_mul by lia. reflexivity.
Qed.

Lemma INF_pos : 0 < INF prec emax.
Proof. unfold INF, SpecFloat.emin. apply pow2_gt0. lia. Qed.

Lemma encode_canonical s m E :
  0 < m < 2 ^ prec -> emin <= E -> (E = emin \/ Zdigits2 m = prec) ->
  encode prec emax s (Z.min (m * 2 ^ (E - emin)) (INF prec emax)) =
  finish prec emax s m E.
Proof.
  intros Hm HE Hc.
  assert (P := pow2_gt0 (E - emin) ltac:(lia)).
  assert (Hz : 0 < m * 2 ^ (E - emin)) by nia.
  assert (HI := INF_pos).
  unfold finish. destruct m as [|p|p]; try lia.
  destruct (Z.leb_spec E (emax - prec)) as [Le|Gt].
  - (* finite *)
    assert (Hlt : Z.pos p * 2 ^ (E - emin) < INF prec emax).
    { unfold INF.
      replace (emax - emin) with (prec + (emax - prec - emin)) by lia.
      unfold SpecFloat.emin in *.
      rewrite Z.pow_add_r by lia.
      assert (2 ^ (E - (3 - emax - prec)) <= 2 ^ (emax - prec - (3 - emax - prec)))
        by (apply Z.pow_le_mono_r; lia).
      nia. }
    rewrite Z.min_l by lia.
    unfold encode.
    rewrite (proj2 (Z.eqb_neq _ _)) by lia.
    rewrite (proj2 (Z.leb_gt _ _)) by lia.
    rewrite Zdigits2_mul_pow2 by lia.
    assert (Hd : Zdigits2 (Z.pos p) <= prec) by (apply Zdigits2_lt_pow; lia).
    assert (Hk : Z.max (Zdigits2 (Z.pos p) + (E - emin) - prec) 0 = E - emin) by lia.
    rewrite Hk. rewrite Z.div_mul by lia.
    f_equal. lia.
  - (* overflow *)
    assert (Hd : Zdigits2 (Z.pos p) = prec) by (unfold SpecFloat.emin in *; lia).
    assert (B := Zdigits2_bounds (Z.pos p) ltac:(lia)). rewrite Hd in B.
    assert (Hge : INF prec emax <= Z.pos p * 2 ^ (E - emin)).
    { unfold INF.
      assert (2 ^ (emax - emin) <= 2 ^ (prec - 1 + (E - emin)))
        by (apply Z.pow_le_mono_r; lia).
      rewrite Z.pow_add_r in H by lia. nia. }
    rewrite Z.min_r by lia.
    unfold encode.
    rewrite (proj2 (Z.eqb_neq _ _)) by lia.
    rewrite Z.leb_refl. reflexivity.
Qed.

Lemma encode_0 s : encode prec emax s 0 = S754_zero s.
Proof. reflexivity. Qed.


Lemma binary_round_aux_encode N D q l e s :
  0 <= N -> 0 < D -> Repr N D (shr_record_of_loc q l) ->
  e <= fexp (Zdigits2 q + e) ->
  binary_round_aux prec emax s q e l =
  encode prec emax s
    (Z.min (R prec (scale_num prec emax N e) (scale_den prec emax D e)) (INF prec emax)).
Proof.
  intros HN HD HR Hn.
  destruct (binary_round_aux_stage N D q l e s HN HD HR Hn) as [Hm1 ->].
  set (E := fexp (Zdigits2 q + e)) in *.
  set (m1 := rne N (D * 2 ^ (E - e))) in *.
  assert (Hq : q = N / D).
  { destruct HR as [H _]. destruct l as [|[| |]]; exact H. }
  assert (Hq0 : 0 <= q) by (subst q; apply Z.div_pos; lia).
  assert (HE : emin <= E) by apply fexp_ge_emin.
  assert (P := pow2_gt0 (E - e) ltac:(lia)).
  assert (P1 := pow2_gt0 (Z.max (e - emin) 0) ltac:(lia)).
  assert (P2 := pow2_gt0 (Z.max (emin - e) 0) ltac:(lia)).
  assert (P3 := pow2_gt0 (E - emin) ltac:(lia)).
  assert (HD1 : 0 < D * 2 ^ (E - e)) by nia.
  (* the shift of R is E - emin *)
  assert (Hs : Z.max (Zdigits2 (scale_num prec emax N e / scale_den prec emax D e) - prec) 0 = E - emin).
  { unfold scale_num, scale_den.
    destruct (Z.leb_spec emin e) as [Le|Gt].
    - rewrite (Z.max_r (emin - e) 0) by lia. rewrite Z.pow_0_r, Z.mul_1_r.
      rewrite (Z.max_l (e - emin) 0) by lia.
      destruct (Z.eq_dec q 0) as [Q0|Q0].
      + assert (e = emin).
        { unfold E in Hn. rewrite Q0 in Hn. simpl in Hn.
          unfold SpecFloat.fexp in Hn. lia. }
        replace (e - emin) with 0 by lia. rewrite Z.pow_0_r, Z.mul_1_r.
        rewrite <- Hq, Q0. simpl. unfold E. rewrite Q0. simpl.
        unfold SpecFloat.fexp. lia.
      + rewrite Zdigits2_floor_scale by lia. rewrite <- Hq.
        unfold E, SpecFloat.fexp. lia.
    - rewrite (Z.max_l (emin - e) 0) by lia.
      rewrite (Z.max_r (e - emin) 0) by lia. rewrite Z.pow_0_r, Z.mul_1_r.
      rewrite <- Z.div_div by lia. rewrite <- Hq.
      rewrite Zdigits2_div_pow2 by lia.
      unfold E, SpecFloat.fexp. lia. }
  (* the rounded mantissa of R is m1 *)
  assert (Hr : rne (scale_num prec emax N e) (scale_den prec emax D e * 2 ^ (E - emin)) = m1).
  { unfold scale_num, scale_den, m1.
    destruct (Z.leb_spec emin e) as [Le|Gt].
    - rewrite (Z.max_r (emin - e) 0) by lia. rewrite Z.pow_0_r, Z.mul_1_r.
      rewrite (Z.max_l (e - emin) 0) by lia.
      replace (E - emin) with ((E - e) + (e - emin)) by lia.
      rewrite Z.pow_add_r by lia. rewrite Z.mul_assoc.
      apply rne_scale; [lia | apply pow2_gt0; lia].
    - rewrite (Z.max_l (emin - e) 0) by lia.
      rewrite (Z.max_r (e - emin) 0) by lia. rewrite Z.pow_0_r, Z.mul_1_r.
      rewrite <- Z.mul_assoc, <- Z.pow_add_r by lia.
      f_equal. f_equal. f_equal. lia. }
  assert (HR' : R prec (scale_num prec emax N e) (scale_den prec emax D e) = m1 * 2 ^ (E - emin)).
  { unfold R. cbv zeta. rewrite Hs, Hr. reflexivity. }
  rewrite HR'.
  destruct (Z.ltb_spec m1 (2 ^ prec)) as [Lt|Ge].
  - destruct (Z.eq_dec m1 0) as [Z0|NZ].
    + rewrite Z0. simpl. rewrite Z.min_l by (assert (H := INF_pos); lia).
      reflexivity.
    + symmetry. apply encode_canonical; [lia | exact HE |].
      destruct (Z.eq_dec E emin) as [Ee|Ne]; [left; exact Ee | right].
      (* normal: the mantissa has all its digits *)
      assert (EE : E = Zdigits2 q + e - prec) by (unfold E, SpecFloat.fexp in *; lia).
      assert (B := rne_bounds N (D * 2 ^ (E - e)) HD1). fold m1 in B.
      rewrite <- Z.div_div in B by lia. rewrite <- Hq in B.
      assert (Hd : Zdigits2 (q / 2 ^ (E - e)) = prec).
      { rewrite Zdigits2_div_pow2 by lia. lia. }
      assert (Hd1 : Zdigits2 (q / 2 ^ (E - e)) <= Zdigits2 m1).
      { apply Zdigits2_mono. split; [apply Z.div_pos; lia | lia]. }
      assert (Hd2 : Zdigits2 m1 <= prec) by (apply Zdigits2_lt_pow; lia).
      lia.
  - assert (Em : m1 = 2 ^ prec) by lia.
    assert (Pp := pow2_gt0 (prec - 1) ltac:(lia)).
    assert (E2 : 2 ^ prec = 2 ^ (prec - 1) * 2).
    { replace prec with ((prec - 1) + 1) at 1 by lia.
      rewrite Z.pow_add_r by lia. reflexivity. }
    replace (m1 * 2 ^ (E - emin)) with (2 ^ (prec - 1) * 2 ^ (E + 1 - emin)).
    + symmetry. apply encode_canonical; [|lia|].
      * split; [lia|]. apply Z.pow_lt_mono_r; lia.
      * right. apply Zdigits2_unique; [|lia].
        replace (prec - 1) with (prec - 1) by lia. split; [lia|].
        apply Z.pow_lt_mono_r; lia.
    + rewrite Em, E2.
      replace (E + 1 - emin) with (1 + (E - emin)) by lia.
      rewrite Z.pow_add_r by lia. rewrite Z.pow_1_r. ring.
Qed.

(** ** The rounding function [R] on fractions *)

Lemma div_le_cross A B A' B' :
  0 < B -> 0 < B' -> A * B' <= A' * B -> A / B <= A' / B'.
Proof.
  intros HB HB' H.
  apply Z.div_le_lower_bound; [assumption|].
  assert (Hm := Z.mul_div_le A B HB).
  (* B' * (A / B) <= A' : multiply by B *)
  destruct (Z.le_gt_cases (B' * (A / B)) A') as [L|G]; [assumption|exfalso].
  assert (A' + 1 <= B' * (A / B)) by lia.
  assert ((A' + 1) * B <= B' * (A / B) * B) by (apply Z.mul_le_mono_nonneg_r; lia).
  assert (B' * (A / B) * B <= B' * A) by nia.
  nia.
Qed.

Lemma R_shape A B :
  0 <= A -> 0 < B ->
  let s := Z.max (Zdigits2 (A / B) - prec) 0 in
  let m := rne A (B * 2 ^ s) in
  R prec A B = m * 2 ^ s /\ 0 <= m <= 2 ^ prec /\
  (prec <= Zdigits2 (A / B) -> 2 ^ (prec - 1) <= m).
Proof.
  intros HA HB s m.
  assert (Hs : 0 <= s) by (unfold s; lia).
  assert (P := pow2_gt0 s Hs).
  assert (HB1 : 0 < B * 2 ^ s) by nia.
  assert (Hg : 0 <= A / B) by (apply Z.div_pos; lia).
  assert (Bm := rne_bounds A (B * 2 ^ s) HB1). fold m in Bm.
  rewrite <- Z.div_div in Bm by lia.
  assert (Hq : 0 <= A / B / 2 ^ s) by (apply Z.div_pos; lia).
  assert (Hd : Zdigits2 (A / B / 2 ^ s) = Z.max (Zdigits2 (A / B) - s) 0)
    by (apply Zdigits2_div_pow2; lia).
  split; [reflexivity|]. split.
  - split; [lia|].
    assert (A / B / 2 ^ s < 2 ^ prec).
    { destruct (Z.eq_dec (A / B / 2 ^ s) 0) as [->|Nz]; [apply pow2_gt0; lia|].
      assert (B' := Zdigits2_bounds (A / B / 2 ^ s) ltac:(lia)).
      assert (2 ^ Zdigits2 (A / B / 2 ^ s) <= 2 ^ prec)
        by (apply Z.pow_le_mono_r; unfold s in *; lia).
      lia. }
    lia.
  - intros Hn.
    assert (Hd' : Zdigits2 (A / B / 2 ^ s) = prec) by (unfold s in *; lia).
    assert (A / B / 2 ^ s <> 0).
    { intros E0. rewrite E0 in Hd'. simpl in Hd'. lia. }
    assert (B' := Zdigits2_bounds (A / B / 2 ^ s) ltac:(lia)).
    rewrite Hd' in B'. lia.
Qed.

Lemma R_nonneg A B : 0 <= A -> 0 < B -> 0 <= R prec A B.
Proof.
  intros HA HB. destruct (R_shape A B HA HB) as (-> & Hm & _).
  assert (0 < 2 ^ Z.max (Zdigits2 (A / B) - prec) 0) by (apply pow2_gt0; lia).
  nia.
Qed.

Lemma R_0 B : 0 < B -> R prec 0 B = 0.
Proof.
  intros HB. unfold R. rewrite Z.div_0_l by lia. simpl Zdigits2.
  rewrite Z.max_r by lia. rewrite Z.pow_0_r, Z.mul_1_r.
  rewrite rne_exact by (try lia; apply Z.mod_0_l; lia).
  rewrite Z.div_0_l by lia. reflexivity.
Qed.

Lemma R_mono A B A' B' :
  0 <= A -> 0 < B -> 0 <= A' -> 0 < B' -> A * B' <= A' * B ->
  R prec A B <= R prec A' B'.
Proof.
  intros HA HB HA' HB' H.
  destruct (R_shape A B HA HB) as (-> & Hm & _).
  destruct (R_shape A' B' HA' HB') as (-> & Hm' & Hn').
  assert (Hg : A / B <= A' / B') by (apply div_le_cross; assumption).
  assert (Hg0 : 0 <= A / B) by (apply Z.div_pos; lia).
  assert (Hdg : Zdigits2 (A / B) <= Zdigits2 (A' / B')) by (apply Zdigits2_mono; lia).
  set (s := Z.max (Zdigits2 (A / B) - prec) 0) in *.
  set (s' := Z.max (Zdigits2 (A' / B') - prec) 0) in *.
  set (m := rne A (B * 2 ^ s)) in *.
  set (m' := rne A' (B' * 2 ^ s')) in *.
  assert (P := pow2_gt0 s ltac:(unfold s; lia)).
  assert (P' := pow2_gt0 s' ltac:(unfold s'; lia)).
  destruct (Z.eq_dec s s') as [Es|Ns].
  - assert (m <= m').
    { unfold m, m'. rewrite <- Es. apply rne_mono; try nia. }
    rewrite <- Es. nia.
  - assert (Hlt : s + 1 <= s') by (unfold s, s' in *; lia).
    assert (Hn : 2 ^ (prec - 1) <= m') by (apply Hn'; unfold s, s' in *; lia).
    assert (E1 : 2 ^ prec * 2 ^ s = 2 ^ (prec - 1) * 2 ^ (s + 1)).
    { rewrite <- !Z.pow_add_r by (unfold s; lia). f_equal. lia. }
    assert (E2 : 2 ^ (s + 1) <= 2 ^ s') by (apply Z.pow_le_mono_r; lia).
    assert (Pp := pow2_gt0 (prec - 1) ltac:(lia)).
    assert (m * 2 ^ s <= 2 ^ prec * 2 ^ s) by nia.
    assert (2 ^ (prec - 1) * 2 ^ (s + 1) <= 2 ^ (prec - 1) * 2 ^ s') by nia.
    assert (2 ^ (prec - 1) * 2 ^ s' <= m' * 2 ^ s') by nia.
    lia.
Qed.

Lemma R_ext A B A' B' :
  0 <= A -> 0 < B -> 0 <= A' -> 0 < B' -> A * B' = A' * B ->
  R prec A B = R prec A' B'.
Proof.
  intros HA HB HA' HB' H. apply Z.le_antisymm; apply R_mono; lia.
Qed.

(** Relative error at most [2^-prec] on normal values. *)
Lemma R_error A B :
  0 <= A -> 0 < B -> prec <= Zdigits2 (A / B) ->
  2 ^ prec * Z.abs (R prec A B * B - A) <= A.
Proof.
  intros HA HB Hn.
  destruct (R_shape A B HA HB) as (-> & Hm & _).
  set (s := Z.max (Zdigits2 (A / B) - prec) 0) in *.
  assert (Hs : s = Zdigits2 (A / B) - prec) by (unfold s; lia).
  assert (P := pow2_gt0 s ltac:(lia)).
  assert (HB1 : 0 < B * 2 ^ s) by nia.
  assert (Hh := rne_half A (B * 2 ^ s) HB1).
  set (m := rne A (B * 2 ^ s)) in *.
  assert (Hg : A / B <> 0).
  { intros E0. rewrite E0 in Hn. simpl in Hn. lia. }
  assert (Hg0 : 0 <= A / B) by (apply Z.div_pos; lia).
  assert (Bg := Zdigits2_bounds (A / B) ltac:(lia)).
  assert (E : 2 ^ (Zdigits2 (A / B) - 1) = 2 ^ (prec - 1) * 2 ^ s).
  { rewrite <- Z.pow_add_r by lia. f_equal. lia. }
  assert (Hmul := Z.mul_div_le A B HB).
  assert (L : B * (2 ^ (prec - 1) * 2 ^ s) <= A) by nia.
  assert (E2 : 2 ^ prec = 2 * 2 ^ (prec - 1)).
  { replace prec with (1 + (prec - 1)) at 1 by lia.
    rewrite Z.pow_add_r by lia. reflexivity. }
  replace (m * 2 ^ s * B - A) with (m * (B * 2 ^ s) - A) by ring.
  rewrite E2.
  assert (Pp := pow2_gt0 (prec - 1) ltac:(lia)).
  assert (2 ^ (prec - 1) * (2 * Z.abs (m * (B * 2 ^ s) - A)) <= 2 ^ (prec - 1) * (B * 2 ^ s))
    by (apply Z.mul_le_mono_nonneg_l; lia).
  nia.
Qed.

(** Doubling commutes with rounding on normal values. *)
Lemma R_double A B :
  0 <= A -> 0 < B -> prec <= Zdigits2 (A / B) ->
  R prec (2 * A) B = 2 * R prec A B.
Proof.
  intros HA HB Hn.
  assert (Hg : A / B <> 0).
  { intros E0. rewrite E0 in Hn. simpl in Hn. lia. }
  assert (Hg0 : 0 <= A / B) by (apply Z.div_pos; lia).
  unfold R. cbv zeta.
  replace (2 * A) with (A * 2 ^ 1) by (rewrite Z.pow_1_r; ring).
  rewrite Zdigits2_floor_scale by lia.
  set (s := Z.max (Zdigits2 (A / B) - prec) 0).
  replace (Z.max (Zdigits2 (A / B) + 1 - prec) 0) with (1 + s) by (unfold s; lia).
  rewrite Z.pow_add_r by (unfold s; lia).
  rewrite Z.pow_1_r.
  replace (B * (2 * 2 ^ s)) with (B * 2 ^ s * 2) by ring.
  rewrite rne_scale; [ring| |lia].
  assert (P := pow2_gt0 s ltac:(unfold s; lia)). nia.
Qed.

(** Values with at most [prec] digits, scaled, are not changed. *)
Lemma R_exact m k :
  0 <= m < 2 ^ prec -> 0 <= k -> R prec (m * 2 ^ k) 1 = m * 2 ^ k.
Proof.
  intros Hm Hk. unfold R. cbv zeta. rewrite Z.div_1_r, Z.mul_1_l.
  assert (P := pow2_gt0 k Hk).
  destruct (Z.eq_dec m 0) as [->|Nz].
  { simpl. rewrite Z.max_r by lia. rewrite Z.pow_0_r.
    rewrite rne_exact by (try lia; reflexivity). reflexivity. }
  rewrite Zdigits2_mul_pow2 by lia.
  assert (Hd : Zdigits2 m <= prec) by (apply Zdigits2_lt_pow; lia).
  set (s := Z.max (Zdigits2 m + k - prec) 0).
  assert (Hs : 0 <= s <= k) by (unfold s; lia).
  assert (Ps := pow2_gt0 s ltac:(lia)).
  assert (E : 2 ^ k = 2 ^ (k - s) * 2 ^ s).
  { rewrite <- Z.pow_add_r by lia. f_equal. lia. }
  rewrite rne_exact.
  - rewrite E. rewrite Z.mul_assoc. rewrite Z.div_mul by lia. ring.
  - lia.
  - rewrite E. rewrite Z.mul_assoc. apply Z.mod_mul. lia.
Qed.

(** ** Canonical floats and their order *)

Lemma bounded_canonical m e :
  bounded prec emax m e = true ->
  emin <= e <= emax - prec /\ Zdigits2 (Zpos m) <= prec /\
  (e = emin \/ Zdigits2 (Zpos m) = prec).
Proof.
  unfold bounded, canonical_mantissa. intros H.
  apply andb_true_iff in H. destruct H as [H1 H2].
  apply Z.eqb_eq in H1. apply Z.leb_le in H2.
  unfold SpecFloat.fexp in H1. simpl Zdigits2. lia.
Qed.

Lemma canonical_bounded m e :
  emin <= e <= emax - prec -> Zdigits2 (Zpos m) <= prec ->
  (e = emin \/ Zdigits2 (Zpos m) = prec) ->
  bounded prec emax m e = true.
Proof.
  intros He Hd Hc. unfold bounded, canonical_mantissa.
  apply andb_true_iff. split; [apply Z.eqb_eq | apply Z.leb_le; lia].
  unfold SpecFloat.fexp. simpl Zdigits2 in *. lia.
Qed.

Lemma canonical_lt_INF m E :
  0 < m < 2 ^ prec -> emin <= E -> (E = emin \/ Zdigits2 m = prec) ->
  (E <= emax - prec -> m * 2 ^ (E - emin) < INF prec emax) /\
  (emax - prec < E -> INF prec emax <= m * 2 ^ (E - emin)).
Proof.
  intros Hm HE Hc.
  assert (P := pow2_gt0 (E - emin) ltac:(lia)).
  split; intros H.
  - unfold INF.
    replace (emax - emin) with (prec + (emax - prec - emin)) by lia.
    unfold SpecFloat.emin in *.
    rewrite Z.pow_add_r by lia.
    assert (2 ^ (E - (3 - emax - prec)) <= 2 ^ (emax - prec - (3 - emax - prec)))
      by (apply Z.pow_le_mono_r; lia).
    nia.
  - assert (Hd : Zdigits2 m = prec) by (unfold SpecFloat.emin in *; lia).
    assert (B := Zdigits2_bounds m ltac:(lia)). rewrite Hd in B.
    unfold INF.
    assert (H1 : 2 ^ (emax - emin) <= 2 ^ (prec - 1 + (E - emin)))
      by (apply Z.pow_le_mono_r; lia).
    rewrite Z.pow_add_r in H1 by lia. nia.
Qed.

Lemma R_canonical A B :
  0 <= A -> 0 < B ->
  R prec A B = 0 \/
  exists m E, 0 < m < 2 ^ prec /\ emin <= E /\
              (E = emin \/ Zdigits2 m = prec) /\
              R prec A B = m * 2 ^ (E - emin).
Proof.
  intros HA HB.
  destruct (R_shape A B HA HB) as (-> & Hm & Hn).
  set (s := Z.max (Zdigits2 (A / B) - prec) 0) in *.
  set (m := rne A (B * 2 ^ s)) in *.
  assert (Hs : 0 <= s) by (unfold s; lia).
  destruct (Z.eq_dec m 0) as [Z0|NZ]; [left; rewrite Z0; reflexivity | right].
  destruct (Z.ltb_spec m (2 ^ prec)) as [Lt|Ge].
  - exists m, (emin + s). repeat split; try lia.
    + destruct (Z.eq_dec s 0) as [S0|S0]; [left; lia | right].
      assert (2 ^ (prec - 1) <= m) by (apply Hn; unfold s in *; lia).
      apply Zdigits2_unique; lia.
    + f_equal. f_equal. lia.
  - assert (Em : m = 2 ^ prec) by lia.
    assert (Pp := pow2_gt0 (prec - 1) ltac:(lia)).
    exists (2 ^ (prec - 1)), (emin + s + 1). repeat split; try lia.
    + apply Z.pow_lt_mono_r; lia.
    + right. apply Zdigits2_unique; [|lia]. split; [lia|].
      apply Z.pow_lt_mono_r; lia.
    + rewrite Em.
      replace (emin + s + 1 - emin) with (s + 1) by lia.
      rewrite <- !Z.pow_add_r by lia. f_equal. lia.
Qed.

Lemma encode_R_cases s A B :
  0 <= A -> 0 < B ->
  let r := encode prec emax s (Z.min (R prec A B) (INF prec emax)) in
  (R prec A B = 0 /\ r = S754_zero s) \/
  (INF prec emax <= R prec A B /\ r = S754_infinity s) \/
  (exists m e, r = S754_finite s m e /\ bounded prec emax m e = true /\
               R prec A B = Zpos m * 2 ^ (e - emin) /\
               R prec A B < INF prec emax).
Proof.
  intros HA HB r. unfold r.
  destruct (R_canonical A B HA HB) as [Z0 | (m & E & Hm & HE & Hc & HR)].
  - left. split; [exact Z0|]. rewrite Z0.
    rewrite Z.min_l by (assert (H := INF_pos); lia). reflexivity.
  - right. rewrite HR. rewrite encode_canonical by assumption.
    destruct (canonical_lt_INF m E Hm HE Hc) as [H1 H2].
    unfold finish. destruct m as [|p|p]; try lia.
    destruct (Z.leb_spec E (emax - prec)) as [Le|Gt].
    + right. exists p, E. repeat split; [|apply H1; lia].
      apply canonical_bounded; try lia.
      apply Zdigits2_lt_pow; lia.
    + left. split; [apply H2; lia | reflexivity].
Qed.

Lemma ord_encode_R s A B :
  0 <= A -> 0 < B ->
  ord prec emax (encode prec emax s (Z.min (R prec A B) (INF prec emax))) =
  signed s (Z.min (R prec A B) (INF prec emax)).
Proof.
  intros HA HB.
  destruct (encode_R_cases s A B HA HB) as
    [[Z0 ->] | [[Hi ->] | (m & e & -> & Hb & HR & Hlt)]].
  - rewrite Z0. rewrite Z.min_l by (assert (H := INF_pos); lia).
    destruct s; reflexivity.
  - rewrite Z.min_r by lia. destruct s; reflexivity.
  - rewrite Z.min_l by lia. rewrite HR. destruct s; reflexivity.
Qed.

Lemma valid_encode_R s A B :
  0 <= A -> 0 < B ->
  SpecFloat.valid_binary prec emax (encode prec emax s (Z.min (R prec A B) (INF prec emax))) = true.
Proof.
  intros HA HB.
  destruct (encode_R_cases s A B HA HB) as
    [[Z0 ->] | [[Hi ->] | (m & e & -> & Hb & HR & Hlt)]]; try reflexivity.
  exact Hb.
Qed.

Lemma not_nan_encode s z : not_nan (encode prec emax s z) = true.
Proof.
  unfold encode. destruct (z =? 0); [reflexivity|].
  destruct (INF prec emax <=? z); reflexivity.
Qed.

Lemma sign_encode s z : sign_of (encode prec emax s z) = s.
Proof.
  unfold encode. destruct (z =? 0); [reflexivity|].
  destruct (INF prec emax <=? z); reflexivity.
Qed.

Lemma ord_finite_bounds s m e :
  bounded prec emax m e = true ->
  0 < Z.abs (ord prec emax (S754_finite s m e)) < INF prec emax.
Proof.
  intros Hb. destruct (bounded_canonical m e Hb) as (He & Hd & Hc).
  assert (Hm : 0 < Zpos m < 2 ^ prec).
  { split; [lia|].
    assert (B := Zdigits2_bounds (Zpos m) ltac:(lia)).
    assert (2 ^ Zdigits2 (Zpos m) <= 2 ^ prec) by (apply Z.pow_le_mono_r; lia).
    lia. }
  destruct (canonical_lt_INF (Zpos m) e Hm ltac:(lia) Hc) as [H1 _].
  assert (P := pow2_gt0 (e - emin) ltac:(lia)).
  specialize (H1 ltac:(lia)).
  cbn [ord]. destruct s; lia.
Qed.

(** Two canonical mantissas compare as their values do. *)
Lemma canonical_compare m1 e1 m2 e2 :
  bounded prec emax m1 e1 = true -> bounded prec emax m2 e2 = true ->
  match e1 ?= e2 with
  | Lt => Lt
  | Gt => Gt
  | Eq => Pos.compare_cont Eq m1 m2
  end = (Zpos m1 * 2 ^ (e1 - emin) ?= Zpos m2 * 2 ^ (e2 - emin)).
Proof.
  intros Hb1 Hb2.
  destruct (bounded_canonical m1 e1 Hb1) as (He1 & Hd1 & Hc1).
  destruct (bounded_canonical m2 e2 Hb2) as (He2 & Hd2 & Hc2).
  assert (P1 := pow2_gt0 (e1 - emin) ltac:(lia)).
  assert (P2 := pow2_gt0 (e2 - emin) ltac:(lia)).
  assert (B1 := Zdigits2_bounds (Zpos m1) ltac:(lia)).
  assert (B2 := Zdigits2_bounds (Zpos m2) ltac:(lia)).
  assert (U1 : Zpos m1 < 2 ^ prec).
  { assert (2 ^ Zdigits2 (Zpos m1) <= 2 ^ prec) by (apply Z.pow_le_mono_r; lia). lia. }
  assert (U2 : Zpos m2 < 2 ^ prec).
  { assert (2 ^ Zdigits2 (Zpos m2) <= 2 ^ prec) by (apply Z.pow_le_mono_r; lia). lia. }
  assert (E2 : 2 ^ prec = 2 ^ (prec - 1) * 2).
  { replace prec with ((prec - 1) + 1) at 1 by lia.
    rewrite Z.pow_add_r by lia. reflexivity. }
  assert (Pp := pow2_gt0 (prec - 1) ltac:(lia)).
  destruct (Z.compare_spec e1 e2) as [Ee|Lt|Gt].
  - subst e2. symmetry.
    change (Pos.compare_cont Eq m1 m2) with (Zpos m1 ?= Zpos m2).
    destruct (Z.compare_spec (Zpos m1) (Zpos m2)) as [E|L|G].
    + rewrite E. apply Z.compare_refl.
    + apply Z.compare_lt_iff. nia.
    + apply Z.compare_gt_iff. nia.
  - symmetry. apply Z.compare_lt_iff.
    assert (Hd : Zdigits2 (Zpos m2) = prec) by lia. rewrite Hd in B2.
    assert (L : 2 * 2 ^ (e1 - emin) <= 2 ^ (e2 - emin)).
    { replace (2 * 2 ^ (e1 - emin)) with (2 ^ (1 + (e1 - emin)))
        by (rewrite Z.pow_add_r by lia; reflexivity).
      apply Z.pow_le_mono_r; lia. }
    assert (Zpos m1 * 2 ^ (e1 - emin) < 2 ^ (prec - 1) * 2 * 2 ^ (e1 - emin)) by nia.
    assert (2 ^ (prec - 1) * (2 * 2 ^ (e1 - emin)) <= 2 ^ (prec - 1) * 2 ^ (e2 - emin))
      by (apply Z.mul_le_mono_nonneg_l; lia).
    assert (2 ^ (prec - 1) * 2 ^ (e2 - emin) <= Zpos m2 * 2 ^ (e2 - emin))
      by (apply Z.mul_le_mono_nonneg_r; lia).
    lia.
  - symmetry. apply Z.compare_gt_iff.
    assert (Hd : Zdigits2 (Zpos m1) = prec) by lia. rewrite Hd in B1.
    assert (L : 2 * 2 ^ (e2 - emin) <= 2 ^ (e1 - emin)).
    { replace (2 * 2 ^ (e2 - emin)) with (2 ^ (1 + (e2 - emin)))
        by (rewrite Z.pow_add_r by lia; reflexivity).
      apply Z.pow_le_mono_r; lia. }
    assert (Zpos m2 * 2 ^ (e2 - emin) < 2 ^ (prec - 1) * 2 * 2 ^ (e2 - emin)) by nia.
    assert (2 ^ (prec - 1) * (2 * 2 ^ (e2 - emin)) <= 2 ^ (prec - 1) * 2 ^ (e1 - emin))
      by (apply Z.mul_le_mono_nonneg_l; lia).
    assert (2 ^ (prec - 1) * 2 ^ (e1 - emin) <= Zpos m1 * 2 ^ (e1 - emin))
      by (apply Z.mul_le_mono_nonneg_r; lia).
    lia.
Qed.

Lemma SFcompare_ord x y :
  SpecFloat.valid_binary prec emax x = true -> SpecFloat.valid_binary prec emax y = true ->
  not_nan x = true -> not_nan y = true ->
  SFcompare x y = Some (ord prec emax x ?= ord prec emax y).
Proof.
  intros Vx Vy Nx Ny.
  assert (HI := INF_pos).
  destruct x as [sx|sx| |sx mx ex]; try discriminate;
    destruct y as [sy|sy| |sy my ey]; try discriminate;
    cbn [SFcompare SpecFloat.valid_binary] in *.
  - reflexivity.
  - f_equal. cbn [ord]. destruct sy; symmetry;
      [apply Z.compare_gt_iff | apply Z.compare_lt_iff]; lia.
  - assert (B := ord_finite_bounds sy my ey Vy).
    f_equal. change (ord prec emax (S754_zero sx)) with 0.
    destruct sy; cbn [ord] in *; symmetry;
      [apply Z.compare_gt_iff | apply Z.compare_lt_iff]; lia.
  - f_equal. cbn [ord]. destruct sx; symmetry;
      [apply Z.compare_lt_iff | apply Z.compare_gt_iff]; lia.
  - f_equal. cbn [ord]. destruct sx, sy; symmetry;
      try apply Z.compare_refl;
      [apply Z.compare_lt_iff | apply Z.compare_gt_iff]; lia.
  - assert (B := ord_finite_bounds sy my ey Vy).
    f_equal. destruct sx; cbn [ord] in *; symmetry;
      [apply Z.compare_lt_iff | apply Z.compare_gt_iff]; destruct sy; lia.
  - assert (B := ord_finite_bounds sx mx ex Vx).
    f_equal. change (ord prec emax (S754_zero sy)) with 0.
    destruct sx; cbn [ord] in *; symmetry;
      [apply Z.compare_lt_iff | apply Z.compare_gt_iff]; lia.
  - assert (B := ord_finite_bounds sx mx ex Vx).
    f_equal. destruct sy; cbn [ord] in *; symmetry;
      [apply Z.compare_gt_iff | apply Z.compare_lt_iff]; destruct sx; lia.
  - assert (Bx := ord_finite_bounds sx mx ex Vx).
    assert (By := ord_finite_bounds sy my ey Vy).
    assert (C := canonical_compare mx ex my ey Vx Vy).
    f_equal. destruct sx, sy; cbn [ord] in *.
    + rewrite Z.compare_opp.
      rewrite (Z.compare_antisym (Z.pos mx * 2 ^ (ex - emin))), <- C.
      destruct (ex ?= ey); reflexivity.
    + symmetry. apply Z.compare_lt_iff. lia.
    + symmetry. apply Z.compare_gt_iff. lia.
    + exact C.
Qed.

(** ** Multiplication and division of finite floats *)

Lemma emin_le_0 : emin <= 0.
Proof. unfold SpecFloat.emin. lia. Qed.

Lemma Zdigits2_mul_ge a b :
  0 < a -> 0 < b -> Zdigits2 a + Zdigits2 b - 1 <= Zdigits2 (a * b).
Proof.
  intros Ha Hb.
  assert (Ba := Zdigits2_bounds a Ha). assert (Bb := Zdigits2_bounds b Hb).
  assert (Pa := Zdigits2_pos a Ha). assert (Pb := Zdigits2_pos b Hb).
  apply Zdigits2_ge; [nia|].
  replace (Zdigits2 a + Zdigits2 b - 1 - 1) with ((Zdigits2 a - 1) + (Zdigits2 b - 1)) by lia.
  rewrite Z.pow_add_r by lia.
  assert (0 < 2 ^ (Zdigits2 a - 1)) by (apply pow2_gt0; lia).
  assert (0 < 2 ^ (Zdigits2 b - 1)) by (apply pow2_gt0; lia).
  nia.
Qed.

Lemma pow2_split a b : 0 <= a -> 0 <= b -> 2 ^ (a + b) = 2 ^ a * 2 ^ b.
Proof. intros; apply Z.pow_add_r; assumption. Qed.

Lemma SFmul_finite sx mx ex sy my ey :
  bounded prec emax mx ex = true -> bounded prec emax my ey = true ->
  SFmul prec emax (S754_finite sx mx ex) (S754_finite sy my ey) =
  encode prec emax (xorb sx sy)
    (Z.min (R prec ((Zpos mx * 2 ^ (ex - emin)) * (Zpos my * 2 ^ (ey - emin)))
                   (2 ^ (- emin)))
           (INF prec emax)).
Proof.
  intros Hx Hy.
  destruct (bounded_canonical mx ex Hx) as (Hex & Hdx & Hcx).
  destruct (bounded_canonical my ey Hy) as (Hey & Hdy & Hcy).
  assert (Hm0 := emin_le_0).
  cbn [SFmul].
  assert (Hd := Zdigits2_mul_ge (Zpos mx) (Zpos my) ltac:(lia) ltac:(lia)).
  assert (Px := Zdigits2_pos (Zpos mx) ltac:(lia)).
  assert (Py := Zdigits2_pos (Zpos my) ltac:(lia)).
  rewrite (binary_round_aux_encode (Zpos (mx * my)) 1 (Zpos (mx * my)) loc_Exact).
  - f_equal. f_equal.
    assert (P1 := pow2_gt0 (Z.max (ex + ey - emin) 0) ltac:(lia)).
    assert (P2 := pow2_gt0 (Z.max (emin - (ex + ey)) 0) ltac:(lia)).
    assert (P3 := pow2_gt0 (ex - emin) ltac:(lia)).
    assert (P4 := pow2_gt0 (ey - emin) ltac:(lia)).
    assert (P5 := pow2_gt0 (- emin) ltac:(lia)).
    apply R_ext; unfold scale_num, scale_den; try nia.
    rewrite Pos2Z.inj_mul.
    transitivity (Zpos mx * Zpos my *
                  (2 ^ Z.max (ex + ey - emin) 0 * 2 ^ (- emin))); [ring|].
    transitivity (Zpos mx * Zpos my *
                  (2 ^ (ex - emin) * 2 ^ (ey - emin) * 2 ^ Z.max (emin - (ex + ey)) 0)); [|ring].
    f_equal. rewrite <- !pow2_split by lia. f_equal. lia.
  - lia.
  - lia.
  - apply Repr_exact.
  - rewrite Pos2Z.inj_mul. unfold SpecFloat.fexp.
    destruct Hcx as [Hcx|Hcx]; destruct Hcy as [Hcy|Hcy]; lia.
Qed.

Lemma Repr_new_location N D :
  0 <= N -> 0 < D ->
  Repr N D (shr_record_of_loc (N / D) (new_location D (N mod D))).
Proof.
  intros HN HD.
  assert (Hmod := Z.mod_pos_bound N D HD).
  set (r := N mod D) in *.
  assert (Hpar := Z.div_mod D 2 ltac:(lia)).
  assert (Hpar2 := Z.mod_pos_bound D 2 ltac:(lia)).
  assert (Hloc : new_location D r =
                 if r =? 0 then loc_Exact
                 else loc_Inexact (if 2 * r <? D then Lt
                                   else if 2 * r =? D then Eq else Gt)).
  { unfold new_location, new_location_even, new_location_odd.
    rewrite Zeven_mod.
    destruct (Z.eqb_spec (D mod 2) 0) as [Ev|Od];
      destruct (Z.eqb_spec r 0) as [R0|R0]; try reflexivity; f_equal.
    - destruct (Z.compare_spec (2 * r) D);
        destruct (Z.ltb_spec (2 * r) D); destruct (Z.eqb_spec (2 * r) D);
        try reflexivity; lia.
    - destruct (Z.compare_spec (2 * r + 1) D);
        destruct (Z.ltb_spec (2 * r) D); destruct (Z.eqb_spec (2 * r) D);
        try reflexivity; lia. }
  rewrite Hloc. unfold Repr. fold r.
  destruct (Z.eqb_spec r 0) as [R0|R0].
  { cbn [shr_record_of_loc shr_m shr_r shr_s].
    split; [reflexivity | split].
    - symmetry; apply Z.leb_gt; lia.
    - rewrite R0, Z.mul_0_r, Z.mod_0_l by lia. reflexivity. }
  destruct (Z.ltb_spec (2 * r) D) as [L|G].
  { cbn [shr_record_of_loc shr_m shr_r shr_s].
    split; [reflexivity | split].
    - symmetry; apply Z.leb_gt; lia.
    - rewrite Z.mod_small by lia.
      rewrite (proj2 (Z.eqb_neq _ _)) by lia. reflexivity. }
  destruct (Z.eqb_spec (2 * r) D) as [E|NE].
  { cbn [shr_record_of_loc shr_m shr_r shr_s].
    split; [reflexivity | split].
    - symmetry; apply Z.leb_le; lia.
    - rewrite E, Z.mod_same by lia. reflexivity. }
  cbn [shr_record_of_loc shr_m shr_r shr_s].
  split; [reflexivity | split].
  - symmetry; apply Z.leb_le; lia.
  - assert (E3 : (2 * r) mod D = 2 * r - D)
      by (symmetry; apply Z.mod_unique with 1; lia).
    rewrite E3. rewrite (proj2 (Z.eqb_neq _ _)) by lia. reflexivity.
Qed.

Lemma SFdiv_finite sx mx ex sy my ey :
  bounded prec emax mx ex = true -> bounded prec emax my ey = true ->
  SFdiv prec emax (S754_finite sx mx ex) (S754_finite sy my ey) =
  encode prec emax (xorb sx sy)
    (Z.min (R prec ((Zpos mx * 2 ^ (ex - emin)) * 2 ^ (- emin))
                   (Zpos my * 2 ^ (ey - emin)))
           (INF prec emax)).
Proof.
  intros Hx Hy.
  destruct (bounded_canonical mx ex Hx) as (Hex & Hdx & Hcx).
  destruct (bounded_canonical my ey Hy) as (Hey & Hdy & Hcy).
  assert (Hm0 := emin_le_0).
  cbn [SFdiv]. unfold SFdiv_core_binary.
  set (d1 := Zdigits2 (Zpos mx)) in *. set (d2 := Zdigits2 (Zpos my)) in *.
  set (e' := Z.min (fexp (d1 + ex - (d2 + ey))) (ex - ey)).
  set (s := ex - ey - e').
  assert (Hs : 0 <= s) by (unfold s, e'; lia).
  set (m' := match s with Z0 => Zpos mx | Zpos _ => Z.shiftl (Zpos mx) s | Zneg _ => 0 end).
  assert (Hm' : m' = Zpos mx * 2 ^ s).
  { unfold m'. clearbody s. clear m'. destruct s as [|p|p]; try lia.
    apply Z.shiftl_mul_pow2. lia. }
  assert (Ps := pow2_gt0 s Hs).
  assert (Hm'0 : 0 < m') by nia.
  assert (Hdiv : Z.div_eucl m' (Zpos my) = (m' / Zpos my, m' mod Zpos my)).
  { unfold Z.div, Z.modulo. destruct (Z.div_eucl m' (Zpos my)). reflexivity. }
  rewrite Hdiv.
  rewrite (binary_round_aux_encode m' (Zpos my)).
  - f_equal. f_equal.
    assert (P1 := pow2_gt0 (Z.max (e' - emin) 0) ltac:(lia)).
    assert (P2 := pow2_gt0 (Z.max (emin - e') 0) ltac:(lia)).
    assert (P3 := pow2_gt0 (ex - emin) ltac:(lia)).
    assert (P4 := pow2_gt0 (ey - emin) ltac:(lia)).
    assert (P5 := pow2_gt0 (- emin) ltac:(lia)).
    apply R_ext; unfold scale_num, scale_den; try nia.
    rewrite Hm'.
    transitivity (Zpos mx * Zpos my *
                  (2 ^ s * 2 ^ Z.max (e' - emin) 0 * 2 ^ (ey - emin))); [ring|].
    transitivity (Zpos mx * Zpos my *
                  (2 ^ (ex - emin) * 2 ^ (- emin) * 2 ^ Z.max (emin - e') 0)); [|ring].
    f_equal. rewrite <- !pow2_split by lia. f_equal. unfold s. lia.
  - lia.
  - lia.
  - apply Repr_new_location; lia.
  - (* the quotient has enough digits *)
    assert (Hq0 : 0 <= m' / Zpos my) by (apply Z.div_pos; lia).
    assert (Hdq : d1 + s - d2 <= Zdigits2 (m' / Zpos my)).
    { destruct (Z.leb_spec (d1 + s - d2) 0) as [L|G].
      - assert (H := Zdigits2_nonneg (m' / Zpos my)). lia.
      - assert (B1 := Zdigits2_bounds (Zpos mx) ltac:(lia)). fold d1 in B1.
        assert (B2 := Zdigits2_bounds (Zpos my) ltac:(lia)). fold d2 in B2.
        assert (Pd1 := Zdigits2_pos (Zpos mx) ltac:(lia)). fold d1 in Pd1.
        assert (Pd2 := Zdigits2_pos (Zpos my) ltac:(lia)). fold d2 in Pd2.
        assert (L : 2 ^ (d1 + s - d2 - 1) <= m' / Zpos my).
        { apply Z.div_le_lower_bound; [lia|].
          rewrite Hm'.
          assert (E : 2 ^ (d1 - 1) * 2 ^ s = 2 ^ d2 * 2 ^ (d1 + s - d2 - 1)).
          { rewrite <- !pow2_split by lia. f_equal. lia. }
          assert (0 <= 2 ^ (d1 + s - d2 - 1)) by (apply Z.pow_nonneg; lia).
          assert (Zpos my * 2 ^ (d1 + s - d2 - 1) <= 2 ^ d2 * 2 ^ (d1 + s - d2 - 1))
            by (apply Z.mul_le_mono_nonneg_r; lia).
          assert (2 ^ (d1 - 1) * 2 ^ s <= Zpos mx * 2 ^ s)
            by (apply Z.mul_le_mono_nonneg_r; lia).
          lia. }
        assert (0 < 2 ^ (d1 + s - d2 - 1)) by (apply pow2_gt0; lia).
        apply Zdigits2_ge; lia. }
    unfold SpecFloat.fexp in *. unfold s in *. lia.
Qed.

(** ** Operations on all non-NaN floats, by magnitude and sign *)

Lemma encode_INF s : encode prec emax s (INF prec emax) = S754_infinity s.
Proof.
  assert (H := INF_pos). unfold encode.
  rewrite (proj2 (Z.eqb_neq _ _)) by lia. rewrite Z.leb_refl. reflexivity.
Qed.

Lemma pow2_emin_pos : 0 < 2 ^ (- emin).
Proof. apply pow2_gt0. assert (H := emin_le_0). lia. Qed.

Lemma mag_finite_lt_INF s m e :
  bounded prec emax m e = true ->
  Z.abs (ord prec emax (S754_finite s m e)) = Zpos m * 2 ^ (e - emin) /\
  0 < Zpos m * 2 ^ (e - emin) < INF prec emax.
Proof.
  intros Hb. assert (B := ord_finite_bounds s m e Hb).
  destruct (bounded_canonical m e Hb) as (He & _).
  assert (P := pow2_gt0 (e - emin) ltac:(lia)).
  cbn [ord] in *. destruct s; split; lia.
Qed.

Lemma SFmul_pos_r x my ey :
  SpecFloat.valid_binary prec emax x = true -> not_nan x = true ->
  bounded prec emax my ey = true ->
  SFmul prec emax x (S754_finite false my ey) =
  encode prec emax (sign_of x)
    (mulmag prec emax (Zpos my * 2 ^ (ey - emin)) (Z.abs (ord prec emax x))).
Proof.
  intros Vx Nx Hy. assert (HI := INF_pos). assert (HP := pow2_emin_pos).
  destruct x as [sx|sx| |sx mx ex]; try discriminate.
  - cbn [SFmul sign_of]. rewrite xorb_false_r. cbn [ord]. unfold mulmag. simpl Z.abs.
    rewrite (proj2 (Z.leb_gt _ _)) by lia.
    rewrite Z.mul_0_l, R_0 by lia. rewrite Z.min_l by lia. reflexivity.
  - cbn [SFmul sign_of]. rewrite xorb_false_r. unfold mulmag.
    replace (Z.abs (ord prec emax (S754_infinity sx))) with (INF prec emax)
      by (cbn [ord]; destruct sx; lia).
    rewrite Z.leb_refl. symmetry. apply encode_INF.
  - cbn [SpecFloat.valid_binary] in Vx.
    destruct (mag_finite_lt_INF sx mx ex Vx) as [-> B].
    rewrite SFmul_finite by assumption. cbn [sign_of]. rewrite xorb_false_r.
    unfold mulmag. rewrite (proj2 (Z.leb_gt _ _)) by lia. reflexivity.
Qed.

Lemma SFdiv_pos_r x my ey :
  SpecFloat.valid_binary prec emax x = true -> not_nan x = true ->
  bounded prec emax my ey = true ->
  SFdiv prec emax x (S754_finite false my ey) =
  encode prec emax (sign_of x)
    (divmag prec emax (Zpos my * 2 ^ (ey - emin)) (Z.abs (ord prec emax x))).
Proof.
  intros Vx Nx Hy. assert (HI := INF_pos). assert (HP := pow2_emin_pos).
  destruct (mag_finite_lt_INF false my ey Hy) as [_ By].
  destruct x as [sx|sx| |sx mx ex]; try discriminate.
  - cbn [SFdiv sign_of]. rewrite xorb_false_r. cbn [ord]. unfold divmag. simpl Z.abs.
    rewrite (proj2 (Z.leb_gt _ _)) by lia.
    rewrite Z.mul_0_l, R_0 by lia. rewrite Z.min_l by lia. reflexivity.
  - cbn [SFdiv sign_of]. rewrite xorb_false_r. unfold divmag.
    replace (Z.abs (ord prec emax (S754_infinity sx))) with (INF prec emax)
      by (cbn [ord]; destruct sx; lia).
    rewrite Z.leb_refl. symmetry. apply encode_INF.
  - cbn [SpecFloat.valid_binary] in Vx.
    destruct (mag_finite_lt_INF sx mx ex Vx) as [-> B].
    rewrite SFdiv_finite by assumption. cbn [sign_of]. rewrite xorb_false_r.
    unfold divmag. rewrite (proj2 (Z.leb_gt _ _)) by lia. reflexivity.
Qed.

Lemma mulmag_range k a : 0 < k -> 0 <= a -> 0 <= mulmag prec emax k a <= INF prec emax.
Proof.
  intros Hk Ha. assert (HI := INF_pos). assert (HP := pow2_emin_pos).
  unfold mulmag. destruct (INF prec emax <=? a); [lia|].
  assert (H := R_nonneg (a * k) (2 ^ (- emin)) ltac:(nia) HP). lia.
Qed.

Lemma divmag_range k a : 0 < k -> 0 <= a -> 0 <= divmag prec emax k a <= INF prec emax.
Proof.
  intros Hk Ha. assert (HI := INF_pos). assert (HP := pow2_emin_pos).
  unfold divmag. destruct (INF prec emax <=? a); [lia|].
  assert (H := R_nonneg (a * 2 ^ (- emin)) k ltac:(nia) Hk). lia.
Qed.

Lemma mulmag_mono k a a' :
  0 < k -> 0 <= a <= a' -> mulmag prec emax k a <= mulmag prec emax k a'.
Proof.
  intros Hk Ha. assert (HI := INF_pos). assert (HP := pow2_emin_pos).
  unfold mulmag.
  destruct (Z.leb_spec (INF prec emax) a); destruct (Z.leb_spec (INF prec emax) a');
    try lia.
  assert (L : a * k <= a' * k) by (apply Z.mul_le_mono_nonneg_r; lia).
  assert (L' : a * k * 2 ^ (- emin) <= a' * k * 2 ^ (- emin))
    by (apply Z.mul_le_mono_nonneg_r; lia).
  assert (H1 := R_mono (a * k) (2 ^ (- emin)) (a' * k) (2 ^ (- emin))
                  ltac:(nia) HP ltac:(nia) HP L').
  lia.
Qed.

Lemma divmag_mono k a a' :
  0 < k -> 0 <= a <= a' -> divmag prec emax k a <= divmag prec emax k a'.
Proof.
  intros Hk Ha. assert (HI := INF_pos). assert (HP := pow2_emin_pos).
  unfold divmag.
  destruct (Z.leb_spec (INF prec emax) a); destruct (Z.leb_spec (INF prec emax) a');
    try lia.
  assert (L : a * 2 ^ (- emin) <= a' * 2 ^ (- emin))
    by (apply Z.mul_le_mono_nonneg_r; lia).
  assert (L' : a * 2 ^ (- emin) * k <= a' * 2 ^ (- emin) * k)
    by (apply Z.mul_le_mono_nonneg_r; lia).
  assert (H1 := R_mono (a * 2 ^ (- emin)) k (a' * 2 ^ (- emin)) k
                  ltac:(nia) Hk ltac:(nia) Hk L').
  lia.
Qed.

Lemma mulmag_0 k : 0 < k -> mulmag prec emax k 0 = 0.
Proof.
  intros Hk. assert (HI := INF_pos). assert (HP := pow2_emin_pos).
  unfold mulmag. rewrite (proj2 (Z.leb_gt _ _)) by lia.
  rewrite Z.mul_0_l, R_0 by lia. lia.
Qed.

Lemma divmag_0 k : 0 < k -> divmag prec emax k 0 = 0.
Proof.
  intros Hk. assert (HI := INF_pos). assert (HP := pow2_emin_pos).
  unfold divmag. rewrite (proj2 (Z.leb_gt _ _)) by lia.
  rewrite Z.mul_0_l, R_0 by lia. lia.
Qed.

Lemma odd_ext_mono g :
  g 0 = 0 ->
  (forall a a', 0 <= a <= a' -> g a <= g a') ->
  forall z z', z <= z' -> odd_ext g z <= odd_ext g z'.
Proof using Type.
  intros g0 gm z z' H. unfold odd_ext.
  destruct (Z.ltb_spec z 0); destruct (Z.ltb_spec z' 0); try lia.
  - assert (g (- z') <= g (- z)) by (apply gm; lia). lia.
  - assert (g 0 <= g (- z)) by (apply gm; lia).
    assert (g 0 <= g z') by (apply gm; lia). lia.
  - apply gm; lia.
Qed.

(** The order value of a rounded magnitude. *)
Lemma ord_encode_mag s z :
  (z = INF prec emax \/ exists A B, 0 <= A /\ 0 < B /\
                         z = Z.min (R prec A B) (INF prec emax)) ->
  ord prec emax (encode prec emax s z) = signed s z /\
  SpecFloat.valid_binary prec emax (encode prec emax s z) = true.
Proof.
  intros [-> | (A & B & HA & HB & ->)].
  - rewrite encode_INF. split; [destruct s; reflexivity | reflexivity].
  - split; [apply ord_encode_R | apply valid_encode_R]; assumption.
Qed.

Lemma mulmag_form k a :
  0 < k -> 0 <= a ->
  mulmag prec emax k a = INF prec emax \/
  exists A B, 0 <= A /\ 0 < B /\
              mulmag prec emax k a = Z.min (R prec A B) (INF prec emax).
Proof.
  intros Hk Ha. assert (HP := pow2_emin_pos). unfold mulmag.
  destruct (INF prec emax <=? a); [left; reflexivity | right].
  exists (a * k), (2 ^ (- emin)). repeat split; [nia | exact HP].
Qed.

Lemma divmag_form k a :
  0 < k -> 0 <= a ->
  divmag prec emax k a = INF prec emax \/
  exists A B, 0 <= A /\ 0 < B /\
              divmag prec emax k a = Z.min (R prec A B) (INF prec emax).
Proof.
  intros Hk Ha. assert (HP := pow2_emin_pos). unfold divmag.
  destruct (INF prec emax <=? a); [left; reflexivity | right].
  exists (a * 2 ^ (- emin)), k. repeat split; [nia | exact Hk].
Qed.

Lemma ord_signed x :
  ord prec emax x = signed (sign_of x) (Z.abs (ord prec emax x)).
Proof.
  assert (HI := INF_pos).
  destruct x as [s|s| |s m e]; cbn [ord sign_of]; unfold signed; try reflexivity.
  - destruct s; reflexivity.
  - destruct s; lia.
  - assert (0 < 2 ^ (e - emin) \/ e - emin < 0) by apply pow2_pos.
    destruct (Z.ltb_spec (e - emin) 0) as [L|G].
    + rewrite Z.pow_neg_r by lia. destruct s; lia.
    + destruct s; nia.
Qed.

Lemma signed_odd_ext g s a :
  g 0 = 0 -> 0 <= a -> signed s (g a) = odd_ext g (signed s a).
Proof using Type.
  intros g0 Ha. unfold odd_ext, signed.
  destruct s.
  - destruct (Z.ltb_spec (- a) 0).
    + f_equal. f_equal. lia.
    + assert (a = 0) by lia. subst a. simpl. rewrite g0. reflexivity.
  - destruct (Z.ltb_spec a 0); [lia | reflexivity].
Qed.

Lemma abs_signed s z : 0 <= z -> Z.abs (signed s z) = z.
Proof using Type. intros Hz. unfold signed. destruct s; lia. Qed.

(** One multiplication by a positive finite float, on any non-NaN float. *)
Lemma mul_step x my ey :
  SpecFloat.valid_binary prec emax x = true -> not_nan x = true ->
  bounded prec emax my ey = true ->
  let k := Zpos my * 2 ^ (ey - emin) in
  let y := SFmul prec emax x (S754_finite false my ey) in
  y = encode prec emax (sign_of x) (mulmag prec emax k (Z.abs (ord prec emax x))) /\
  SpecFloat.valid_binary prec emax y = true /\ not_nan y = true /\
  sign_of y = sign_of x /\
  Z.abs (ord prec emax y) = mulmag prec emax k (Z.abs (ord prec emax x)).
Proof.
  intros Vx Nx Hy k y.
  destruct (mag_finite_lt_INF false my ey Hy) as [_ Bk]. fold k in Bk.
  assert (Ha : 0 <= Z.abs (ord prec emax x)) by lia.
  assert (E : y = encode prec emax (sign_of x)
                    (mulmag prec emax k (Z.abs (ord prec emax x))))
    by (apply SFmul_pos_r; assumption).
  destruct (ord_encode_mag (sign_of x) _ (mulmag_form k _ ltac:(lia) Ha)) as [Ho Hv].
  assert (Hr := mulmag_range k _ ltac:(lia) Ha).
  rewrite E. repeat split.
  - exact Hv.
  - apply not_nan_encode.
  - apply sign_encode.
  - rewrite Ho. apply abs_signed. lia.
Qed.

(** One division by a positive finite float. *)
Lemma div_step x my ey :
  SpecFloat.valid_binary prec emax x = true -> not_nan x = true ->
  bounded prec emax my ey = true ->
  let k := Zpos my * 2 ^ (ey - emin) in
  let y := SFdiv prec emax x (S754_finite false my ey) in
  y = encode prec emax (sign_of x) (divmag prec emax k (Z.abs (ord prec emax x))) /\
  SpecFloat.valid_binary prec emax y = true /\ not_nan y = true /\
  sign_of y = sign_of x /\
  Z.abs (ord prec emax y) = divmag prec emax k (Z.abs (ord prec emax x)).
Proof.
  intros Vx Nx Hy k y.
  destruct (mag_finite_lt_INF false my ey Hy) as [_ Bk]. fold k in Bk.
  assert (Ha : 0 <= Z.abs (ord prec emax x)) by lia.
  assert (E : y = encode prec emax (sign_of x)
                    (divmag prec emax k (Z.abs (ord prec emax x))))
    by (apply SFdiv_pos_r; assumption).
  destruct (ord_encode_mag (sign_of x) _ (divmag_form k _ ltac:(lia) Ha)) as [Ho Hv].
  assert (Hr := divmag_range k _ ltac:(lia) Ha).
  rewrite E. repeat split.
  - exact Hv.
  - apply not_nan_encode.
  - apply sign_encode.
  - rewrite Ho. apply abs_signed. lia.
Qed.

Lemma SFmul_comm x y : SFmul prec emax x y = SFmul prec emax y x.
Proof.
  destruct x as [sx|sx| |sx mx ex]; destruct y as [sy|sy| |sy my ey];
    cbn [SFmul]; try reflexivity; try (rewrite xorb_comm; reflexivity).
  rewrite xorb_comm, Pos.mul_comm, Z.add_comm. reflexivity.
Qed.

(** ** Signs *)

Lemma binary_round_aux_opp s m e l :
  binary_round_aux prec emax (negb s) m e l =
  SFopp (binary_round_aux prec emax s m e l).
Proof.
  unfold binary_round_aux.
  destruct (shr_fexp prec emax m e l) as [mrs' e'].
  destruct (shr_fexp prec emax _ e' loc_Exact) as [mrs'' e''].
  destruct (shr_m mrs'') as [|p|p]; try reflexivity.
  destruct (e'' <=? emax - prec); reflexivity.
Qed.

Lemma SFmul_opp_l x y :
  SFmul prec emax (SFopp x) y = SFopp (SFmul prec emax x y).
Proof.
  destruct x as [sx|sx| |sx mx ex]; destruct y as [sy|sy| |sy my ey];
    cbn [SFmul SFopp]; try reflexivity;
    try (rewrite <- negb_xorb_l; reflexivity).
  rewrite <- negb_xorb_l. apply binary_round_aux_opp.
Qed.

Lemma SFmul_opp_r x y :
  SFmul prec emax x (SFopp y) = SFopp (SFmul prec emax x y).
Proof.
  rewrite SFmul_comm, SFmul_opp_l, SFmul_comm. reflexivity.
Qed.

Lemma SFdiv_opp_l x y :
  SFdiv prec emax (SFopp x) y = SFopp (SFdiv prec emax x y).
Proof.
  destruct x as [sx|sx| |sx mx ex]; destruct y as [sy|sy| |sy my ey];
    cbn [SFdiv SFopp]; try reflexivity;
    try (rewrite <- negb_xorb_l; reflexivity).
  destruct (SFdiv_core_binary prec emax (Z.pos mx) ex (Z.pos my) ey) as [[mz ez] lz].
  rewrite <- negb_xorb_l. apply binary_round_aux_opp.
Qed.

Lemma SFopp_involutive x : SFopp (SFopp x) = x.
Proof using Type. destruct x as [s|s| |s m e]; cbn [SFopp]; rewrite ?negb_involutive; reflexivity. Qed.

Lemma SFopp_encode s z : SFopp (encode prec emax s z) = encode prec emax (negb s) z.
Proof.
  unfold encode. destruct (z =? 0); [reflexivity|].
  destruct (INF prec emax <=? z); reflexivity.
Qed.

Lemma valid_SFopp x :
  SpecFloat.valid_binary prec emax (SFopp x) = SpecFloat.valid_binary prec emax x.
Proof. destruct x; reflexivity. Qed.

Lemma not_nan_SFopp x : not_nan (SFopp x) = not_nan x.
Proof using Type. destruct x; reflexivity. Qed.

(** A finite factor of either sign keeps a product valid and not NaN. *)
Lemma mul_finite_not_nan x s m e :
  SpecFloat.valid_binary prec emax x = true -> not_nan x = true ->
  bounded prec emax m e = true ->
  SpecFloat.valid_binary prec emax (SFmul prec emax x (S754_finite s m e)) = true /\
  not_nan (SFmul prec emax x (S754_finite s m e)) = true.
Proof.
  intros Vx Nx Hb.
  destruct (mul_step x m e Vx Nx Hb) as (_ & V & N & _).
  destruct s; [|split; assumption].
  change (S754_finite true m e) with (SFopp (S754_finite false m e)).
  rewrite SFmul_opp_r, valid_SFopp, not_nan_SFopp. split; assumption.
Qed.

(** A square is never negative. *)
Lemma SFmul_self x :
  SpecFloat.valid_binary prec emax x = true -> not_nan x = true ->
  not_nan (SFmul prec emax x x) = true /\
  SFleb (S754_zero false) (SFmul prec emax x x) = true.
Proof.
  intros Vx Nx. assert (HP := pow2_emin_pos).
  destruct x as [s|s| |s m e]; try discriminate.
  - cbn [SFmul]. rewrite xorb_nilpotent. split; reflexivity.
  - cbn [SFmul]. rewrite xorb_nilpotent. split; reflexivity.
  - cbn [SpecFloat.valid_binary] in Vx.
    rewrite SFmul_finite by assumption. rewrite xorb_nilpotent.
    split; [apply not_nan_encode|].
    destruct (mag_finite_lt_INF s m e Vx) as [_ B].
    set (A := Z.pos m * 2 ^ (e - emin) * (Z.pos m * 2 ^ (e - emin))).
    assert (HA : 0 <= A) by (unfold A; nia).
    unfold SFleb.
    rewrite SFcompare_ord; try reflexivity.
    + rewrite ord_encode_R by assumption.
      assert (H := R_nonneg A _ HA HP). assert (HI := INF_pos).
      cbn [ord signed].
      destruct (Z.compare_spec 0 (Z.min (R prec A (2 ^ (- emin))) (INF prec emax)));
        try reflexivity. lia.
    + apply valid_encode_R; assumption.
    + apply not_nan_encode.
Qed.

(** ** The normal range: no underflow, no overflow *)

Lemma R_pow2 k : 0 <= k -> R prec (2 ^ k) 1 = 2 ^ k.
Proof.
  intros Hk. rewrite <- (Z.mul_1_l (2 ^ k)). apply R_exact; [|exact Hk].
  split; [lia|]. apply (Z.pow_lt_mono_r 2 0 prec); lia.
Qed.

Lemma R_between A B lo hi :
  0 <= A -> 0 < B -> prec - 1 <= lo -> 0 <= hi ->
  2 ^ lo * B <= A <= 2 ^ hi * B ->
  2 ^ lo <= R prec A B <= 2 ^ hi /\ prec <= Zdigits2 (A / B).
Proof.
  intros HA HB Hlo Hhi [L U].
  assert (Pl := pow2_gt0 lo ltac:(lia)). assert (Ph := pow2_gt0 hi Hhi).
  split; [split|].
  - rewrite <- (R_pow2 lo) by lia. apply R_mono; lia.
  - rewrite <- (R_pow2 hi) by lia. apply R_mono; lia.
  - assert (2 ^ lo <= A / B) by (apply Z.div_le_lower_bound; lia).
    assert (lo + 1 <= Zdigits2 (A / B)).
    { apply Zdigits2_ge; [lia|]. replace (lo + 1 - 1) with lo by lia. lia. }
    lia.
Qed.

Lemma R_idem A B : 0 <= A -> 0 < B -> R prec (R prec A B) 1 = R prec A B.
Proof.
  intros HA HB.
  destruct (R_canonical A B HA HB) as [-> | (m & E & Hm & HE & _ & ->)].
  - apply R_0. lia.
  - apply R_exact; lia.
Qed.

(** Doubling a rounded normal value is exact. *)
Lemma R_twice A B :
  0 <= A -> 0 < B -> prec <= Zdigits2 (R prec A B) ->
  R prec (2 * R prec A B) 1 = 2 * R prec A B.
Proof.
  intros HA HB Hn.
  assert (H0 := R_nonneg A B HA HB).
  rewrite R_double; [| exact H0 | lia | rewrite Z.div_1_r; exact Hn].
  rewrite R_idem by assumption. reflexivity.
Qed.

End Rounding.

(** ** Subtraction of finite floats *)

Section Subtraction.

Variables prec emax : Z.
Hypothesis Hprec : 0 < prec.
Hypothesis Hemax : prec < emax.

#[local] Set Default Proof Using "Hprec Hemax".

Abbreviation emin := (SpecFloat.emin prec emax).
Abbreviation fexp := (SpecFloat.fexp prec emax).

Lemma iter_xO m d : Zpos (Pos.iter xO m d) = Zpos m * 2 ^ Zpos d.
Proof using Type.
  induction d as [|d IH] using Pos.peano_ind.
  - cbn [Pos.iter]. rewrite Pos2Z.inj_xO. change (2 ^ 1) with 2. ring.
  - rewrite Pos.iter_succ, Pos2Z.inj_xO, IH, Pos2Z.inj_succ, Z.pow_succ_r by lia.
    ring.
Qed.

Lemma shl_align_spec m e e' :
  snd (shl_align m e e') = Z.min e e' /\
  Zpos (fst (shl_align m e e')) = Zpos m * 2 ^ (e - Z.min e e').
Proof using Type.
  unfold shl_align. destruct (e' - e) as [|d|d] eqn:E; cbn [fst snd].
  - split; [lia|]. replace (e - Z.min e e') with 0 by lia. cbn. lia.
  - split; [lia|]. replace (e - Z.min e e') with 0 by lia. cbn. lia.
  - split; [lia|]. rewrite iter_xO. f_equal. f_equal. lia.
Qed.

Lemma binary_round_encode s p e :
  emin <= e ->
  binary_round prec emax s p e =
  encode prec emax s (Z.min (R prec (Zpos p * 2 ^ (e - emin)) 1) (INF prec emax)).
Proof.
  intros He. unfold binary_round.
  set (fe := SpecFloat.fexp prec emax (Zpos (digits2_pos p) + e)).
  assert (Hfe : emin <= fe) by apply (fexp_ge_emin prec emax Hprec Hemax).
  destruct (shl_align_spec p e fe) as [Hs Hm].
  destruct (shl_align p e fe) as [mz ez]. cbn [fst snd] in Hs, Hm. subst ez.
  assert (P1 := pow2_gt0 (e - Z.min e fe) ltac:(lia)).
  assert (P2 := pow2_gt0 (Z.min e fe - emin) ltac:(lia)).
  rewrite (binary_round_aux_encode prec emax Hprec Hemax (Zpos mz) 1 (Zpos mz) loc_Exact).
  - f_equal. f_equal. unfold scale_num, scale_den.
    rewrite Z.max_l by lia. rewrite (Z.max_r (emin - Z.min e fe)) by lia.
    assert (P3 := pow2_gt0 (e - emin) ltac:(lia)).
    change (2 ^ 0) with 1.
    apply (R_ext prec emax Hprec Hemax); try lia.
    rewrite Hm, !Z.mul_1_r, <- Z.mul_assoc.
    f_equal. rewrite <- Z.pow_add_r by lia. f_equal. lia.
  - lia.
  - lia.
  - apply (Repr_exact prec emax Hprec Hemax).
  - rewrite Hm.
    rewrite Zdigits2_mul_pow2 by lia.
    change (Zdigits2 (Zpos p)) with (Zpos (digits2_pos p)).
    destruct (Z.le_gt_cases e fe) as [L | G].
    + rewrite Z.min_l by lia. rewrite Z.sub_diag, Z.add_0_r. fold fe. exact L.
    + rewrite Z.min_r by lia.
      replace (Zpos (digits2_pos p) + (e - fe) + fe) with (Zpos (digits2_pos p) + e) by lia.
      fold fe. lia.
Qed.

Lemma addmag_0 : addmag prec emax 0 = 0.
Proof.
  unfold addmag. rewrite (R_0 prec emax Hprec Hemax) by lia.
  assert (HI := INF_pos prec emax Hprec Hemax). lia.
Qed.

Lemma addmag_range a : 0 <= a -> 0 <= addmag prec emax a <= INF prec emax.
Proof.
  intros Ha. unfold addmag.
  assert (HI := INF_pos prec emax Hprec Hemax).
  assert (H := R_nonneg prec emax Hprec Hemax a 1 Ha ltac:(lia)). lia.
Qed.

Lemma addmag_mono a a' :
  0 <= a <= a' -> addmag prec emax a <= addmag prec emax a'.
Proof.
  intros H. unfold addmag.
  assert (M := R_mono prec emax Hprec Hemax a 1 a' 1 ltac:(lia) ltac:(lia)
                 ltac:(lia) ltac:(lia) ltac:(lia)).
  lia.
Qed.

(** A finite float is its own rounding. *)
Lemma addmag_finite m e :
  bounded prec emax m e = true ->
  addmag prec emax (Zpos m * 2 ^ (e - emin)) = Zpos m * 2 ^ (e - emin).
Proof.
  intros Hb.
  destruct (bounded_canonical prec emax Hprec Hemax m e Hb) as (He & Hd & _).
  destruct (mag_finite_lt_INF prec emax Hprec Hemax false m e Hb) as [_ B].
  unfold addmag. rewrite (R_exact prec emax Hprec Hemax); [lia | | lia].
  split; [lia|].
  assert (D := Zdigits2_bounds (Zpos m) ltac:(lia)).
  assert (2 ^ Zdigits2 (Zpos m) <= 2 ^ prec) by (apply Z.pow_le_mono_r; lia).
  lia.
Qed.

Lemma SFsub_finite sx mx ex sy my ey :
  bounded prec emax mx ex = true -> bounded prec emax my ey = true ->
  let d := ord prec emax (S754_finite sx mx ex) - ord prec emax (S754_finite sy my ey) in
  SFsub prec emax (S754_finite sx mx ex) (S754_finite sy my ey) =
  if d =? 0 then S754_zero false
  else encode prec emax (d <? 0) (addmag prec emax (Z.abs d)).
Proof.
  intros Hx Hy d.
  destruct (bounded_canonical prec emax Hprec Hemax mx ex Hx) as (Hex & _).
  destruct (bounded_canonical prec emax Hprec Hemax my ey Hy) as (Hey & _).
  cbn [SFsub].
  set (ez := Z.min ex ey).
  destruct (shl_align_spec mx ex ez) as [_ Ax].
  destruct (shl_align_spec my ey ez) as [_ Ay].
  rewrite (Z.min_r ex ez) in Ax by (unfold ez; lia).
  rewrite (Z.min_r ey ez) in Ay by (unfold ez; lia).
  set (m := cond_Zopp sx (Zpos (fst (shl_align mx ex ez))) -
            cond_Zopp sy (Zpos (fst (shl_align my ey ez)))).
  assert (Pz := pow2_gt0 (ez - emin) ltac:(unfold ez; lia)).
  assert (Hd : d = m * 2 ^ (ez - emin)).
  { unfold d, m. cbn [ord]. rewrite Ax, Ay.
    replace (2 ^ (ex - emin)) with (2 ^ (ex - ez) * 2 ^ (ez - emin))
      by (rewrite <- Z.pow_add_r by (unfold ez; lia); f_equal; lia).
    replace (2 ^ (ey - emin)) with (2 ^ (ey - ez) * 2 ^ (ez - emin))
      by (rewrite <- Z.pow_add_r by (unfold ez; lia); f_equal; lia).
    destruct sx, sy; cbn [cond_Zopp]; ring. }
  clearbody m. unfold binary_normalize.
  destruct m as [|p|p].
  - rewrite Hd. reflexivity.
  - assert (0 < d) by (rewrite Hd; lia).
    rewrite (proj2 (Z.eqb_neq _ _)) by lia.
    rewrite (proj2 (Z.ltb_ge _ _)) by lia.
    rewrite binary_round_encode by (unfold ez; lia).
    unfold addmag. rewrite Z.abs_eq by lia. rewrite Hd. reflexivity.
  - assert (d < 0) by (rewrite Hd; lia).
    rewrite (proj2 (Z.eqb_neq _ _)) by lia.
    rewrite (proj2 (Z.ltb_lt _ _)) by lia.
    rewrite binary_round_encode by (unfold ez; lia).
    unfold addmag. rewrite Z.abs_neq by lia. rewrite Hd.
    replace (- (Z.neg p * 2 ^ (ez - emin))) with (Zpos p * 2 ^ (ez - emin)) by lia.
    reflexivity.
Qed.

(** [x - y] for a finite [y] above zero, through the order values. *)
Lemma sub_step x my ey :
  SpecFloat.valid_binary prec emax x = true -> not_nan x = true ->
  bounded prec emax my ey = true ->
  let k := Zpos my * 2 ^ (ey - emin) in
  let y := SFsub prec emax x (S754_finite false my ey) in
  SpecFloat.valid_binary prec emax y = true /\ not_nan y = true /\
  ord prec emax y = sub_ord prec emax k (ord prec emax x).
Proof.
  intros Vx Nx Hy k y.
  assert (HI := INF_pos prec emax Hprec Hemax).
  destruct (mag_finite_lt_INF prec emax Hprec Hemax false my ey Hy) as [_ Bk].
  fold k in Bk.
  destruct x as [s|s| |s m e]; try discriminate.
  - unfold y. cbn [SFsub negb SpecFloat.valid_binary not_nan ord].
    split; [exact Hy|]. split; [reflexivity|].
    unfold sub_ord. simpl Z.abs. rewrite (proj2 (Z.leb_gt _ _)) by lia.
    unfold odd_ext. rewrite (proj2 (Z.ltb_lt _ _)) by (fold k; lia).
    replace (- (0 - k)) with k by lia.
    unfold k. rewrite addmag_finite by exact Hy. reflexivity.
  - unfold y. cbn [SFsub]. split; [reflexivity|]. split; [reflexivity|].
    unfold sub_ord. cbn [ord].
    rewrite (proj2 (Z.leb_le _ _)) by (destruct s; lia). reflexivity.
  - cbn [SpecFloat.valid_binary] in Vx.
    assert (Bx := ord_finite_bounds prec emax Hprec Hemax s m e Vx).
    unfold y. rewrite SFsub_finite by assumption. cbv zeta.
    unfold sub_ord. rewrite (proj2 (Z.leb_gt _ _)) by lia.
    change (ord prec emax (S754_finite false my ey)) with k.
    set (d := ord prec emax (S754_finite s m e) - k).
    destruct (Z.eqb_spec d 0) as [E | NE].
    + split; [reflexivity|]. split; [reflexivity|].
      rewrite E. unfold odd_ext. cbn [ord]. rewrite Z.ltb_irrefl.
      symmetry. apply addmag_0.
    + split; [|split].
      * apply (valid_encode_R prec emax Hprec Hemax); lia.
      * apply (not_nan_encode prec emax Hprec Hemax).
      * unfold addmag. rewrite (ord_encode_R prec emax Hprec Hemax) by lia.
        unfold signed, odd_ext.
        destruct (Z.ltb_spec d 0).
        -- rewrite Z.abs_neq by lia. reflexivity.
        -- rewrite Z.abs_eq by lia. reflexivity.
Qed.

Lemma sub_ord_range k o :
  - INF prec emax <= o <= INF prec emax ->
  - INF prec emax <= sub_ord prec emax k o <= INF prec emax.
Proof.
  intros Ho. unfold sub_ord.
  destruct (INF prec emax <=? Z.abs o); [exact Ho|].
  unfold odd_ext. destruct (Z.ltb_spec (o - k) 0).
  - assert (H' := addmag_range (- (o - k)) ltac:(lia)). lia.
  - assert (H' := addmag_range (o - k) ltac:(lia)). lia.
Qed.

Lemma sub_ord_mono k o o' :
  - INF prec emax <= o -> o <= o' -> o' <= INF prec emax ->
  sub_ord prec emax k o <= sub_ord prec emax k o'.
Proof.
  intros Hl Ho Hu.
  assert (R1 := sub_ord_range k o ltac:(lia)).
  assert (R2 := sub_ord_range k o' ltac:(lia)).
  unfold sub_ord in *.
  destruct (Z.leb_spec (INF prec emax) (Z.abs o));
    destruct (Z.leb_spec (INF prec emax) (Z.abs o')); try lia.
  apply odd_ext_mono; [apply addmag_0 | apply addmag_mono | lia].
Qed.

(** [x / y] for a finite [y] above zero, through the order values. *)
Lemma ord_div_pos x my ey :
  SpecFloat.valid_binary prec emax x = true -> not_nan x = true ->
  bounded prec emax my ey = true ->
  let k := Zpos my * 2 ^ (ey - emin) in
  let y := SFdiv prec emax x (S754_finite false my ey) in
  SpecFloat.valid_binary prec emax y = true /\ not_nan y = true /\
  ord prec emax y = odd_ext (divmag prec emax k) (ord prec emax x).
Proof.
  intros Vx Nx Hy k y.
  destruct (mag_finite_lt_INF prec emax Hprec Hemax false my ey Hy) as [_ Bk].
  fold k in Bk.
  destruct (div_step prec emax Hprec Hemax x my ey Vx Nx Hy) as (_ & V & N & S & A).
  fold k in A. fold y in V, N, S, A.
  split; [exact V|]. split; [exact N|].
  rewrite (ord_signed prec emax Hprec Hemax y), S, A.
  rewrite (signed_odd_ext (divmag prec emax k))
    by (try apply (divmag_0 prec emax Hprec Hemax); lia).
  rewrite <- (ord_signed prec emax Hprec Hemax). reflexivity.
Qed.

End Subtraction.

(** ** Binary64: the primitive floats through their specification *)

Section Binary64.
Import Py HMI.

Abbreviation ord64 := (ord prec emax).
Abbreviation encode64 := (encode prec emax).
Abbreviation valid64 := (SpecFloat.valid_binary prec emax).

Lemma prec_pos : 0 < prec.
Proof. reflexivity. Qed.

Lemma prec_lt_emax : prec < emax.
Proof. reflexivity. Qed.

Lemma Prim2SF_mul x y :
  Prim2SF (x * y)%float = SFmul prec emax (Prim2SF x) (Prim2SF y).
Proof. apply mul_spec. Qed.

Lemma Prim2SF_div x y :
  Prim2SF (x / y)%float = SFdiv prec emax (Prim2SF x) (Prim2SF y).
Proof. apply div_spec. Qed.

Lemma Prim2SF_view x : SFview (Prim2SF x).
Proof.
  assert (V := Prim2SF_valid x).
  destruct (Prim2SF x); constructor. exact V.
Qed.

Lemma gt0_cases c :
  (0 <? c)%float = true ->
  (exists m e, Prim2SF c = S754_finite false m e /\ bounded prec emax m e = true) \/
  Prim2SF c = S754_infinity false.
Proof.
  rewrite ltb_spec. change (Prim2SF 0) with (S754_zero false).
  destruct (Prim2SF_view c) as [s|s| |s m e Hb]; unfold SFltb; cbn [SFcompare];
    try discriminate.
  - destruct s; [discriminate | right; reflexivity].
  - destruct s; [discriminate | left; exists m, e; split; [reflexivity | exact Hb]].
Qed.

Lemma is_nan_spec x : is_nan x = negb (not_nan (Prim2SF x)).
Proof.
  unfold is_nan. rewrite eqb_spec. unfold SFeqb.
  assert (V := Prim2SF_valid x).
  destruct (Prim2SF x) as [s|s| |s m e] eqn:E; try reflexivity.
  - destruct s; reflexivity.
  - rewrite (SFcompare_ord prec emax prec_pos prec_lt_emax) by (assumption || reflexivity).
    rewrite Z.compare_refl. reflexivity.
Qed.

Lemma is_infinity_spec x :
  is_infinity x = match Prim2SF x with S754_infinity _ => true | _ => false end.
Proof.
  unfold is_infinity. rewrite eqb_spec, abs_spec.
  change (Prim2SF infinity) with (S754_infinity false).
  destruct (Prim2SF x) as [s|s| |s m e]; reflexivity.
Qed.

Lemma is_finite_cases x :
  is_finite x = true ->
  (exists s, Prim2SF x = S754_zero s) \/
  (exists s m e, Prim2SF x = S754_finite s m e /\ bounded prec emax m e = true).
Proof.
  unfold is_finite. rewrite is_nan_spec, is_infinity_spec.
  destruct (Prim2SF_view x) as [s|s| |s m e Hb]; cbn; try discriminate; intros _.
  - left. exists s. reflexivity.
  - right. exists s, m, e. split; [reflexivity | exact Hb].
Qed.

Lemma is_finite_cases_inf x s :
  Prim2SF x = S754_infinity s -> is_finite x = false.
Proof.
  intros E. unfold is_finite. rewrite is_infinity_spec, E.
  apply negb_false_iff. apply orb_true_r.
Qed.

Lemma is_zero_spec x :
  is_zero x = match Prim2SF x with S754_zero _ => true | _ => false end.
Proof.
  unfold is_zero. rewrite eqb_spec.
  change (Prim2SF zero) with (S754_zero false).
  destruct (Prim2SF x) as [s|s| |s m e]; try reflexivity;
    unfold SFeqb; cbn [SFcompare]; destruct s; reflexivity.
Qed.

Lemma pixel_size_eq c r :
  pixel_size c r = Ok (2 * np_pi * c * r / 360)%float.
Proof. reflexivity. Qed.

Lemma K2pi_bounds : 2 ^ 1076 <= K2pi < 2 ^ 1077.
Proof. split; [apply Z.leb_le | apply Z.ltb_lt]; vm_compute; reflexivity. Qed.

Lemma K360_bounds : 2 ^ 1082 <= K360 < 2 ^ 1083.
Proof. split; [apply Z.leb_le | apply Z.ltb_lt]; vm_compute; reflexivity. Qed.

Lemma Prim2SF_2pi :
  exists m e, Prim2SF (2 * np_pi)%float = S754_finite false m e /\
              bounded prec emax m e = true /\
              Zpos m * 2 ^ (e - SpecFloat.emin prec emax) = K2pi.
Proof.
  exists 7074237752028440%positive, (-50). repeat split; vm_compute; reflexivity.
Qed.

Lemma Prim2SF_360 :
  exists m e, Prim2SF 360%float = S754_finite false m e /\
              bounded prec emax m e = true /\
              Zpos m * 2 ^ (e - SpecFloat.emin prec emax) = K360.
Proof.
  exists 6333186975989760%positive, (-44). repeat split; vm_compute; reflexivity.
Qed.

(** The value bound to [dx], for any CDELT2 that is not NaN and any finite
    positive radius: the sign of CDELT2 and the magnitude [dx_mag]. *)
Lemma dx_chain c r mr er :
  not_nan (Prim2SF c) = true ->
  Prim2SF r = S754_finite false mr er ->
  let dx := (2 * np_pi * c * r / 360)%float in
  let k := Zpos mr * 2 ^ (er - SpecFloat.emin prec emax) in
  Prim2SF dx = encode64 (sign_of (Prim2SF c)) (dx_mag k (Z.abs (ord64 (Prim2SF c)))) /\
  not_nan (Prim2SF dx) = true /\
  sign_of (Prim2SF dx) = sign_of (Prim2SF c) /\
  Z.abs (ord64 (Prim2SF dx)) = dx_mag k (Z.abs (ord64 (Prim2SF c))).
Proof.
  intros Nc Er dx k.
  assert (Vc := Prim2SF_valid c).
  assert (Vr := Prim2SF_valid r). rewrite Er in Vr. cbn [SpecFloat.valid_binary] in Vr.
  destruct Prim2SF_2pi as (m2 & e2 & E2 & B2 & K2).
  destruct Prim2SF_360 as (m3 & e3 & E3 & B3 & K3).
  unfold dx. rewrite Prim2SF_div. do 2 rewrite Prim2SF_mul. rewrite E2, E3, Er.
  rewrite (SFmul_comm prec emax prec_pos prec_lt_emax (S754_finite false m2 e2)).
  destruct (mul_step prec emax prec_pos prec_lt_emax _ m2 e2 Vc Nc B2)
    as (_ & V1 & N1 & S1 & A1).
  destruct (mul_step prec emax prec_pos prec_lt_emax _ mr er V1 N1 Vr)
    as (_ & V2 & N2 & S2 & A2).
  destruct (div_step prec emax prec_pos prec_lt_emax _ m3 e3 V2 N2 B3)
    as (E & V3 & N3 & S3 & A3).
  rewrite K2 in A1. rewrite K3 in A3, E.
  unfold dx_mag. fold k in A2.
  rewrite S2, S1 in S3. rewrite A2, A1 in A3. rewrite S2, S1, A2, A1 in E.
  repeat split; assumption.
Qed.

Lemma K2pi_pos : 0 < K2pi.
Proof. assert (H := K2pi_bounds). assert (0 < 2 ^ 1076) by reflexivity. lia. Qed.

Lemma K360_pos : 0 < K360.
Proof. assert (H := K360_bounds). assert (0 < 2 ^ 1082) by reflexivity. lia. Qed.

Lemma dx_mag_range k a :
  0 < k -> 0 <= a -> 0 <= dx_mag k a <= INF prec emax.
Proof.
  intros Hk Ha. unfold dx_mag.
  assert (H1 := mulmag_range prec emax prec_pos prec_lt_emax K2pi a K2pi_pos Ha).
  assert (H2 := mulmag_range prec emax prec_pos prec_lt_emax k _ Hk (proj1 H1)).
  apply (divmag_range prec emax prec_pos prec_lt_emax); [apply K360_pos | lia].
Qed.

Lemma dx_mag_mono k a a' :
  0 < k -> 0 <= a <= a' -> dx_mag k a <= dx_mag k a'.
Proof.
  intros Hk Ha. unfold dx_mag.
  assert (R1 := mulmag_range prec emax prec_pos prec_lt_emax K2pi a K2pi_pos ltac:(lia)).
  assert (M1 := mulmag_mono prec emax prec_pos prec_lt_emax K2pi a a' K2pi_pos Ha).
  assert (R2 := mulmag_range prec emax prec_pos prec_lt_emax k _ Hk (proj1 R1)).
  assert (M2 := mulmag_mono prec emax prec_pos prec_lt_emax k _ _ Hk (conj (proj1 R1) M1)).
  apply (divmag_mono prec emax prec_pos prec_lt_emax); [apply K360_pos | lia].
Qed.

Lemma dx_mag_0 k : 0 < k -> dx_mag k 0 = 0.
Proof.
  intros Hk. unfold dx_mag.
  rewrite (mulmag_0 prec emax prec_pos prec_lt_emax K2pi K2pi_pos).
  rewrite (mulmag_0 prec emax prec_pos prec_lt_emax k Hk).
  apply (divmag_0 prec emax prec_pos prec_lt_emax). apply K360_pos.
Qed.

Lemma pos_finite r :
  (0 <? r)%float = true -> is_finite r = true ->
  exists m e, Prim2SF r = S754_finite false m e /\ bounded prec emax m e = true /\
              0 < Zpos m * 2 ^ (e - SpecFloat.emin prec emax).
Proof.
  intros Hp Hf.
  destruct (gt0_cases r Hp) as [(m & e & E & Hb) | E].
  - exists m, e. repeat split; try assumption.
    apply (mag_finite_lt_INF prec emax prec_pos prec_lt_emax false m e Hb).
  - rewrite (is_finite_cases_inf r false E) in Hf. discriminate.
Qed.

Lemma leb_ord x y :
  (x <=? y)%float = true <->
  not_nan (Prim2SF x) = true /\ not_nan (Prim2SF y) = true /\
  ord64 (Prim2SF x) <= ord64 (Prim2SF y).
Proof.
  rewrite leb_spec. unfold SFleb.
  assert (Vx := Prim2SF_valid x). assert (Vy := Prim2SF_valid y).
  destruct (not_nan (Prim2SF x)) eqn:Nx.
  - destruct (not_nan (Prim2SF y)) eqn:Ny.
    + rewrite (SFcompare_ord prec emax prec_pos prec_lt_emax) by assumption.
      destruct (Z.compare_spec (ord64 (Prim2SF x)) (ord64 (Prim2SF y)));
        split; try (intros; repeat split; try reflexivity; lia);
        try discriminate; intros (_ & _ & H'); lia.
    + destruct (Prim2SF y); try discriminate.
      destruct (Prim2SF x); cbn [SFcompare]; split; try discriminate;
        intros (_ & H' & _); discriminate.
  - destruct (Prim2SF x); try discriminate.
    cbn [SFcompare]. split; [discriminate | intros (H' & _); discriminate].
Qed.

End Binary64.

(** ** The pixel size on the normal range *)

Section NormalRange.

Lemma INF64_eq : INF prec emax = 2 ^ 2098.
Proof. reflexivity. Qed.

Lemma P64_eq : 2 ^ (- SpecFloat.emin prec emax) = 2 ^ 1074.
Proof. reflexivity. Qed.

Lemma mul_between a b la ua lb ub :
  0 <= la -> 0 <= lb -> la <= a <= ua -> lb <= b <= ub ->
  la * lb <= a * b <= ua * ub.
Proof.
  intros Hla Hlb Ha Hb. split.
  - apply Z.mul_le_mono_nonneg; lia.
  - apply Z.mul_le_mono_nonneg; lia.
Qed.

(** A multiplication whose exact result lies between [2^lo] and [2^hi],
    inside the normal range, in units of [2^-1074]. *)
Lemma mulmag_normal k a lo hi :
  0 < k -> 0 <= a < 2 ^ 2098 -> 52 <= lo -> hi < 2098 ->
  2 ^ lo * 2 ^ 1074 <= a * k <= 2 ^ hi * 2 ^ 1074 ->
  mulmag prec emax k a = R prec (a * k) (2 ^ 1074) /\
  2 ^ lo <= R prec (a * k) (2 ^ 1074) <= 2 ^ hi /\
  prec <= Zdigits2 (a * k / 2 ^ 1074).
Proof.
  intros Hk Ha Hlo Hhi Hb.
  assert (Hlh : lo <= hi).
  { destruct (Z.le_gt_cases lo hi) as [L|G]; [exact L | exfalso].
    assert (2 ^ hi < 2 ^ lo) by (apply Z.pow_lt_mono_r; blia).
    assert (0 < 2 ^ 1074) by reflexivity. bnia. }
  destruct (R_between prec emax prec_pos prec_lt_emax (a * k) (2 ^ 1074) lo hi)
    as [B N]; try (reflexivity || blia || bnia).
  { change prec with 53. blia. }
  split; [|split; assumption].
  unfold mulmag. rewrite INF64_eq, P64_eq.
  rewrite (proj2 (Z.leb_gt _ _)) by blia.
  apply Z.min_l.
  assert (2 ^ hi < 2 ^ 2098) by (apply Z.pow_lt_mono_r; blia). blia.
Qed.

Lemma divmag_normal k a lo hi :
  0 < k -> 0 <= a < 2 ^ 2098 -> 52 <= lo -> hi < 2098 ->
  2 ^ lo * k <= a * 2 ^ 1074 <= 2 ^ hi * k ->
  divmag prec emax k a = R prec (a * 2 ^ 1074) k /\
  2 ^ lo <= R prec (a * 2 ^ 1074) k <= 2 ^ hi /\
  prec <= Zdigits2 (a * 2 ^ 1074 / k).
Proof.
  intros Hk Ha Hlo Hhi Hb.
  assert (Hlh : lo <= hi).
  { destruct (Z.le_gt_cases lo hi) as [L|G]; [exact L | exfalso].
    assert (2 ^ hi < 2 ^ lo) by (apply Z.pow_lt_mono_r; blia). bnia. }
  destruct (R_between prec emax prec_pos prec_lt_emax (a * 2 ^ 1074) k lo hi)
    as [B N]; try (reflexivity || blia || bnia).
  { change prec with 53. blia. }
  split; [|split; assumption].
  unfold divmag. rewrite INF64_eq, P64_eq.
  rewrite (proj2 (Z.leb_gt _ _)) by blia.
  apply Z.min_l.
  assert (2 ^ hi < 2 ^ 2098) by (apply Z.pow_lt_mono_r; blia). blia.
Qed.

(** The three rounded operations for CDELT2 between [2^-500] and [2^501]
    and a radius between [2^-500] and [2^500]: none overflows, none
    leaves the normal range. *)
Lemma dx_mag_normal k a :
  2 ^ 574 <= a <= 2 ^ 1575 -> 2 ^ 574 <= k <= 2 ^ 1574 ->
  let z1 := R prec (a * K2pi) (2 ^ 1074) in
  let z2 := R prec (z1 * k) (2 ^ 1074) in
  let z3 := R prec (z2 * 2 ^ 1074) K360 in
  dx_mag k a = z3 /\
  (prec <= Zdigits2 (a * K2pi / 2 ^ 1074) /\ 2 ^ 576 <= z1 <= 2 ^ 1578) /\
  (prec <= Zdigits2 (z1 * k / 2 ^ 1074) /\ 2 ^ 76 <= z2 <= 2 ^ 2078) /\
  (prec <= Zdigits2 (z2 * 2 ^ 1074 / K360) /\ 2 ^ 67 <= z3 <= 2 ^ 2070).
Proof.
  intros Ha Hk z1 z2 z3.
  assert (HK := K2pi_bounds). assert (HK3 := K360_bounds).
  assert (P574 : 0 < 2 ^ 574) by reflexivity.
  assert (P1575 : 2 ^ 1575 < 2 ^ 2098) by reflexivity.
  assert (P1076 : 0 < 2 ^ 1076) by reflexivity.
  assert (S1 : 2 ^ 576 * 2 ^ 1074 <= a * K2pi <= 2 ^ 1578 * 2 ^ 1074).
  { replace (2 ^ 576 * 2 ^ 1074) with (2 ^ 574 * 2 ^ 1076) by reflexivity.
    replace (2 ^ 1578 * 2 ^ 1074) with (2 ^ 1575 * 2 ^ 1077) by reflexivity.
    apply mul_between; blia. }
  destruct (mulmag_normal K2pi a 576 1578 K2pi_pos ltac:(blia) ltac:(blia) ltac:(blia) S1)
    as (E1 & B1 & N1).
  fold z1 in E1, B1.
  assert (P576 : 0 < 2 ^ 576) by reflexivity.
  assert (P1578 : 2 ^ 1578 < 2 ^ 2098) by reflexivity.
  assert (S2 : 2 ^ 76 * 2 ^ 1074 <= z1 * k <= 2 ^ 2078 * 2 ^ 1074).
  { replace (2 ^ 76 * 2 ^ 1074) with (2 ^ 576 * 2 ^ 574) by reflexivity.
    replace (2 ^ 2078 * 2 ^ 1074) with (2 ^ 1578 * 2 ^ 1574) by reflexivity.
    apply mul_between; blia. }
  destruct (mulmag_normal k z1 76 2078 ltac:(blia) ltac:(blia) ltac:(blia) ltac:(blia) S2)
    as (E2 & B2 & N2).
  fold z2 in E2, B2.
  assert (P76 : 0 < 2 ^ 76) by reflexivity.
  assert (P2078 : 2 ^ 2078 < 2 ^ 2098) by reflexivity.
  assert (P1074 : 0 < 2 ^ 1074) by reflexivity.
  assert (P67 : 0 < 2 ^ 67) by reflexivity.
  assert (P2070 : 0 < 2 ^ 2070) by reflexivity.
  assert (S3 : 2 ^ 67 * K360 <= z2 * 2 ^ 1074 <= 2 ^ 2070 * K360).
  { split.
    - apply Z.le_trans with (2 ^ 67 * 2 ^ 1083).
      + apply Z.mul_le_mono_nonneg_l; blia.
      + replace (2 ^ 67 * 2 ^ 1083) with (2 ^ 76 * 2 ^ 1074) by reflexivity.
        apply Z.mul_le_mono_nonneg_r; blia.
    - apply Z.le_trans with (2 ^ 2070 * 2 ^ 1082).
      + replace (2 ^ 2070 * 2 ^ 1082) with (2 ^ 2078 * 2 ^ 1074) by reflexivity.
        apply Z.mul_le_mono_nonneg_r; blia.
      + apply Z.mul_le_mono_nonneg_l; blia. }
  destruct (divmag_normal K360 z2 67 2070 K360_pos ltac:(blia) ltac:(blia) ltac:(blia) S3)
    as (E3 & B3 & N3).
  fold z3 in E3, B3.
  unfold dx_mag. rewrite E1, E2, E3.
  repeat split; try assumption; apply B1 || apply B2 || apply B3.
Qed.

End NormalRange.

(** * The claims *)

Import Py HMI.

(** The pixel size, as an order value, is the odd extension of [dx_mag]
    applied to the order value of CDELT2. *)
Lemma ord_pixel_size c r mr er :
  not_nan (Prim2SF c) = true ->
  Prim2SF r = S754_finite false mr er ->
  let k := Zpos mr * 2 ^ (er - SpecFloat.emin prec emax) in
  not_nan (Prim2SF (2 * np_pi * c * r / 360)%float) = true /\
  ord prec emax (Prim2SF (2 * np_pi * c * r / 360)%float) =
  odd_ext (dx_mag k) (ord prec emax (Prim2SF c)).
Proof.
  intros Nc Er k.
  assert (Vr := Prim2SF_valid r). rewrite Er in Vr. cbn [SpecFloat.valid_binary] in Vr.
  assert (Hk : 0 < k)
    by apply (mag_finite_lt_INF prec emax prec_pos prec_lt_emax false mr er Vr).
  destruct (dx_chain c r mr er Nc Er) as (_ & Nd & Sd & Ad).
  split; [exact Nd|].
  rewrite (ord_signed prec emax prec_pos prec_lt_emax (Prim2SF _)), Sd, Ad.
  fold k.
  rewrite (signed_odd_ext (dx_mag k)) by (try apply dx_mag_0; lia).
  rewrite <- (ord_signed prec emax prec_pos prec_lt_emax). reflexivity.
Qed.

(** C10, as the code has it: for a fixed finite radius above zero the
    pixel size never decreases when CDELT2 grows.  (It need not grow: see
    [pixel_size_not_strict].) *)
Theorem pixel_size_monotone (c1 c2 r : float) :
  (c1 <=? c2)%float = true -> (0 <? r)%float = true -> is_finite r = true ->
  exists d1 d2,
    pixel_size c1 r = Ok d1 /\ pixel_size c2 r = Ok d2 /\
    (d1 <=? d2)%float = true.
Proof.
  intros H Hr Hf.
  destruct (pos_finite r Hr Hf) as (mr & er & Er & Hb & Hk).
  apply leb_ord in H. destruct H as (N1 & N2 & Ho).
  destruct (ord_pixel_size c1 r mr er N1 Er) as [Nd1 O1].
  destruct (ord_pixel_size c2 r mr er N2 Er) as [Nd2 O2].
  eexists. eexists. split; [reflexivity|]. split; [reflexivity|].
  apply leb_ord. split; [exact Nd1|]. split; [exact Nd2|].
  rewrite O1, O2.
  apply odd_ext_mono; [apply dx_mag_0; exact Hk | | exact Ho].
  intros a a' Ha. apply dx_mag_mono; assumption.
Qed.

Lemma pixel_size_monotone_witness :
  exists d1 d2,
    pixel_size 0.03%float solar_radius = Ok d1 /\
    pixel_size 0.5%float solar_radius = Ok d2 /\
    (d1 <=? d2)%float = true.
Proof.
  apply (pixel_size_monotone 0.03%float 0.5%float solar_radius); reflexivity.
Defined.

(** C10 as stated fails: the header value 0.03 of the notebook's file and
    the next double above it give the same pixel size. *)
Lemma pixel_size_not_strict :
  (0.03 <? 0x1.eb851eb851eb9p-6)%float = true /\
  pixel_size 0.03%float solar_radius = Ok 364162.94842861686%float /\
  pixel_size 0x1.eb851eb851eb9p-6%float solar_radius = Ok 364162.94842861686%float /\
  (364162.94842861686 <? 364162.94842861686)%float = false.
Proof. repeat split. Qed.

(** *** Results that are never NaN *)

Lemma Prim2SF_2pi_mul c :
  not_nan (Prim2SF c) = true ->
  not_nan (Prim2SF (2 * np_pi * c)%float) = true /\
  sign_of (Prim2SF (2 * np_pi * c)%float) = sign_of (Prim2SF c) /\
  Z.abs (ord prec emax (Prim2SF (2 * np_pi * c)%float)) =
  mulmag prec emax K2pi (Z.abs (ord prec emax (Prim2SF c))).
Proof.
  intros Nc.
  destruct Prim2SF_2pi as (m2 & e2 & E2 & B2 & K2).
  rewrite Prim2SF_mul, E2, (SFmul_comm prec emax prec_pos prec_lt_emax).
  destruct (mul_step prec emax prec_pos prec_lt_emax _ m2 e2 (Prim2SF_valid c) Nc B2)
    as (_ & _ & N1 & S1 & A1).
  rewrite K2 in A1. repeat split; assumption.
Qed.

Lemma div_360_not_nan x :
  not_nan (Prim2SF x) = true -> not_nan (Prim2SF (x / 360)%float) = true.
Proof.
  intros Nx.
  destruct Prim2SF_360 as (m3 & e3 & E3 & B3 & K3).
  rewrite Prim2SF_div, E3.
  apply (div_step prec emax prec_pos prec_lt_emax _ m3 e3 (Prim2SF_valid x) Nx B3).
Qed.

Lemma square_not_nan x :
  not_nan (Prim2SF x) = true ->
  not_nan (Prim2SF (x * x)%float) = true /\ (0 <=? x * x)%float = true.
Proof.
  intros Nx. rewrite leb_spec, Prim2SF_mul.
  apply (SFmul_self prec emax prec_pos prec_lt_emax); [apply Prim2SF_valid | exact Nx].
Qed.

Lemma eqb_refl_not_nan x : not_nan (Prim2SF x) = true -> (x =? x)%float = true.
Proof.
  intros Nx. rewrite eqb_spec. unfold SFeqb.
  rewrite (SFcompare_ord prec emax prec_pos prec_lt_emax)
    by (try apply Prim2SF_valid; assumption).
  rewrite Z.compare_refl. reflexivity.
Qed.

(** C9: the area is never negative.  For every CDELT2 that is a number
    (not NaN: the negative ones and the infinities too) the computation
    at the radius of the code, the literal 6.955e8, returns an area that
    is not below zero, whatever the sign of the size; and so does the
    formula at any other finite radius that is not zero. *)
Theorem area_nonneg (c : float) :
  is_nan c = false ->
  (exists m, compute c solar_radius = Ok m /\
             (0 <=? pixel_area_m2 m)%float = true) /\
  (forall r, is_finite r = true -> is_zero r = false ->
             exists m, compute c r = Ok m /\
                       (0 <=? pixel_area_m2 m)%float = true).
Proof.
  intros Hc.
  assert (Nc : not_nan (Prim2SF c) = true).
  { rewrite is_nan_spec in Hc. apply negb_false_iff. exact Hc. }
  assert (G : forall r, is_finite r = true -> is_zero r = false ->
              exists m, compute c r = Ok m /\
                        (0 <=? pixel_area_m2 m)%float = true).
  { intros r Hr Hz.
    eexists. split; [reflexivity|]. cbn [pixel_area_m2]. unfold np_power2.
    apply square_not_nan. apply div_360_not_nan.
    destruct (Prim2SF_2pi_mul c Nc) as (N1 & _).
    rewrite Prim2SF_mul.
    destruct (is_finite_cases r Hr) as [[s E] | (s & m & e & E & Hb)].
    - rewrite is_zero_spec, E in Hz. discriminate.
    - rewrite E.
      apply (mul_finite_not_nan prec emax prec_pos prec_lt_emax);
        [apply Prim2SF_valid | exact N1 | exact Hb]. }
  split; [apply G; reflexivity | exact G].
Qed.

Lemma area_nonneg_witness :
  exists m, compute (-1)%float solar_radius = Ok m /\
            (0 <=? pixel_area_m2 m)%float = true.
Proof. exact (proj1 (area_nonneg (-1)%float eq_refl)). Defined.

(** The radius zero is not a radius of the code.  There the formula can
    give NaN: [2*np.pi*c] overflows for c = 2^1023, infinity times zero
    is NaN, and NaN is not above zero. *)
Lemma area_nan_at_radius_zero :
  is_finite 0x1p1023%float = true /\ is_finite 0%float = true /\
  exists m, compute 0x1p1023%float 0%float = Ok m /\
            is_nan (pixel_area_m2 m) = true /\
            (0 <=? pixel_area_m2 m)%float = false.
Proof. repeat split. eexists. repeat split. Qed.

(** *** Positive inputs *)

Lemma mulmag_2pi_ge_1 a : 1 <= a -> 1 <= mulmag prec emax K2pi a.
Proof.
  intros Ha. unfold mulmag.
  assert (HI := INF_pos prec emax prec_pos prec_lt_emax).
  destruct (INF prec emax <=? a); [blia|].
  assert (HP := pow2_emin_pos prec emax prec_pos prec_lt_emax).
  assert (HK := K2pi_bounds).
  assert (E1 : 2 ^ (- SpecFloat.emin prec emax) <= 2 ^ 1076)
    by (apply Z.leb_le; vm_compute; reflexivity).
  set (P := 2 ^ (- SpecFloat.emin prec emax)) in *.
  assert (L : 1 * P <= a * K2pi * 1) by bnia.
  assert (H1 := R_mono prec emax prec_pos prec_lt_emax 1 1 (a * K2pi) P ltac:(blia) ltac:(blia)
                  ltac:(bnia) HP L).
  assert (H2 : R prec 1 1 = 1).
  { change (R prec 1 1) with (R prec (1 * 2 ^ 0) 1).
    rewrite (R_exact prec emax prec_pos prec_lt_emax 1 0);
      [reflexivity | split; [blia | reflexivity] | blia]. }
  blia.
Qed.

(** [2*np.pi*c] is above zero when [c] is: no underflow to zero. *)
Lemma Prim2SF_2pi_mul_pos c :
  (0 <? c)%float = true ->
  exists t, Prim2SF (2 * np_pi * c)%float = t /\
            (t = S754_infinity false \/
             exists m e, t = S754_finite false m e /\ bounded prec emax m e = true).
Proof.
  intros Hc.
  assert (Nc : not_nan (Prim2SF c) = true /\ sign_of (Prim2SF c) = false /\
               1 <= Z.abs (ord prec emax (Prim2SF c))).
  { destruct (gt0_cases c Hc) as [(m & e & E & Hb) | E]; rewrite E.
    - destruct (mag_finite_lt_INF prec emax prec_pos prec_lt_emax false m e Hb)
        as [-> B]. repeat split; lia.
    - assert (HI := INF_pos prec emax prec_pos prec_lt_emax).
      cbn [ord not_nan sign_of]. repeat split; lia. }
  destruct Nc as (Nc & Sc & Ac).
  destruct (Prim2SF_2pi_mul c Nc) as (N1 & S1 & A1).
  assert (G := mulmag_2pi_ge_1 _ Ac). rewrite <- A1 in G. rewrite Sc in S1.
  assert (V := Prim2SF_valid (2 * np_pi * c)%float).
  eexists; split; [reflexivity|].
  destruct (Prim2SF (2 * np_pi * c)%float) as [s|s| |s m e]; try discriminate;
    cbn [sign_of] in S1; subst s.
  - cbn [ord] in G. lia.
  - left; reflexivity.
  - right. exists m, e. split; [reflexivity | exact V].
Qed.

Lemma pixel_size_not_nan c r :
  (0 <? c)%float = true -> (0 <? r)%float = true ->
  not_nan (Prim2SF (2 * np_pi * c * r / 360)%float) = true.
Proof.
  intros Hc Hr. apply div_360_not_nan. rewrite Prim2SF_mul.
  destruct (Prim2SF_2pi_mul_pos c Hc) as (t & -> & Ht).
  destruct (gt0_cases r Hr) as [(m & e & -> & Hb) | ->].
  - destruct Ht as [-> | (m1 & e1 & -> & Hb1)]; [reflexivity|].
    apply (mul_finite_not_nan prec emax prec_pos prec_lt_emax); [exact Hb1 | reflexivity | exact Hb].
  - destruct Ht as [-> | (m1 & e1 & -> & Hb1)]; reflexivity.
Qed.

(** C2: for CDELT2 and radius above zero the computation returns, and the
    area is the square of the size: the same float, and [==] in Python's
    sense (it is not NaN). *)
Theorem area_is_square (c r : float) :
  (0 <? c)%float = true -> (0 <? r)%float = true ->
  exists m, compute c r = Ok m /\
            pixel_area_m2 m = (pixel_size_m m * pixel_size_m m)%float /\
            (pixel_area_m2 m =? pixel_size_m m * pixel_size_m m)%float = true.
Proof.
  intros Hc Hr. eexists. split; [reflexivity|]. cbn [pixel_area_m2 pixel_size_m].
  split; [reflexivity|]. unfold np_power2.
  apply eqb_refl_not_nan. apply square_not_nan.
  apply pixel_size_not_nan; assumption.
Qed.

Lemma area_is_square_witness :
  exists m, compute 0.03%float solar_radius = Ok m /\
            pixel_area_m2 m = (pixel_size_m m * pixel_size_m m)%float /\
            (pixel_area_m2 m =? pixel_size_m m * pixel_size_m m)%float = true.
Proof. apply (area_is_square 0.03%float solar_radius); reflexivity. Defined.

(** *** CDELT2 = 0 *)

(** C6: for CDELT2 equal to zero and any finite radius above zero, no
    exception is raised and both results are zero. *)
Theorem zero_cdelt (c r : float) :
  (c =? 0)%float = true -> (0 <? r)%float = true -> is_finite r = true ->
  exists m, compute c r = Ok m /\ raises (compute c r) = false /\
            (pixel_size_m m =? 0)%float = true /\
            (pixel_area_m2 m =? 0)%float = true.
Proof.
  intros Hc Hr Hf.
  destruct (pos_finite r Hr Hf) as (mr & er & Er & Hb & Hk).
  change (c =? 0)%float with (is_zero c) in Hc. rewrite is_zero_spec in Hc.
  destruct (Prim2SF c) as [s| | |] eqn:Ec; try discriminate.
  assert (Nc : not_nan (Prim2SF c) = true) by (rewrite Ec; reflexivity).
  destruct (dx_chain c r mr er Nc Er) as (E & _).
  rewrite Ec in E. cbn [ord sign_of] in E. simpl Z.abs in E.
  rewrite dx_mag_0 in E by exact Hk.
  change (encode prec emax s 0) with (S754_zero s) in E.
  eexists. split; [reflexivity|]. split; [reflexivity|].
  cbn [pixel_size_m pixel_area_m2]. unfold np_power2.
  split.
  - change (?x =? 0)%float with (is_zero x). rewrite is_zero_spec, E. reflexivity.
  - change (?x =? 0)%float with (is_zero x). rewrite is_zero_spec, Prim2SF_mul, E.
    reflexivity.
Qed.

Lemma zero_cdelt_witness :
  exists m, compute 0%float solar_radius = Ok m /\
            raises (compute 0%float solar_radius) = false /\
            (pixel_size_m m =? 0)%float = true /\
            (pixel_area_m2 m =? 0)%float = true.
Proof. apply (zero_cdelt 0%float solar_radius); reflexivity. Defined.

(** *** CDELT2 = -1 *)

Lemma ord_SFopp x : ord prec emax (SFopp x) = - ord prec emax x.
Proof.
  destruct x as [s|s| |s m e]; cbn [SFopp ord]; try reflexivity;
    destruct s; cbn [negb]; lia.
Qed.

(** Negating CDELT2 negates the pixel size, for all floats. *)
Lemma pixel_size_opp c r :
  (2 * np_pi * (- c) * r / 360)%float = (- (2 * np_pi * c * r / 360))%float.
Proof.
  apply Prim2SF_inj.
  rewrite opp_spec, !Prim2SF_div, !Prim2SF_mul, opp_spec.
  rewrite (SFmul_opp_r prec emax prec_pos prec_lt_emax).
  rewrite (SFmul_opp_l prec emax prec_pos prec_lt_emax).
  rewrite (SFdiv_opp_l prec emax prec_pos prec_lt_emax).
  reflexivity.
Qed.

Lemma square_opp x : (- x * - x)%float = (x * x)%float.
Proof.
  apply Prim2SF_inj. rewrite !Prim2SF_mul, opp_spec.
  rewrite (SFmul_opp_r prec emax prec_pos prec_lt_emax).
  rewrite (SFmul_opp_l prec emax prec_pos prec_lt_emax).
  apply SFopp_involutive.
Qed.

(** C3, as the code has it: CDELT2 = -1 raises nothing.  With any finite
    radius above zero the computation returns the pixel size of CDELT2 = 1
    negated, a value not above zero, and the same area. *)
Theorem negative_cdelt (r : float) :
  (0 <? r)%float = true -> is_finite r = true ->
  exists d,
    compute 1%float r = Ok {| pixel_size_m := d; pixel_area_m2 := (d * d)%float |} /\
    compute (-1)%float r =
      Ok {| pixel_size_m := (- d)%float; pixel_area_m2 := (d * d)%float |} /\
    raises (compute (-1)%float r) = false /\
    (- d <=? 0)%float = true.
Proof.
  intros Hr Hf.
  destruct (pos_finite r Hr Hf) as (mr & er & Er & Hb & Hk).
  exists (2 * np_pi * 1 * r / 360)%float.
  split; [reflexivity|]. split.
  - unfold compute, bind. rewrite pixel_size_eq. unfold np_power2.
    change (-1)%float with (PrimFloat.opp 1%float).
    rewrite pixel_size_opp, square_opp. reflexivity.
  - split; [reflexivity|].
    destruct (ord_pixel_size 1%float r mr er eq_refl Er) as [Nd Od].
    apply leb_ord. rewrite opp_spec, not_nan_SFopp, ord_SFopp.
    split; [exact Nd|]. split; [reflexivity|].
    rewrite Od. change (ord prec emax (Prim2SF 0)) with 0.
    unfold odd_ext.
    assert (H1 : 0 <= ord prec emax (Prim2SF 1)) by (apply Z.leb_le; vm_compute; reflexivity).
    rewrite (proj2 (Z.ltb_ge _ _) H1).
    assert (H2 := dx_mag_range _ _ Hk H1). lia.
Qed.

Lemma negative_cdelt_witness :
  exists d,
    compute 1%float solar_radius =
      Ok {| pixel_size_m := d; pixel_area_m2 := (d * d)%float |} /\
    compute (-1)%float solar_radius =
      Ok {| pixel_size_m := (- d)%float; pixel_area_m2 := (d * d)%float |} /\
    raises (compute (-1)%float solar_radius) = false /\
    (- d <=? 0)%float = true.
Proof. apply (negative_cdelt solar_radius); reflexivity. Defined.

(** C3 as stated fails: at the notebook's radius, CDELT2 = -1 gives a
    value and both lines are printed. *)
Lemma negative_cdelt_returns :
  raises (compute (-1)%float solar_radius) = false /\
  compute (-1)%float solar_radius =
    Ok {| pixel_size_m := (-12138764.947620561)%float;
          pixel_area_m2 := 147349614453581.62%float |} /\
  exists k, run_notebook [("CDELT2"%string, Num (-1)%float)] fresh = Ok k /\
            k_stdout k = [size_line (-12138764.947620561)%float;
                          area_line 147349614453581.62%float].
Proof. repeat split. eexists. split; reflexivity. Qed.

(** *** The recorded values *)

(** C4 as stated fails: at CDELT2 = 0.5 the size is not 364162.948...
    and the area is not 1.3261465...e11. *)
Lemma half_arcsec_not_364162 :
  exists m, compute 0.5%float solar_radius = Ok m /\
            between 364162 364163 (pixel_size_m m) = false /\
            between 1.326e11 1.327e11 (pixel_area_m2 m) = false /\
            between 6069382 6069383 (pixel_size_m m) = true.
Proof. eexists. split; [reflexivity|]. repeat split; vm_compute; reflexivity. Qed.

(** C4, as the code has it: CDELT2 = 0.5 gives 6069382.473... m and
    3.6837403...e13 m^2; the values 364162.948... and 1.3261465...e11 are
    those of CDELT2 = 0.03, the header value behind the notebook's
    recorded output. *)
Theorem recorded_values :
  compute 0.5%float solar_radius =
    Ok {| pixel_size_m := 6069382.4738102807%float;
          pixel_area_m2 := 36837403613395.406%float |} /\
  between 6069382.473 6069382.474 6069382.4738102807%float = true /\
  between 3.6837403e13 3.6837404e13 36837403613395.406%float = true /\
  compute 0.03%float solar_radius =
    Ok {| pixel_size_m := 364162.94842861686%float;
          pixel_area_m2 := 132614653008.22346%float |} /\
  between 364162.948 364162.949 364162.94842861686%float = true /\
  between 1.3261465e11 1.3261466e11 132614653008.22346%float = true.
Proof. repeat split; vm_compute; reflexivity. Qed.

(** *** The notebook as a program *)

Lemma skipn_app_length {A : Type} (l l' : list A) :
  skipn (length l) (l ++ l') = l'.
Proof. induction l as [|a l IH]; [reflexivity | exact IH]. Qed.

(** What a run of the three cells does, from any kernel. *)
Lemma run_notebook_eq fits k :
  run_notebook fits k =
  v <- getitem fits "CDELT2" ;;
  c <- as_float v ;;
  dx <- pixel_size c solar_radius ;;
  Ok {| k_np := true;
        k_path := Some "./hmi*.fits"%string; k_meta := Some fits;
        k_dx := Some dx; k_area := Some (np_power2 dx);
        k_stdout := k_stdout k ++ [size_line dx; area_line (np_power2 dx)];
        k_out := k_out k ++ [((dx / 1000 - 362.5) / 100)%float] |}.
Proof.
  unfold run_notebook, cell1.
  destruct (getitem fits "CDELT2") as [v|e]; [|reflexivity].
  cbn [bind]. destruct (as_float v) as [c|e]; [|reflexivity].
  cbn [bind]. rewrite pixel_size_eq. cbn [bind].
  unfold cell2, cell3. cbn. rewrite <- app_assoc. reflexivity.
Qed.

(** C7: a run is a function of the header alone: from any two kernels,
    whatever they hold, the same header gives the same pixel size, the
    same area and the same printed lines, or the same exception. *)
Theorem notebook_deterministic (fits : header) (k1 k2 : kernel) :
  outcome k1 (run_notebook fits k1) = outcome k2 (run_notebook fits k2).
Proof.
  rewrite !run_notebook_eq.
  destruct (getitem fits "CDELT2") as [v|e]; [|reflexivity].
  cbn [bind]. destruct (as_float v) as [c|e]; [|reflexivity].
  cbn [bind]. rewrite pixel_size_eq. cbn [bind outcome k_dx k_area k_stdout].
  rewrite !skipn_app_length. reflexivity.
Qed.

(** C8, as the code has it: a run that succeeds adds exactly two lines
    to standard output, [The HMI pixel size is {dx} meters.] and
    [The HMI pixel area is {area} meters squared.], with the size and the
    area it computed; what was printed before is untouched.  These are
    not its only effects, and the theorem lists them all: the names [dx]
    and [area] are bound to the two values, the names [np], [path] and
    [meta] are bound, and the value of the second cell is displayed as
    that cell's result (not on standard output). *)
Theorem two_lines (fits : header) (k k' : kernel) :
  run_notebook fits k = Ok k' ->
  exists c dx area : float,
    getitem fits "CDELT2" = Ok (Num c) /\
    compute c solar_radius = Ok {| pixel_size_m := dx; pixel_area_m2 := area |} /\
    k_stdout k' =
      k_stdout k ++
      [[Text "The HMI pixel size is "; Field dx; Text " meters."];
       [Text "The HMI pixel area is "; Field area; Text " meters squared."]] /\
    k_dx k' = Some dx /\ k_area k' = Some area /\
    k_np k' = true /\ k_path k' = Some "./hmi*.fits"%string /\
    k_meta k' = Some fits /\
    k_out k' = k_out k ++ [((dx / 1000 - 362.5) / 100)%float].
Proof.
  rewrite run_notebook_eq.
  destruct (getitem fits "CDELT2") as [v|e]; [|discriminate].
  destruct v as [c|t]; [|discriminate].
  cbn [bind as_float]. rewrite pixel_size_eq. cbn [bind].
  intros H. injection H as <-.
  exists c. eexists. eexists. repeat split.
Qed.

Lemma two_lines_witness :
  exists k',
    run_notebook [("CDELT2"%string, Num 0.03%float)] fresh = Ok k' /\
    exists c dx area : float,
      getitem [("CDELT2"%string, Num 0.03%float)] "CDELT2" = Ok (Num c) /\
      compute c solar_radius = Ok {| pixel_size_m := dx; pixel_area_m2 := area |} /\
      k_stdout k' =
        k_stdout fresh ++
        [[Text "The HMI pixel size is "; Field dx; Text " meters."];
         [Text "The HMI pixel area is "; Field area; Text " meters squared."]] /\
      k_dx k' = Some dx /\ k_area k' = Some area /\
      k_np k' = true /\ k_path k' = Some "./hmi*.fits"%string /\
      k_meta k' = Some [("CDELT2"%string, Num 0.03%float)] /\
      k_out k' = k_out fresh ++ [((dx / 1000 - 362.5) / 100)%float].
Proof.
  eexists. split; [reflexivity|].
  apply (two_lines [("CDELT2"%string, Num 0.03%float)] fresh). reflexivity.
Defined.

(** C8 as stated fails in its last part: the two lines are not the only
    effect of a run.  On the header of the notebook's file, from a fresh
    kernel, the run also displays the value of the second cell,
    0.016629484286168575, and binds [path] and [meta]. *)
Lemma run_has_other_effects :
  exists k',
    run_notebook [("CDELT2"%string, Num 0.03%float)] fresh = Ok k' /\
    k_out fresh = [] /\ k_out k' = [0.016629484286168575%float] /\
    k_path fresh = None /\ k_path k' = Some "./hmi*.fits"%string /\
    k_meta fresh = None /\
    k_meta k' = Some [("CDELT2"%string, Num 0.03%float)].
Proof. eexists. repeat split. Qed.

(** *** Inputs in the normal range *)

Lemma in_range_cases c :
  in_range c = true ->
  exists m e, Prim2SF c = S754_finite false m e /\
              bounded prec emax m e = true /\
              2 ^ 574 <= Zpos m * 2 ^ (e - SpecFloat.emin prec emax) <= 2 ^ 1574.
Proof.
  unfold in_range. intros H. apply andb_true_iff in H. destruct H as [L U].
  apply leb_ord in L. apply leb_ord in U.
  destruct L as (_ & Nc & L). destruct U as (_ & _ & U).
  replace (ord prec emax (Prim2SF 0x1p-500)) with (2 ^ 574) in L
    by (vm_compute; reflexivity).
  replace (ord prec emax (Prim2SF 0x1p500)) with (2 ^ 1574) in U
    by (vm_compute; reflexivity).
  assert (P574 : 0 < 2 ^ 574) by reflexivity.
  assert (P1574 : 2 ^ 1574 < 2 ^ 2098) by reflexivity.
  destruct (Prim2SF_view c) as [s|s| |s m e Hb]; try discriminate.
  - cbn [ord] in L. blia.
  - cbn [ord] in L, U. rewrite INF64_eq in L, U. destruct s; blia.
  - destruct (mag_finite_lt_INF prec emax prec_pos prec_lt_emax s m e Hb) as [_ B].
    cbn [ord] in L, U. destruct s; [blia|].
    exists m, e. repeat split; assumption || blia.
Qed.

(** Multiplying a magnitude by two (the float 2.0) is exact. *)
Lemma mulmag_two z :
  0 <= z -> R prec (2 * z) 1 = 2 * z -> 2 * z < 2 ^ 2098 ->
  mulmag prec emax (2 ^ 1075) z = 2 * z.
Proof.
  intros Hz Hr Hlt. unfold mulmag. rewrite INF64_eq, P64_eq.
  rewrite (proj2 (Z.leb_gt _ _)) by blia.
  assert (P1074 : 0 < 2 ^ 1074) by reflexivity.
  assert (E : R prec (z * 2 ^ 1075) (2 ^ 1074) = 2 * z).
  { rewrite <- Hr. apply (R_ext prec emax prec_pos prec_lt_emax); try blia.
    - apply Z.mul_nonneg_nonneg; [exact Hz | apply Z.lt_le_incl; reflexivity].
    - change (2 ^ 1075) with (2 * 2 ^ 1074). ring. }
  rewrite E. apply Z.min_l. blia.
Qed.

Lemma Prim2SF_two :
  Prim2SF 2%float = S754_finite false 4503599627370496 (-51) /\
  bounded prec emax 4503599627370496 (-51) = true /\
  Zpos 4503599627370496 * 2 ^ (-51 - SpecFloat.emin prec emax) = 2 ^ 1075.
Proof. repeat split. Qed.

(** [2 * x] on a float through its magnitude. *)
Lemma double_float x :
  not_nan (Prim2SF x) = true ->
  Prim2SF (2 * x)%float =
    encode prec emax (sign_of (Prim2SF x))
      (mulmag prec emax (2 ^ 1075) (Z.abs (ord prec emax (Prim2SF x)))) /\
  not_nan (Prim2SF (2 * x)%float) = true /\
  sign_of (Prim2SF (2 * x)%float) = sign_of (Prim2SF x) /\
  Z.abs (ord prec emax (Prim2SF (2 * x)%float)) =
    mulmag prec emax (2 ^ 1075) (Z.abs (ord prec emax (Prim2SF x))).
Proof.
  intros Nx.
  destruct Prim2SF_two as (E2 & B2 & K2).
  rewrite Prim2SF_mul, E2, (SFmul_comm prec emax prec_pos prec_lt_emax).
  destruct (mul_step prec emax prec_pos prec_lt_emax _ _ _ (Prim2SF_valid x) Nx B2)
    as (E & _ & N & S & A).
  rewrite K2 in E, A. repeat split; assumption.
Qed.

Lemma dx_mag_double k a :
  2 ^ 574 <= a <= 2 ^ 1574 -> 2 ^ 574 <= k <= 2 ^ 1574 ->
  dx_mag k (2 * a) = 2 * dx_mag k a.
Proof.
  intros Ha Hk.
  assert (P574 : 0 < 2 ^ 574) by reflexivity.
  assert (E1575 : 2 ^ 1575 = 2 * 2 ^ 1574) by reflexivity.
  assert (HK := K2pi_pos). assert (HK3 := K360_pos).
  destruct (dx_mag_normal k a ltac:(blia) Hk)
    as (E & (N1 & B1) & (N2 & B2) & (N3 & B3)).
  destruct (dx_mag_normal k (2 * a) ltac:(blia) Hk) as (E' & _).
  rewrite E, E'.
  assert (P576 : 0 < 2 ^ 576) by reflexivity.
  assert (P76 : 0 < 2 ^ 76) by reflexivity.
  assert (P1074 : 0 < 2 ^ 1074) by reflexivity.
  replace (2 * a * K2pi) with (2 * (a * K2pi)) by ring.
  rewrite (R_double prec emax prec_pos prec_lt_emax (a * K2pi)); [|bnia|blia|exact N1].
  set (z1 := R prec (a * K2pi) (2 ^ 1074)) in *.
  replace (2 * z1 * k) with (2 * (z1 * k)) by ring.
  rewrite (R_double prec emax prec_pos prec_lt_emax (z1 * k)); [|bnia|blia|exact N2].
  set (z2 := R prec (z1 * k) (2 ^ 1074)) in *.
  replace (2 * z2 * 2 ^ 1074) with (2 * (z2 * 2 ^ 1074)) by ring.
  rewrite (R_double prec emax prec_pos prec_lt_emax (z2 * 2 ^ 1074)); [|bnia|blia|exact N3].
  reflexivity.
Qed.

(** C5, as the code has it: for CDELT2 and radius between 2^-500 and
    2^500 (no step overflows or underflows) doubling CDELT2 doubles the
    pixel size exactly; the witness is 0.5 and 1.0 at the notebook's
    radius. *)
Theorem doubling (c r : float) :
  in_range c = true -> in_range r = true ->
  exists d, pixel_size c r = Ok d /\
            pixel_size (2 * c)%float r = Ok (2 * d)%float /\
            is_nan d = false.
Proof.
  intros Hc Hr.
  destruct (in_range_cases c Hc) as (mc & ec & Ec & Bc & Rc).
  destruct (in_range_cases r Hr) as (mr & er & Er & Br & Rr).
  set (a := Zpos mc * 2 ^ (ec - SpecFloat.emin prec emax)) in *.
  set (k := Zpos mr * 2 ^ (er - SpecFloat.emin prec emax)) in *.
  assert (P574 : 0 < 2 ^ 574) by reflexivity.
  assert (P1574 : 2 * 2 ^ 1574 < 2 ^ 2098) by reflexivity.
  assert (L1575 : 2 ^ 1574 <= 2 ^ 1575) by (apply Z.leb_le; reflexivity).
  exists (2 * np_pi * c * r / 360)%float.
  split; [reflexivity|].
  assert (Nc : not_nan (Prim2SF c) = true) by (rewrite Ec; reflexivity).
  assert (Oc : Z.abs (ord prec emax (Prim2SF c)) = a).
  { rewrite Ec. cbn [ord]. fold a. blia. }
  assert (Sc : sign_of (Prim2SF c) = false) by (rewrite Ec; reflexivity).
  destruct (dx_chain c r mr er Nc Er) as (Ed & Nd & Sd & Ad).
  fold k in Ed, Ad. rewrite Oc in Ed, Ad. rewrite Sc in Ed, Sd.
  destruct (dx_mag_normal k a ltac:(blia) Rr) as (Ez & _ & _ & (_ & B3)).
  set (z3 := R prec (R prec (R prec (a * K2pi) (2 ^ 1074) * k) (2 ^ 1074) * 2 ^ 1074) K360) in *.
  assert (P67 : 0 < 2 ^ 67) by reflexivity.
  assert (P2070 : 2 * 2 ^ 2070 < 2 ^ 2098) by reflexivity.
  split.
  - rewrite pixel_size_eq. f_equal. apply Prim2SF_inj.
    (* the size at 2*c *)
    destruct (double_float c Nc) as (_ & N2 & S2 & A2).
    rewrite Oc, Sc in *.
    assert (Ra : R prec (2 * a) 1 = 2 * a).
    { unfold a. rewrite Z.mul_assoc, (Z.mul_comm 2), <- Z.mul_assoc.
      replace (2 * 2 ^ (ec - SpecFloat.emin prec emax))
        with (2 ^ (ec - SpecFloat.emin prec emax + 1)).
      - destruct (bounded_canonical prec emax prec_pos prec_lt_emax _ _ Bc) as (He & Hd & _).
        apply (R_exact prec emax prec_pos prec_lt_emax); [|blia].
        split; [blia|].
        assert (B := Zdigits2_bounds (Zpos mc) ltac:(blia)).
        assert (2 ^ Zdigits2 (Zpos mc) <= 2 ^ prec) by (apply Z.pow_le_mono_r; blia).
        blia.
      - destruct (bounded_canonical prec emax prec_pos prec_lt_emax _ _ Bc) as (He & _).
        rewrite Z.pow_add_r by blia. ring. }
    rewrite (mulmag_two a ltac:(blia) Ra ltac:(blia)) in A2.
    destruct (dx_chain (2 * c)%float r mr er N2 Er) as (Ed2 & _).
    fold k in Ed2. rewrite S2, A2 in Ed2.
    rewrite dx_mag_double in Ed2 by assumption.
    rewrite Ed2.
    (* twice the size at c *)
    destruct (double_float _ Nd) as (E2d & _).
    rewrite Sd, Ad in E2d. rewrite E2d. f_equal.
    rewrite Ez. symmetry. apply mulmag_two; [blia | | blia].
    assert (HK := K360_pos).
    assert (P1074 : 0 < 2 ^ 1074) by reflexivity.
    apply (R_twice prec emax prec_pos prec_lt_emax).
    + apply Z.mul_nonneg_nonneg; [|blia].
      apply (R_nonneg prec emax prec_pos prec_lt_emax); [|blia].
      apply Z.mul_nonneg_nonneg; [|blia].
      apply (R_nonneg prec emax prec_pos prec_lt_emax); [|blia].
      assert (HK2 := K2pi_pos). apply Z.mul_nonneg_nonneg; blia.
    + exact HK.
    + fold z3. apply Z.le_trans with 68; [apply Z.leb_le; reflexivity|].
      apply Zdigits2_ge; [blia|]. exact (proj1 B3).
  - rewrite is_nan_spec, Nd. reflexivity.
Qed.

Lemma doubling_witness :
  exists d, pixel_size 0.5%float solar_radius = Ok d /\
            pixel_size 1%float solar_radius = Ok (2 * d)%float /\
            is_nan d = false.
Proof. apply (doubling 0.5%float solar_radius); reflexivity. Defined.

(** C5 as stated fails: at CDELT2 = 2^991 (2.09e298) the size is finite,
    and at twice that the product [2*np.pi*c*R] overflows. *)
Lemma doubling_overflows :
  (0 <? 0x1p991)%float = true /\ is_finite 0x1p991%float = true /\
  exists d, pixel_size 0x1p991%float solar_radius = Ok d /\
            is_finite (2 * d)%float = true /\
            pixel_size (2 * 0x1p991)%float solar_radius = Ok infinity /\
            (infinity =? 2 * d)%float = false.
Proof. repeat split. eexists. repeat split. Qed.

(** *** The closed form, up to rounding *)

Lemma Q_scaled (x w : Z) :
  2 ^ 51 * x <= w -> (inject_Z x <= (1 # 2251799813685248) * inject_Z w)%Q.
Proof.
  intros H. unfold Qle, Qmult, inject_Z. cbn [Qnum Qden].
  change (2 ^ 51) with 2251799813685248 in H.
  change (Z.pos (2251799813685248 * 1)) with 2251799813685248. lia.
Qed.

Lemma Q_rel_err (z w p u : Q) :
  (0 < p)%Q ->
  (Qabs (z * 360 * p * p - w) <= u * w)%Q ->
  (Qabs (z / p - w / (360 * p * p * p)) <= u * (w / (360 * p * p * p)))%Q.
Proof.
  intros Hp H.
  apply Qabs_Qle_condition in H. apply Qabs_Qle_condition.
  assert (HD : (0 < 360 * p * p * p)%Q).
  { repeat apply Qmult_lt_0_compat; try assumption. reflexivity. }
  set (D := (360 * p * p * p)%Q) in *.
  assert (E : (z / p == (z * 360 * p * p) / D)%Q).
  { unfold D. field. lra. }
  rewrite E.
  assert (Hi : (0 < / D)%Q) by (apply Qinv_lt_0_compat; exact HD).
  unfold Qdiv.
  destruct H as [H1 H2].
  split.
  - apply Qle_trans with ((- (u * w)) * / D)%Q; [lra|].
    apply Qle_trans with ((z * 360 * p * p - w) * / D)%Q; [|lra].
    apply Qmult_le_compat_r; [exact H1 | lra].
  - apply Qle_trans with ((z * 360 * p * p - w) * / D)%Q; [lra|].
    apply Qle_trans with ((u * w) * / D)%Q; [|lra].
    apply Qmult_le_compat_r; [exact H2 | lra].
Qed.

Lemma Qpow2_scaled e :
  -1074 <= e ->
  (Qpower 2 e == inject_Z (2 ^ (e + 1074)) / inject_Z (2 ^ 1074))%Q.
Proof.
  intros He.
  rewrite !Zpower_Qpower by lia.
  change (inject_Z 2) with 2%Q.
  replace e with ((e + 1074) + - (1074)) at 1 by lia.
  rewrite Qpower_plus by discriminate.
  rewrite Qpower_opp. reflexivity.
Qed.

(** The value of a float above zero is its magnitude over [2^1074]. *)
Lemma F2Q_pos x m e :
  Prim2SF x = S754_finite false m e -> bounded prec emax m e = true ->
  (F2Q x == inject_Z (Zpos m * 2 ^ (e - SpecFloat.emin prec emax))
            / inject_Z (2 ^ 1074))%Q.
Proof.
  intros Ex Hb.
  destruct (bounded_canonical prec emax prec_pos prec_lt_emax m e Hb) as (He & _).
  change (SpecFloat.emin prec emax) with (-1074) in *.
  unfold F2Q. rewrite Ex. cbn [SF2Q].
  rewrite Qpow2_scaled by lia.
  replace (e - -1074) with (e + 1074) by lia.
  rewrite inject_Z_mult. unfold Qdiv. rewrite Qmult_assoc. reflexivity.
Qed.

Lemma F2Q_2pi :
  (2 * F2Q np_pi == inject_Z K2pi / inject_Z (2 ^ 1074))%Q.
Proof. apply Qeq_bool_iff. vm_compute. reflexivity. Qed.

Lemma K360_eq : K360 = 360 * 2 ^ 1074.
Proof. vm_compute. reflexivity. Qed.

Lemma chain_error W X1 X2 X3 :
  2 ^ 53 * Z.abs (X1 - W) <= W ->
  2 ^ 53 * Z.abs (X2 - X1) <= X1 ->
  2 ^ 53 * Z.abs (X3 - X2) <= X2 ->
  2 ^ 51 * Z.abs (X3 - W) <= W.
Proof.
  change (2 ^ 53) with 9007199254740992. change (2 ^ 51) with 2251799813685248.
  intros H1 H2 H3. lia.
Qed.

Lemma abs_scale x y k : 0 <= k -> Z.abs (x * k - y * k) = Z.abs (x - y) * k.
Proof.
  intros Hk. rewrite <- Z.mul_sub_distr_r, Z.abs_mul, (Z.abs_eq k) by lia.
  reflexivity.
Qed.

(** The three roundings together: in units of [2^-1074], the magnitude
    [z3] of the pixel size against the exact product [a * K2pi * k]. *)
Lemma dx_mag_error k a :
  2 ^ 574 <= a <= 2 ^ 1574 -> 2 ^ 574 <= k <= 2 ^ 1574 ->
  2 ^ 51 * Z.abs (dx_mag k a * 360 * 2 ^ 1074 * 2 ^ 1074 - a * K2pi * k)
  <= a * K2pi * k.
Proof.
  intros Ha Hk.
  assert (P574 : 0 < 2 ^ 574) by reflexivity.
  assert (E1575 : 2 ^ 1574 <= 2 ^ 1575) by (apply Z.leb_le; reflexivity).
  assert (HK := K2pi_pos). assert (HK3 := K360_pos).
  assert (P1074 : 0 < 2 ^ 1074) by reflexivity.
  destruct (dx_mag_normal k a ltac:(blia) Hk)
    as (E & (N1 & B1) & (N2 & B2) & (N3 & B3)).
  rewrite E.
  set (z1 := R prec (a * K2pi) (2 ^ 1074)) in *.
  set (z2 := R prec (z1 * k) (2 ^ 1074)) in *.
  set (z3 := R prec (z2 * 2 ^ 1074) K360) in *.
  assert (P576 : 0 < 2 ^ 576) by reflexivity.
  assert (P76 : 0 < 2 ^ 76) by reflexivity.
  assert (A0 : 0 <= a * K2pi) by (apply Z.mul_nonneg_nonneg; blia).
  assert (A1 : 0 <= z1 * k) by (apply Z.mul_nonneg_nonneg; blia).
  assert (A2 : 0 <= z2 * 2 ^ 1074) by (apply Z.mul_nonneg_nonneg; blia).
  assert (H1 := R_error prec emax prec_pos prec_lt_emax (a * K2pi) (2 ^ 1074) A0 P1074 N1).
  assert (H2 := R_error prec emax prec_pos prec_lt_emax (z1 * k) (2 ^ 1074) A1 P1074 N2).
  assert (H3 := R_error prec emax prec_pos prec_lt_emax (z2 * 2 ^ 1074) K360 A2 HK3 N3).
  fold z1 in H1. fold z2 in H2. fold z3 in H3.
  change prec with 53 in H1, H2, H3.
  apply (chain_error (a * K2pi * k) (z1 * 2 ^ 1074 * k) (z2 * 2 ^ 1074 * 2 ^ 1074)).
  - rewrite abs_scale by blia. rewrite Z.mul_assoc.
    apply Z.mul_le_mono_nonneg_r; [blia | exact H1].
  - replace (z1 * 2 ^ 1074 * k) with (z1 * k * 2 ^ 1074) by ring.
    rewrite abs_scale by blia. rewrite Z.mul_assoc.
    apply Z.mul_le_mono_nonneg_r; [blia | exact H2].
  - rewrite K360_eq in H3.
    replace (z3 * 360 * 2 ^ 1074 * 2 ^ 1074) with (z3 * (360 * 2 ^ 1074) * 2 ^ 1074) by ring.
    rewrite abs_scale by blia. rewrite Z.mul_assoc.
    apply Z.mul_le_mono_nonneg_r; [blia | exact H3].
Qed.

(** C1, as the code has it: for CDELT2 and radius between 2^-500 and
    2^500 the value bound to [dx] is the closed form
    [(2 pi cdelt / 360) R] (pi the double [np.pi]) up to the rounding of
    its three operations: a relative error of at most [2^-51]. *)
Theorem pixel_size_accuracy (c r : float) :
  in_range c = true -> in_range r = true ->
  exists d, pixel_size c r = Ok d /\
            (Qabs (F2Q d - closed_form_Q c r)
             <= (1 # 2251799813685248) * closed_form_Q c r)%Q.
Proof.
  intros Hc Hr.
  destruct (in_range_cases c Hc) as (mc & ec & Ec & Bc & Rc).
  destruct (in_range_cases r Hr) as (mr & er & Er & Br & Rr).
  assert (Fc := F2Q_pos c mc ec Ec Bc).
  assert (Fr := F2Q_pos r mr er Er Br).
  set (a := Zpos mc * 2 ^ (ec - SpecFloat.emin prec emax)) in *.
  set (k := Zpos mr * 2 ^ (er - SpecFloat.emin prec emax)) in *.
  exists (2 * np_pi * c * r / 360)%float.
  split; [reflexivity|].
  assert (Nc : not_nan (Prim2SF c) = true) by (rewrite Ec; reflexivity).
  assert (P574 : 0 < 2 ^ 574) by reflexivity.
  assert (Oc : Z.abs (ord prec emax (Prim2SF c)) = a).
  { rewrite Ec. cbn [ord]. fold a. blia. }
  destruct (dx_chain c r mr er Nc Er) as (_ & Nd & Sd & Ad).
  fold k in Ad. rewrite Oc in Ad. rewrite Ec in Sd. cbn [sign_of] in Sd.
  assert (E1575 : 2 ^ 1574 <= 2 ^ 1575) by (apply Z.leb_le; reflexivity).
  destruct (dx_mag_normal k a ltac:(blia) Rr) as (Ez & _ & _ & (_ & B3)).
  assert (Herr := dx_mag_error k a Rc Rr).
  rewrite Ez in Ad, Herr.
  set (z3 := R prec _ K360) in *.
  assert (P67 : 0 < 2 ^ 67) by reflexivity.
  assert (P2070 : 2 ^ 2070 < 2 ^ 2098) by reflexivity.
  (* the result is a finite float of magnitude z3 *)
  assert (Fd : (F2Q (2 * np_pi * c * r / 360)%float
                == inject_Z z3 / inject_Z (2 ^ 1074))%Q).
  { assert (Hb := Prim2SF_valid (2 * np_pi * c * r / 360)%float).
    destruct (Prim2SF (2 * np_pi * c * r / 360)%float) as [s|s| |s m e] eqn:Ed;
      try discriminate; cbn [SpecFloat.valid_binary] in Hb.
    - cbn [ord] in Ad. simpl in Ad. blia.
    - cbn [ord] in Ad. rewrite INF64_eq in Ad. destruct s; blia.
    - cbn [sign_of] in Sd. subst s.
      rewrite (F2Q_pos _ m e Ed Hb).
      destruct (mag_finite_lt_INF prec emax prec_pos prec_lt_emax false m e Hb) as [Em _].
      rewrite Em in Ad. rewrite Ad. reflexivity. }
  assert (Fw : (closed_form_Q c r
                == inject_Z (a * K2pi * k)
                   / (360 * inject_Z (2 ^ 1074) * inject_Z (2 ^ 1074) * inject_Z (2 ^ 1074)))%Q).
  { unfold closed_form_Q. rewrite F2Q_2pi, Fc, Fr. rewrite !inject_Z_mult.
    field. discriminate. }
  rewrite Fd, Fw.
  apply Q_rel_err; [reflexivity|].
  apply Qabs_Qle_condition.
  assert (HW : 0 <= a * K2pi * k).
  { assert (HK := K2pi_pos).
    apply Z.mul_nonneg_nonneg; [apply Z.mul_nonneg_nonneg|]; blia. }
  set (W := a * K2pi * k) in *.
  set (X := z3 * 360 * 2 ^ 1074 * 2 ^ 1074) in *.
  assert (EX : (inject_Z z3 * 360 * inject_Z (2 ^ 1074) * inject_Z (2 ^ 1074) - inject_Z W
                == inject_Z (X - W))%Q).
  { unfold X, Z.sub. rewrite inject_Z_plus, inject_Z_opp, !inject_Z_mult. reflexivity. }
  rewrite EX.
  split.
  - assert (H := Q_scaled (W - X) W ltac:(blia)).
    replace (W - X) with (- (X - W)) in H by ring.
    rewrite inject_Z_opp in H. lra.
  - apply Q_scaled. blia.
Qed.

Lemma pixel_size_accuracy_witness :
  exists d, pixel_size 0.03%float solar_radius = Ok d /\
            (Qabs (F2Q d - closed_form_Q 0.03%float solar_radius)
             <= (1 # 2251799813685248) * closed_form_Q 0.03%float solar_radius)%Q.
Proof. apply (pixel_size_accuracy 0.03%float solar_radius); reflexivity. Defined.

(** C1 as stated fails: at the notebook's input the value bound to [dx]
    is neither the closed form evaluated on floats in the grouping of the
    formula, nor its exact value. *)
Lemma closed_form_differs :
  (0 <? 0.03)%float = true /\ (0 <? solar_radius)%float = true /\
  pixel_size 0.03%float solar_radius = Ok 364162.94842861686%float /\
  closed_form 0.03%float solar_radius = 364162.9484286168%float /\
  (364162.94842861686 =? 364162.9484286168)%float = false /\
  Qeq_bool (F2Q 364162.94842861686%float)
           (closed_form_Q 0.03%float solar_radius) = false.
Proof. repeat split; vm_compute; reflexivity. Qed.

(** * Further properties of the notebook *)

(** ** The header *)

Lemma getitem_In (meta : header) (key : string) :
  In (lower key) (map (fun kv => lower (fst kv)) meta) ->
  exists v, getitem meta key = Ok v.
Proof.
  induction meta as [|[k v] rest IH]; cbn [map fst In getitem]; [intros []|].
  intros [E | H].
  - rewrite E, String.eqb_refl. exists v. reflexivity.
  - destruct (String.eqb (lower k) (lower key));
      [exists v; reflexivity | exact (IH H)].
Qed.

Lemma getitem_not_In (meta : header) (key : string) :
  ~ In (lower key) (map (fun kv => lower (fst kv)) meta) ->
  getitem meta key = Raise (KeyError (lower key)).
Proof.
  induction meta as [|[k v] rest IH]; cbn [map fst In getitem]; [reflexivity|].
  intros H. destruct (String.eqb_spec (lower k) (lower key)) as [E | _].
  - exfalso. apply H. left. exact E.
  - apply IH. intros H'. apply H. right. exact H'.
Qed.

Lemma getitem_skip (l1 l2 : header) (key k : string) (v : value) :
  String.eqb (lower k) (lower key) = false ->
  getitem (l1 ++ (k, v) :: l2) key = getitem (l1 ++ l2) key.
Proof.
  intros Hk. induction l1 as [|[k1 v1] l1 IH]; cbn [app getitem].
  - rewrite Hk. reflexivity.
  - destruct (String.eqb (lower k1) (lower key)); [reflexivity | exact IH].
Qed.

(** X1: what the lookup of CDELT2 decides.  The lookup does not see the
    case of letters.  A header with no card CDELT2 makes the run raise
    KeyError, with the key in lower case; a header with one has a value
    for it.  If that value is a string the multiplication raises
    TypeError; if it is a number, whatever number, the run succeeds. *)
Theorem keyword_decides (fits : header) (k : kernel) :
  (~ In "cdelt2"%string (map (fun kv => lower (fst kv)) fits) ->
   run_notebook fits k = Raise (KeyError "cdelt2")) /\
  (In "cdelt2"%string (map (fun kv => lower (fst kv)) fits) ->
   exists v, getitem fits "CDELT2" = Ok v) /\
  (forall s, getitem fits "CDELT2" = Ok (Str s) ->
             run_notebook fits k = Raise TypeError) /\
  (forall c, getitem fits "CDELT2" = Ok (Num c) ->
             raises (run_notebook fits k) = false).
Proof.
  rewrite run_notebook_eq. split; [|split; [|split]].
  - intros H. rewrite (getitem_not_In fits "CDELT2" H). reflexivity.
  - intros H. apply (getitem_In fits "CDELT2" H).
  - intros s ->. reflexivity.
  - intros c ->. reflexivity.
Qed.

(** X2: the notebook reads no other keyword: a card whose key is not
    CDELT2 in any letter case, whatever it holds and wherever it stands
    in the header, changes nothing of what a run computes and prints. *)
Theorem other_cards_ignored (l1 l2 : header) (key : string) (v : value) (k : kernel) :
  String.eqb (lower key) "cdelt2" = false ->
  outcome k (run_notebook (l1 ++ (key, v) :: l2) k) =
  outcome k (run_notebook (l1 ++ l2) k).
Proof.
  intros Hk. rewrite !run_notebook_eq, (getitem_skip l1 l2 "CDELT2" key v Hk).
  destruct (getitem (l1 ++ l2) "CDELT2") as [[c|t]|e]; reflexivity.
Qed.

Lemma other_cards_ignored_witness :
  outcome fresh
    (run_notebook ([("CDELT1"%string, Num 0.03%float)] ++
                   ("CTYPE2"%string, Str "CRLT-CEA") ::
                   [("CDELT2"%string, Num 0.03%float)]) fresh) =
  outcome fresh
    (run_notebook ([("CDELT1"%string, Num 0.03%float)] ++
                   [("CDELT2"%string, Num 0.03%float)]) fresh).
Proof.
  apply (other_cards_ignored [("CDELT1"%string, Num 0.03%float)]
           [("CDELT2"%string, Num 0.03%float)] "CTYPE2" (Str "CRLT-CEA") fresh).
  reflexivity.
Defined.

(** ** The cells *)

(** X4: the second cell only displays a value: a run that skips it binds
    the same size and area and prints the same lines. *)
Theorem cell2_skippable (fits : header) (k : kernel) :
  outcome k (k1 <- cell1 fits k ;; cell3 k1) = outcome k (run_notebook fits k).
Proof.
  rewrite run_notebook_eq. unfold cell1.
  destruct (getitem fits "CDELT2") as [v|e]; [|reflexivity].
  cbn [bind]. destruct (as_float v) as [c|e]; [|reflexivity].
  cbn [bind]. rewrite pixel_size_eq. cbn [bind]. unfold cell3. cbn.
  rewrite <- app_assoc. reflexivity.
Qed.

(** X5: after the first cell, the order of the second and the third
    does not matter: the cells run in the order 1, 3, 2 leave the same
    kernel as a run in the order 1, 2, 3, or raise the same exception. *)
Theorem cells_2_3_commute (fits : header) (k : kernel) :
  (k1 <- cell1 fits k ;; k3 <- cell3 k1 ;; cell2 k3) = run_notebook fits k.
Proof.
  rewrite run_notebook_eq. unfold cell1.
  destruct (getitem fits "CDELT2") as [v|e]; [|reflexivity].
  cbn [bind]. destruct (as_float v) as [c|e]; [|reflexivity].
  cbn [bind]. rewrite pixel_size_eq. cbn [bind]. unfold cell3, cell2. cbn.
  rewrite <- app_assoc. reflexivity.
Qed.

(** ** Signs and values that are not numbers *)

(** X6: negating CDELT2 negates the pixel size and keeps the area, for
    all floats. *)
Theorem negated_cdelt (c r : float) :
  exists d,
    compute c r = Ok {| pixel_size_m := d; pixel_area_m2 := (d * d)%float |} /\
    compute (- c)%float r =
      Ok {| pixel_size_m := (- d)%float; pixel_area_m2 := (d * d)%float |}.
Proof.
  exists (2 * np_pi * c * r / 360)%float. split; [reflexivity|].
  unfold compute, bind. rewrite pixel_size_eq. unfold np_power2.
  rewrite pixel_size_opp, square_opp. reflexivity.
Qed.

Lemma not_nan_false x : not_nan x = false -> x = S754_nan.
Proof. destruct x; try discriminate. reflexivity. Qed.

Lemma SFmul_nan_r x : SFmul prec emax x S754_nan = S754_nan.
Proof. destruct x; reflexivity. Qed.

Lemma is_nan_Prim2SF x : is_nan x = true <-> Prim2SF x = S754_nan.
Proof.
  rewrite is_nan_spec. split.
  - intros H. apply not_nan_false. apply negb_true_iff. exact H.
  - intros ->. reflexivity.
Qed.

(** X7: a CDELT2 or a radius that is NaN raises nothing: the size and the
    area are NaN. *)
Theorem nan_flows_through (c r : float) :
  is_nan c = true \/ is_nan r = true ->
  exists m, compute c r = Ok m /\
            is_nan (pixel_size_m m) = true /\ is_nan (pixel_area_m2 m) = true.
Proof.
  intros H. eexists. split; [reflexivity|].
  cbn [pixel_size_m pixel_area_m2]. unfold np_power2.
  assert (E : Prim2SF (2 * np_pi * c * r / 360)%float = S754_nan).
  { rewrite Prim2SF_div. do 2 rewrite Prim2SF_mul.
    destruct H as [H | H]; apply is_nan_Prim2SF in H; rewrite H.
    - rewrite SFmul_nan_r. reflexivity.
    - rewrite SFmul_nan_r. reflexivity. }
  split; apply is_nan_Prim2SF; [exact E|].
  rewrite Prim2SF_mul, E. reflexivity.
Qed.

Lemma nan_flows_through_witness :
  exists m, compute nan solar_radius = Ok m /\
            is_nan (pixel_size_m m) = true /\ is_nan (pixel_area_m2 m) = true.
Proof. apply (nan_flows_through nan solar_radius). left. reflexivity. Defined.

(** X8: an infinite CDELT2 raises nothing either: with a radius above
    zero the size is the same infinity and the area is plus infinity. *)
Theorem infinite_cdelt (r : float) :
  (0 <? r)%float = true ->
  compute infinity r =
    Ok {| pixel_size_m := infinity; pixel_area_m2 := infinity |} /\
  compute neg_infinity r =
    Ok {| pixel_size_m := neg_infinity; pixel_area_m2 := infinity |}.
Proof.
  intros Hr.
  assert (E : (2 * np_pi * infinity * r / 360)%float = infinity).
  { apply Prim2SF_inj. rewrite Prim2SF_div. rewrite Prim2SF_mul.
    change (Prim2SF (2 * np_pi * infinity)) with (S754_infinity false).
    change (Prim2SF 360) with (S754_finite false 6333186975989760 (-44)).
    destruct (gt0_cases r Hr) as [(m & e & -> & _) | ->]; reflexivity. }
  split.
  - unfold compute, bind. rewrite pixel_size_eq, E. reflexivity.
  - change neg_infinity with (- infinity)%float.
    unfold compute, bind. rewrite pixel_size_eq, pixel_size_opp, E. reflexivity.
Qed.

Lemma infinite_cdelt_witness :
  compute infinity solar_radius =
    Ok {| pixel_size_m := infinity; pixel_area_m2 := infinity |} /\
  compute neg_infinity solar_radius =
    Ok {| pixel_size_m := neg_infinity; pixel_area_m2 := infinity |}.
Proof. apply (infinite_cdelt solar_radius). reflexivity. Defined.

(** ** Order, finiteness and the order value *)

Lemma ltb_ord x y :
  (x <? y)%float = true <->
  not_nan (Prim2SF x) = true /\ not_nan (Prim2SF y) = true /\
  ord prec emax (Prim2SF x) < ord prec emax (Prim2SF y).
Proof.
  rewrite ltb_spec. unfold SFltb.
  assert (Vx := Prim2SF_valid x). assert (Vy := Prim2SF_valid y).
  destruct (not_nan (Prim2SF x)) eqn:Nx.
  - destruct (not_nan (Prim2SF y)) eqn:Ny.
    + rewrite (SFcompare_ord prec emax prec_pos prec_lt_emax) by assumption.
      destruct (Z.compare_spec (ord prec emax (Prim2SF x)) (ord prec emax (Prim2SF y)));
        split; try (intros; repeat split; try reflexivity; lia);
        try discriminate; intros (_ & _ & H'); lia.
    + destruct (Prim2SF y); try discriminate.
      destruct (Prim2SF x); cbn [SFcompare]; split; try discriminate;
        intros (_ & H' & _); discriminate.
  - destruct (Prim2SF x); try discriminate.
    cbn [SFcompare]. split; [discriminate | intros (H' & _); discriminate].
Qed.

Lemma ord_abs_le_INF x :
  SpecFloat.valid_binary prec emax x = true ->
  Z.abs (ord prec emax x) <= INF prec emax.
Proof.
  intros V. assert (HI := INF_pos prec emax prec_pos prec_lt_emax).
  destruct x as [s|s| |s m e]; cbn [ord]; try lia.
  - destruct s; lia.
  - assert (H := ord_finite_bounds prec emax prec_pos prec_lt_emax s m e V).
    cbn [ord] in H. lia.
Qed.

Lemma is_finite_ord x :
  is_finite x = true <->
  not_nan (Prim2SF x) = true /\ Z.abs (ord prec emax (Prim2SF x)) < INF prec emax.
Proof.
  unfold is_finite. rewrite is_nan_spec, is_infinity_spec.
  assert (HI := INF_pos prec emax prec_pos prec_lt_emax).
  destruct (Prim2SF_view x) as [s|s| |s m e Hb]; cbn [not_nan negb orb ord].
  - split; [intros _; split; [reflexivity | lia] | reflexivity].
  - split; [discriminate | intros [_ H]; destruct s; lia].
  - split; [discriminate | intros [H _]; discriminate].
  - split; [intros _; split; [reflexivity|] | reflexivity].
    assert (H := ord_finite_bounds prec emax prec_pos prec_lt_emax s m e Hb).
    cbn [ord] in H. lia.
Qed.

(** The order value of the pixel size for a CDELT2 and a radius above
    zero, both finite. *)
Lemma ord_pixel_size_pos c r mc ec mr er :
  Prim2SF c = S754_finite false mc ec ->
  Prim2SF r = S754_finite false mr er ->
  let a := Zpos mc * 2 ^ (ec - SpecFloat.emin prec emax) in
  let k := Zpos mr * 2 ^ (er - SpecFloat.emin prec emax) in
  not_nan (Prim2SF (2 * np_pi * c * r / 360)%float) = true /\
  ord prec emax (Prim2SF (2 * np_pi * c * r / 360)%float) = dx_mag k a.
Proof.
  intros Ec Er a k.
  assert (Nc : not_nan (Prim2SF c) = true) by (rewrite Ec; reflexivity).
  destruct (ord_pixel_size c r mr er Nc Er) as [Nd Od].
  split; [exact Nd|]. rewrite Od, Ec. cbn [ord]. fold a k.
  unfold odd_ext. rewrite (proj2 (Z.ltb_ge _ _)); [reflexivity|]. unfold a. lia.
Qed.

(** ** Sizes that are ordinary numbers *)

(** X9: for CDELT2 and radius between 2^-500 and 2^500 the pixel size is
    a finite number above zero, between 2^-1007 and 2^996: no step
    overflows and nothing is lost to underflow. *)
Theorem size_in_range (c r : float) :
  in_range c = true -> in_range r = true ->
  exists d, pixel_size c r = Ok d /\
            is_finite d = true /\ (0 <? d)%float = true /\
            (0x1p-1007 <=? d)%float = true /\ (d <=? 0x1p996)%float = true.
Proof.
  intros Hc Hr.
  destruct (in_range_cases c Hc) as (mc & ec & Ec & Bc & Rc).
  destruct (in_range_cases r Hr) as (mr & er & Er & Br & Rr).
  destruct (ord_pixel_size_pos c r mc ec mr er Ec Er) as [Nd Od].
  cbv zeta in Od.
  set (a := Zpos mc * 2 ^ (ec - SpecFloat.emin prec emax)) in *.
  set (k := Zpos mr * 2 ^ (er - SpecFloat.emin prec emax)) in *.
  assert (E1575 : 2 ^ 1574 <= 2 ^ 1575) by (apply Z.leb_le; reflexivity).
  destruct (dx_mag_normal k a ltac:(blia) Rr) as (Ez & _ & _ & (_ & B3)).
  rewrite <- Ez in B3.
  assert (P67 : 0 < 2 ^ 67) by reflexivity.
  assert (P2070 : 2 ^ 2070 < 2 ^ 2098) by reflexivity.
  exists (2 * np_pi * c * r / 360)%float. split; [reflexivity|].
  split; [|split; [|split]].
  - apply is_finite_ord. split; [exact Nd|]. rewrite Od, INF64_eq. blia.
  - apply ltb_ord. split; [reflexivity|]. split; [exact Nd|].
    rewrite Od. change (ord prec emax (Prim2SF 0)) with 0. blia.
  - apply leb_ord. split; [reflexivity|]. split; [exact Nd|].
    rewrite Od. replace (ord prec emax (Prim2SF 0x1p-1007)) with (2 ^ 67)
      by (vm_compute; reflexivity). blia.
  - apply leb_ord. split; [exact Nd|]. split; [reflexivity|].
    rewrite Od. replace (ord prec emax (Prim2SF 0x1p996)) with (2 ^ 2070)
      by (vm_compute; reflexivity). blia.
Qed.

Lemma size_in_range_witness :
  exists d, pixel_size 0.03%float solar_radius = Ok d /\
            is_finite d = true /\ (0 <? d)%float = true /\
            (0x1p-1007 <=? d)%float = true /\ (d <=? 0x1p996)%float = true.
Proof. apply (size_in_range 0.03%float solar_radius); reflexivity. Defined.

(** ** The area grows with the size *)

Lemma mulmag_mono_l k k' a :
  0 <= k <= k' -> 0 <= a ->
  mulmag prec emax k a <= mulmag prec emax k' a.
Proof.
  intros Hk Ha. unfold mulmag.
  destruct (INF prec emax <=? a); [lia|].
  assert (HP := pow2_emin_pos prec emax prec_pos prec_lt_emax).
  assert (H : R prec (a * k) (2 ^ (- SpecFloat.emin prec emax))
              <= R prec (a * k') (2 ^ (- SpecFloat.emin prec emax))).
  { apply (R_mono prec emax prec_pos prec_lt_emax); try assumption.
    - apply Z.mul_nonneg_nonneg; lia.
    - apply Z.mul_nonneg_nonneg; lia.
    - apply Z.mul_le_mono_nonneg_r; [lia|].
      apply Z.mul_le_mono_nonneg_l; lia. }
  lia.
Qed.

(** The square of a float that is not NaN, as an order value. *)
Lemma ord_square x :
  SpecFloat.valid_binary prec emax x = true -> not_nan x = true ->
  not_nan (SFmul prec emax x x) = true /\
  ord prec emax (SFmul prec emax x x) =
    mulmag prec emax (Z.abs (ord prec emax x)) (Z.abs (ord prec emax x)).
Proof.
  intros V N. assert (HI := INF_pos prec emax prec_pos prec_lt_emax).
  destruct x as [s|s| |s m e]; try discriminate.
  - split; [reflexivity|]. cbn [SFmul ord]. simpl Z.abs.
    unfold mulmag. rewrite (proj2 (Z.leb_gt _ _)) by lia.
    rewrite Z.mul_0_l, (R_0 prec emax prec_pos prec_lt_emax)
      by apply (pow2_emin_pos prec emax prec_pos prec_lt_emax).
    lia.
  - split; [reflexivity|]. cbn [SFmul ord]. rewrite xorb_nilpotent.
    unfold mulmag.
    replace (Z.abs (if s then - INF prec emax else INF prec emax))
      with (INF prec emax) by (destruct s; lia).
    rewrite Z.leb_refl. reflexivity.
  - cbn [SpecFloat.valid_binary] in V.
    destruct (mag_finite_lt_INF prec emax prec_pos prec_lt_emax s m e V) as [A B].
    rewrite A. split.
    + apply (mul_finite_not_nan prec emax prec_pos prec_lt_emax); [exact V | reflexivity | exact V].
    + rewrite (SFmul_finite prec emax prec_pos prec_lt_emax) by assumption.
      rewrite xorb_nilpotent.
      rewrite (ord_encode_R prec emax prec_pos prec_lt_emax).
      * unfold signed, mulmag. rewrite (proj2 (Z.leb_gt _ _)) by lia. reflexivity.
      * apply Z.mul_nonneg_nonneg; lia.
      * apply (pow2_emin_pos prec emax prec_pos prec_lt_emax).
Qed.

Lemma square_mono x y :
  SpecFloat.valid_binary prec emax x = true -> not_nan x = true ->
  SpecFloat.valid_binary prec emax y = true -> not_nan y = true ->
  Z.abs (ord prec emax x) <= Z.abs (ord prec emax y) ->
  ord prec emax (SFmul prec emax x x) <= ord prec emax (SFmul prec emax y y).
Proof.
  intros Vx Nx Vy Ny H.
  destruct (ord_square x Vx Nx) as [_ ->].
  destruct (ord_square y Vy Ny) as [_ ->].
  set (a := Z.abs (ord prec emax x)) in *.
  set (b := Z.abs (ord prec emax y)) in *.
  assert (Ha : 0 <= a) by apply Z.abs_nonneg.
  destruct (Z.eq_dec b 0) as [Eb | Nb].
  - assert (a = 0) by lia. rewrite Eb, H0. lia.
  - apply Z.le_trans with (mulmag prec emax b a).
    + apply mulmag_mono_l; lia.
    + apply (mulmag_mono prec emax prec_pos prec_lt_emax); lia.
Qed.

Lemma ord_SFabs x : ord prec emax (SFabs x) = Z.abs (ord prec emax x).
Proof.
  assert (HI := INF_pos prec emax prec_pos prec_lt_emax).
  destruct x as [s|s| |s m e]; cbn [SFabs ord]; try reflexivity.
  - destruct s; lia.
  - assert (0 < 2 ^ (e - SpecFloat.emin prec emax) \/ e - SpecFloat.emin prec emax < 0)
      by apply pow2_pos.
    destruct H as [H | H]; [destruct s; nia|].
    rewrite Z.pow_neg_r by lia. destruct s; lia.
Qed.

Lemma not_nan_SFabs x : not_nan (SFabs x) = not_nan x.
Proof. destruct x; reflexivity. Qed.

Lemma abs_odd_ext g z :
  (forall a, 0 <= a -> 0 <= g a) -> Z.abs (odd_ext g z) = g (Z.abs z).
Proof.
  intros Hg. unfold odd_ext. destruct (Z.ltb_spec z 0).
  - assert (H' := Hg (- z) ltac:(lia)). rewrite Z.abs_neq by lia.
    rewrite Z.abs_neq by lia. lia.
  - assert (H' := Hg z ltac:(lia)). rewrite !Z.abs_eq by lia. reflexivity.
Qed.

(** X10: for a finite radius above zero the area never decreases when the
    absolute value of CDELT2 grows. *)
Theorem area_monotone (c1 c2 r : float) :
  (abs c1 <=? abs c2)%float = true ->
  (0 <? r)%float = true -> is_finite r = true ->
  exists m1 m2,
    compute c1 r = Ok m1 /\ compute c2 r = Ok m2 /\
    (pixel_area_m2 m1 <=? pixel_area_m2 m2)%float = true.
Proof.
  intros H Hr Hf.
  destruct (pos_finite r Hr Hf) as (mr & er & Er & Hb & Hk).
  apply leb_ord in H. rewrite !abs_spec, !not_nan_SFabs, !ord_SFabs in H.
  destruct H as (N1 & N2 & Ho).
  destruct (ord_pixel_size c1 r mr er N1 Er) as [Nd1 O1].
  destruct (ord_pixel_size c2 r mr er N2 Er) as [Nd2 O2].
  eexists. eexists. split; [reflexivity|]. split; [reflexivity|].
  cbn [pixel_area_m2 pixel_size_m]. unfold np_power2.
  set (d1 := (2 * np_pi * c1 * r / 360)%float) in *.
  set (d2 := (2 * np_pi * c2 * r / 360)%float) in *.
  apply leb_ord. rewrite !Prim2SF_mul.
  destruct (ord_square _ (Prim2SF_valid d1) Nd1) as [Na1 _].
  destruct (ord_square _ (Prim2SF_valid d2) Nd2) as [Na2 _].
  split; [exact Na1|]. split; [exact Na2|].
  apply square_mono; try apply Prim2SF_valid; try assumption.
  rewrite O1, O2.
  rewrite !abs_odd_ext by (intros a Ha; apply dx_mag_range; assumption).
  apply dx_mag_mono; [exact Hk|]. split; [apply Z.abs_nonneg | exact Ho].
Qed.

Lemma area_monotone_witness :
  exists m1 m2,
    compute 0.03%float solar_radius = Ok m1 /\
    compute (-0.5)%float solar_radius = Ok m2 /\
    (pixel_area_m2 m1 <=? pixel_area_m2 m2)%float = true.
Proof.
  apply (area_monotone 0.03%float (-0.5)%float solar_radius); reflexivity.
Defined.

(** ** The second cell *)

Lemma percent_difference_eq dx :
  percent_difference dx = Ok ((dx / 1000 - 362.5) / 100)%float.
Proof. reflexivity. Qed.

(** The second cell displays [percent_difference dx]. *)
Lemma cell2_eq k :
  cell2 k =
  dx <- name "dx" (k_dx k) ;;
  v <- percent_difference dx ;;
  Ok {| k_np := k_np k;
        k_path := k_path k; k_meta := k_meta k; k_dx := k_dx k;
        k_area := k_area k; k_stdout := k_stdout k;
        k_out := k_out k ++ [v] |}.
Proof. unfold cell2. destruct (name "dx" (k_dx k)); reflexivity. Qed.

Lemma Prim2SF_sub x y :
  Prim2SF (x - y)%float = SFsub prec emax (Prim2SF x) (Prim2SF y).
Proof. apply sub_spec. Qed.

Lemma Prim2SF_1000 :
  Prim2SF 1000%float = S754_finite false 8796093022208000 (-43) /\
  bounded prec emax 8796093022208000 (-43) = true /\
  Zpos 8796093022208000 * 2 ^ (-43 - SpecFloat.emin prec emax) = K1000.
Proof. repeat split. Qed.

Lemma Prim2SF_3625 :
  Prim2SF 362.5%float = S754_finite false 6377167441100800 (-44) /\
  bounded prec emax 6377167441100800 (-44) = true /\
  Zpos 6377167441100800 * 2 ^ (-44 - SpecFloat.emin prec emax) = K3625.
Proof. repeat split. Qed.

Lemma Prim2SF_100 :
  Prim2SF 100%float = S754_finite false 7036874417766400 (-46) /\
  bounded prec emax 7036874417766400 (-46) = true /\
  Zpos 7036874417766400 * 2 ^ (-46 - SpecFloat.emin prec emax) = K100.
Proof. repeat split. Qed.

Lemma K1000_pos : 0 < K1000.
Proof. reflexivity. Qed.

Lemma K100_pos : 0 < K100.
Proof. reflexivity. Qed.

Lemma K3625_eq : K3625 = 725 * 2 ^ 43 * 2 ^ 1030.
Proof. reflexivity. Qed.

(** The three operations of the second cell on a [dx] that is not NaN. *)
Lemma pct_chain dx :
  not_nan (Prim2SF dx) = true ->
  let a := (dx / 1000)%float in
  let v := ((dx / 1000 - 362.5) / 100)%float in
  (SpecFloat.valid_binary prec emax (Prim2SF a) = true /\
   not_nan (Prim2SF a) = true /\
   ord prec emax (Prim2SF a) = odd_ext (divmag prec emax K1000) (ord prec emax (Prim2SF dx))) /\
  not_nan (Prim2SF v) = true /\
  ord prec emax (Prim2SF v) =
    odd_ext (divmag prec emax K100) (sub_ord prec emax K3625 (ord prec emax (Prim2SF a))).
Proof.
  intros N a v.
  destruct Prim2SF_1000 as (E1 & B1 & K1).
  destruct Prim2SF_3625 as (E2 & B2 & K2).
  destruct Prim2SF_100 as (E3 & B3 & K3).
  unfold v, a. rewrite !Prim2SF_div, Prim2SF_sub, Prim2SF_div, E1, E2, E3.
  destruct (ord_div_pos prec emax prec_pos prec_lt_emax _ _ _ (Prim2SF_valid dx) N B1)
    as (V1 & N1 & O1).
  destruct (sub_step prec emax prec_pos prec_lt_emax _ _ _ V1 N1 B2) as (V2 & N2 & O2).
  destruct (ord_div_pos prec emax prec_pos prec_lt_emax _ _ _ V2 N2 B3) as (_ & N3 & O3).
  rewrite K1 in O1. rewrite K2 in O2. rewrite K3 in O3.
  split; [split; [exact V1 | split; [exact N1 | exact O1]]|].
  split; [exact N3|]. rewrite O3, O2. reflexivity.
Qed.

Lemma odd_ext_range g z :
  (forall a, 0 <= a -> 0 <= g a <= INF prec emax) ->
  - INF prec emax <= odd_ext g z <= INF prec emax.
Proof.
  intros Hg. unfold odd_ext. destruct (Z.ltb_spec z 0).
  - assert (H' := Hg (- z) ltac:(lia)). lia.
  - assert (H' := Hg z ltac:(lia)). lia.
Qed.

Lemma pct_ord_mono o o' : o <= o' -> pct_ord o <= pct_ord o'.
Proof.
  intros H. unfold pct_ord.
  assert (G1 : forall a, 0 <= a -> 0 <= divmag prec emax K1000 a <= INF prec emax)
    by (intros a Ha; apply (divmag_range prec emax prec_pos prec_lt_emax);
        [apply K1000_pos | exact Ha]).
  apply odd_ext_mono.
  - apply (divmag_0 prec emax prec_pos prec_lt_emax). apply K100_pos.
  - intros a a' Ha. apply (divmag_mono prec emax prec_pos prec_lt_emax);
      [apply K100_pos | exact Ha].
  - apply (sub_ord_mono prec emax prec_pos prec_lt_emax).
    + apply (odd_ext_range _ o G1).
    + apply odd_ext_mono; [| |exact H].
      * apply (divmag_0 prec emax prec_pos prec_lt_emax). apply K1000_pos.
      * intros a a' Ha. apply (divmag_mono prec emax prec_pos prec_lt_emax);
          [apply K1000_pos | exact Ha].
    + apply (odd_ext_range _ o' G1).
Qed.

(** X11: the value the second cell displays never decreases when [dx]
    grows. *)
Theorem difference_monotone (dx1 dx2 : float) :
  (dx1 <=? dx2)%float = true ->
  exists v1 v2,
    percent_difference dx1 = Ok v1 /\ percent_difference dx2 = Ok v2 /\
    (v1 <=? v2)%float = true.
Proof.
  intros H. apply leb_ord in H. destruct H as (N1 & N2 & Ho).
  destruct (pct_chain dx1 N1) as ((_ & _ & A1) & Nv1 & O1).
  destruct (pct_chain dx2 N2) as ((_ & _ & A2) & Nv2 & O2).
  eexists. eexists. split; [reflexivity|]. split; [reflexivity|].
  apply leb_ord. split; [exact Nv1|]. split; [exact Nv2|].
  rewrite O1, O2, A1, A2. apply pct_ord_mono. exact Ho.
Qed.

Lemma difference_monotone_witness :
  exists v1 v2,
    percent_difference 362500%float = Ok v1 /\
    percent_difference 364162.94842861686%float = Ok v2 /\
    (v1 <=? v2)%float = true.
Proof.
  apply (difference_monotone 362500%float 364162.94842861686%float). reflexivity.
Defined.

Lemma eqb_ord x y :
  (x =? y)%float = true <->
  not_nan (Prim2SF x) = true /\ not_nan (Prim2SF y) = true /\
  ord prec emax (Prim2SF x) = ord prec emax (Prim2SF y).
Proof.
  rewrite eqb_spec. unfold SFeqb.
  assert (Vx := Prim2SF_valid x). assert (Vy := Prim2SF_valid y).
  destruct (not_nan (Prim2SF x)) eqn:Nx.
  - destruct (not_nan (Prim2SF y)) eqn:Ny.
    + rewrite (SFcompare_ord prec emax prec_pos prec_lt_emax) by assumption.
      destruct (Z.compare_spec (ord prec emax (Prim2SF x)) (ord prec emax (Prim2SF y)));
        split; try (intros; repeat split; try reflexivity; lia);
        try discriminate; intros (_ & _ & H'); lia.
    + destruct (Prim2SF y); try discriminate.
      destruct (Prim2SF x); cbn [SFcompare]; split; try discriminate;
        intros (_ & H' & _); discriminate.
  - destruct (Prim2SF x); try discriminate.
    cbn [SFcompare]. split; [discriminate | intros (H' & _); discriminate].
Qed.

(** A float other than 362.5 is at least [2^-44] away from it. *)
Lemma grid_3625 x :
  SpecFloat.valid_binary prec emax x = true -> not_nan x = true ->
  ord prec emax x <> K3625 ->
  2 ^ 1030 <= Z.abs (ord prec emax x - K3625).
Proof.
  intros V N Hne.
  assert (HK : K3625 = 725 * 2 ^ 43 * 2 ^ 1030) by apply K3625_eq.
  assert (L1 : 2 ^ 1030 <= K3625 - 2 ^ 1082) by (apply Z.leb_le; reflexivity).
  assert (L2 : 2 ^ 1030 <= 2 ^ 1083 - K3625) by (apply Z.leb_le; reflexivity).
  assert (L3 : 0 < 2 ^ 1082) by reflexivity.
  assert (L4 : 2 ^ 1082 < 2 ^ 2098) by reflexivity.
  assert (L5 : 0 < 2 ^ 1030) by reflexivity.
  assert (L6 : 2 ^ 1083 < 2 ^ 2098) by reflexivity.
  set (K := K3625) in *. clearbody K.
  destruct x as [s|s| |s m e]; try discriminate.
  - cbn [ord]. blia.
  - cbn [ord]. rewrite INF64_eq. destruct s; blia.
  - cbn [SpecFloat.valid_binary] in V.
    destruct (mag_finite_lt_INF prec emax prec_pos prec_lt_emax s m e V) as [_ B].
    destruct (bounded_canonical prec emax prec_pos prec_lt_emax m e V) as (He & Hd & Hc).
    cbn [ord] in *.
    set (t := e - SpecFloat.emin prec emax) in *.
    assert (Ht : 0 <= t) by (unfold t; blia).
    set (o := Zpos m * 2 ^ t) in *.
    destruct s; [blia|].
    destruct (Z.lt_ge_cases o (2 ^ 1082)) as [Lo | Lo]; [blia|].
    destruct (Z.lt_ge_cases o (2 ^ 1083)) as [Hi | Hi]; [|blia].
    assert (D := Zdigits2_bounds (Zpos m) ltac:(blia)).
    assert (Pt := pow2_gt0 t Ht).
    assert (Et : t = 1030).
    { destruct Hc as [Hc | Hc].
      - exfalso. assert (t = 0) by (unfold t; blia).
        assert (2 ^ Zdigits2 (Zpos m) <= 2 ^ prec) by (apply Z.pow_le_mono_r; blia).
        assert (2 ^ prec < 2 ^ 1082) by reflexivity.
        unfold o in Lo. rewrite H in Lo. change (2 ^ 0) with 1 in Lo. blia.
      - rewrite Hc in D. change (2 ^ (prec - 1)) with (2 ^ 52) in D.
        change (2 ^ prec) with (2 ^ 53) in D.
        assert (P52 : 0 < 2 ^ 52) by reflexivity.
        destruct (Z.lt_trichotomy t 1030) as [C | [C | C]]; [exfalso | exact C | exfalso].
        + assert (2 ^ t <= 2 ^ 1029) by (apply Z.pow_le_mono_r; blia).
          assert (o < 2 ^ 53 * 2 ^ 1029).
          { unfold o. apply Z.le_lt_trans with (Zpos m * 2 ^ 1029).
            - apply Z.mul_le_mono_nonneg_l; blia.
            - apply Z.mul_lt_mono_pos_r; [reflexivity | blia]. }
          change (2 ^ 53 * 2 ^ 1029) with (2 ^ 1082) in H0. blia.
        + assert (2 ^ 1031 <= 2 ^ t) by (apply Z.pow_le_mono_r; blia).
          assert (2 ^ 52 * 2 ^ 1031 <= o).
          { unfold o. apply Z.le_trans with (Zpos m * 2 ^ 1031).
            - apply Z.mul_le_mono_nonneg_r; [apply Z.lt_le_incl; reflexivity | blia].
            - apply Z.mul_le_mono_nonneg_l; blia. }
          change (2 ^ 52 * 2 ^ 1031) with (2 ^ 1083) in H0. blia. }
    unfold o in *. rewrite Et in *. rewrite HK in *.
    rewrite <- Z.mul_sub_distr_r, Z.abs_mul, (Z.abs_eq (2 ^ 1030)) by blia.
    assert (Zpos m - 725 * 2 ^ 43 <> 0).
    { intros E. apply Hne. replace (Zpos m) with (725 * 2 ^ 43) by blia. reflexivity. }
    assert (1 <= Z.abs (Zpos m - 725 * 2 ^ 43)) by blia.
    replace (2 ^ 1030) with (1 * 2 ^ 1030) at 1 by blia.
    apply Z.mul_le_mono_nonneg_r; blia.
Qed.

Lemma addmag_pow2 k : 0 <= k < 2098 -> addmag prec emax (2 ^ k) = 2 ^ k.
Proof.
  intros Hk. unfold addmag.
  rewrite (R_pow2 prec emax prec_pos prec_lt_emax) by blia.
  rewrite INF64_eq.
  assert (2 ^ k < 2 ^ 2098) by (apply Z.pow_lt_mono_r; blia). blia.
Qed.

Lemma divmag_100_pos z : 2 ^ 1030 <= z -> 0 < divmag prec emax K100 z.
Proof.
  intros Hz.
  assert (L : 0 < divmag prec emax K100 (2 ^ 1030)) by (vm_compute; reflexivity).
  assert (P : 0 < 2 ^ 1030) by reflexivity.
  assert (M := divmag_mono prec emax prec_pos prec_lt_emax K100 (2 ^ 1030) z K100_pos
                 ltac:(blia)).
  blia.
Qed.

(** The sign of the second cell's order value is the sign of
    [ord a - K3625], for the float [a = dx/1000]. *)
Lemma pct_sign x :
  SpecFloat.valid_binary prec emax x = true -> not_nan x = true ->
  let o := ord prec emax x in
  let w := odd_ext (divmag prec emax K100) (sub_ord prec emax K3625 o) in
  (K3625 < o -> 0 < w) /\ (o < K3625 -> w < 0) /\ (o = K3625 -> w = 0).
Proof.
  intros V N o w.
  assert (HI := INF_pos prec emax prec_pos prec_lt_emax).
  assert (Bo := ord_abs_le_INF x V). fold o in Bo.
  assert (KB : 0 < K3625 < INF prec emax) by (split; reflexivity).
  assert (P1030 : 0 < 2 ^ 1030) by reflexivity.
  assert (I1030 : 2 ^ 1030 <= INF prec emax) by (apply Z.leb_le; reflexivity).
  assert (G : o <> K3625 -> 2 ^ 1030 <= Z.abs (o - K3625))
    by (intros Hne; apply grid_3625; assumption).
  assert (A : forall n, 2 ^ 1030 <= n -> 2 ^ 1030 <= addmag prec emax n).
  { intros n Hn. rewrite <- (addmag_pow2 1030) at 1 by blia.
    apply (addmag_mono prec emax prec_pos prec_lt_emax). blia. }
  unfold w, sub_ord.
  set (K := K3625) in *. clearbody K.
  split; [|split].
  - intros H. destruct (Z.leb_spec (INF prec emax) (Z.abs o)).
    + unfold odd_ext. rewrite (proj2 (Z.ltb_ge _ _)) by blia.
      apply divmag_100_pos. blia.
    + assert (G' := G ltac:(blia)). rewrite Z.abs_eq in G' by blia.
      unfold odd_ext at 2. rewrite (proj2 (Z.ltb_ge _ _)) by blia.
      assert (A' := A _ G').
      unfold odd_ext. rewrite (proj2 (Z.ltb_ge _ _)) by blia.
      apply divmag_100_pos. exact A'.
  - intros H. destruct (Z.leb_spec (INF prec emax) (Z.abs o)).
    + unfold odd_ext. rewrite (proj2 (Z.ltb_lt _ _)) by blia.
      assert (D := divmag_100_pos (- o) ltac:(blia)). blia.
    + assert (G' := G ltac:(blia)). rewrite Z.abs_neq in G' by blia.
      unfold odd_ext at 2. rewrite (proj2 (Z.ltb_lt _ _)) by blia.
      assert (A' := A _ G').
      unfold odd_ext. rewrite (proj2 (Z.ltb_lt _ _)) by blia.
      rewrite Z.opp_involutive.
      assert (D := divmag_100_pos _ A'). blia.
  - intros H. rewrite (proj2 (Z.leb_gt _ _)) by blia. rewrite H, Z.sub_diag.
    unfold odd_ext at 2. rewrite Z.ltb_irrefl.
    rewrite (addmag_0 prec emax prec_pos prec_lt_emax).
    unfold odd_ext. rewrite Z.ltb_irrefl.
    apply (divmag_0 prec emax prec_pos prec_lt_emax). apply K100_pos.
Qed.

(** X12: the sign of the displayed value is exact: it is above zero,
    below zero or zero exactly when [dx/1000] is above, below or equal to
    362.5; rounding and underflow never turn a difference into zero. *)
Theorem difference_sign (dx : float) :
  exists v,
    percent_difference dx = Ok v /\
    (0 <? v)%float = (362.5 <? dx / 1000)%float /\
    (v <? 0)%float = (dx / 1000 <? 362.5)%float /\
    (v =? 0)%float = (dx / 1000 =? 362.5)%float.
Proof.
  exists ((dx / 1000 - 362.5) / 100)%float. split; [reflexivity|].
  destruct (not_nan (Prim2SF dx)) eqn:N.
  - destruct (pct_chain dx N) as ((Va & Na & _) & Nv & Ov).
    destruct (pct_sign _ Va Na) as (S1 & S2 & S3). cbv zeta in S1, S2, S3.
    rewrite <- Ov in S1, S2, S3.
    set (a := (dx / 1000)%float) in *.
    set (v := ((a - 362.5) / 100)%float) in *.
    assert (E0 : ord prec emax (Prim2SF 0) = 0) by reflexivity.
    assert (EK : ord prec emax (Prim2SF 362.5) = K3625) by reflexivity.
    assert (N0 : not_nan (Prim2SF 0) = true) by reflexivity.
    assert (NK : not_nan (Prim2SF 362.5) = true) by reflexivity.
    set (ov := ord prec emax (Prim2SF v)) in *.
    set (oa := ord prec emax (Prim2SF a)) in *.
    split; [|split]; apply eq_true_iff_eq.
    + rewrite !ltb_ord, N0, NK, Na, Nv, E0, EK. fold ov oa.
      split; intros (_ & _ & H); (split; [reflexivity|]; split; [reflexivity|]); lia.
    + rewrite !ltb_ord, N0, NK, Na, Nv, E0, EK. fold ov oa.
      split; intros (_ & _ & H); (split; [reflexivity|]; split; [reflexivity|]); lia.
    + rewrite !eqb_ord, N0, NK, Na, Nv, E0, EK. fold ov oa.
      split; intros (_ & _ & H); (split; [reflexivity|]; split; [reflexivity|]); lia.
  - apply not_nan_false in N.
    assert (Ea : Prim2SF (dx / 1000)%float = S754_nan)
      by (rewrite Prim2SF_div, N; reflexivity).
    assert (Ev : Prim2SF ((dx / 1000 - 362.5) / 100)%float = S754_nan)
      by (rewrite Prim2SF_div, Prim2SF_sub, Ea; reflexivity).
    rewrite !ltb_spec, !eqb_spec, Ea, Ev. repeat split.
Qed.

(** ** Cells run again *)

(** X13: the kernel keeps state between cells.  After a whole run on the
    header [f1], running the first cell again on a header [f2] binds the
    new size to [dx] and prints it, but [area] is still the area of the
    first run: it is stale until the third cell is run again. *)
Theorem stale_area (f1 f2 : header) (k : kernel) :
  (k1 <- run_notebook f1 k ;; cell1 f2 k1) =
  (v1 <- getitem f1 "CDELT2" ;;
   c1 <- as_float v1 ;;
   v2 <- getitem f2 "CDELT2" ;;
   c2 <- as_float v2 ;;
   d1 <- pixel_size c1 solar_radius ;;
   d2 <- pixel_size c2 solar_radius ;;
   p1 <- percent_difference d1 ;;
   Ok {| k_np := true;
         k_path := Some "./hmi*.fits"%string; k_meta := Some f2;
         k_dx := Some d2; k_area := Some (np_power2 d1);
         k_stdout := k_stdout k ++
                     [size_line d1; area_line (np_power2 d1); size_line d2];
         k_out := k_out k ++ [p1] |}).
Proof.
  rewrite run_notebook_eq. unfold cell1.
  destruct (getitem f1 "CDELT2") as [v1|e1]; [|reflexivity].
  cbn [bind]. destruct (as_float v1) as [c1|e1]; [|reflexivity].
  cbn [bind]. rewrite pixel_size_eq. cbn [bind k_area k_stdout k_out].
  destruct (getitem f2 "CDELT2") as [v2|e2]; [|reflexivity].
  cbn [bind]. destruct (as_float v2) as [c2|e2]; [|reflexivity].
  cbn [bind]. rewrite !pixel_size_eq, percent_difference_eq. cbn [bind].
  rewrite <- app_assoc. reflexivity.
Qed.

(** ** From the header to the displayed value *)

Lemma pixel_size_ord_mono c1 c2 r :
  (c1 <=? c2)%float = true -> (0 <? r)%float = true -> is_finite r = true ->
  not_nan (Prim2SF (2 * np_pi * c1 * r / 360)%float) = true /\
  not_nan (Prim2SF (2 * np_pi * c2 * r / 360)%float) = true /\
  ord prec emax (Prim2SF (2 * np_pi * c1 * r / 360)%float)
  <= ord prec emax (Prim2SF (2 * np_pi * c2 * r / 360)%float).
Proof.
  intros H Hr Hf.
  destruct (pos_finite r Hr Hf) as (mr & er & Er & Hb & Hk).
  apply leb_ord in H. destruct H as (N1 & N2 & Ho).
  destruct (ord_pixel_size c1 r mr er N1 Er) as [Nd1 O1].
  destruct (ord_pixel_size c2 r mr er N2 Er) as [Nd2 O2].
  split; [exact Nd1|]. split; [exact Nd2|].
  rewrite O1, O2.
  apply odd_ext_mono; [apply dx_mag_0; exact Hk | | exact Ho].
  intros a a' Ha. apply dx_mag_mono; assumption.
Qed.

(** X14: through a whole run, a header with a larger CDELT2 never
    displays a smaller value in the second cell. *)
Theorem displayed_monotone (f1 f2 : header) (k : kernel) (c1 c2 : float) :
  getitem f1 "CDELT2" = Ok (Num c1) -> getitem f2 "CDELT2" = Ok (Num c2) ->
  (c1 <=? c2)%float = true ->
  exists k1 k2 v1 v2,
    run_notebook f1 k = Ok k1 /\ run_notebook f2 k = Ok k2 /\
    k_out k1 = k_out k ++ [v1] /\ k_out k2 = k_out k ++ [v2] /\
    (v1 <=? v2)%float = true.
Proof.
  intros H1 H2 H. rewrite !run_notebook_eq, H1, H2. cbn [bind as_float].
  rewrite !pixel_size_eq. cbn [bind].
  eexists. eexists. eexists. eexists.
  split; [reflexivity|]. split; [reflexivity|].
  cbn [k_out]. split; [reflexivity|]. split; [reflexivity|].
  destruct (pixel_size_ord_mono c1 c2 solar_radius H eq_refl eq_refl) as (N1 & N2 & Ho).
  destruct (pct_chain _ N1) as ((_ & _ & A1) & Nv1 & O1).
  destruct (pct_chain _ N2) as ((_ & _ & A2) & Nv2 & O2).
  apply leb_ord. split; [exact Nv1|]. split; [exact Nv2|].
  rewrite O1, O2, A1, A2. apply pct_ord_mono. exact Ho.
Qed.

Lemma displayed_monotone_witness :
  exists k1 k2 v1 v2,
    run_notebook [("CDELT2"%string, Num 0.03%float)] fresh = Ok k1 /\
    run_notebook [("CDELT2"%string, Num 0.5%float)] fresh = Ok k2 /\
    k_out k1 = k_out fresh ++ [v1] /\ k_out k2 = k_out fresh ++ [v2] /\
    (v1 <=? v2)%float = true.
Proof.
  apply (displayed_monotone [("CDELT2"%string, Num 0.03%float)]
           [("CDELT2"%string, Num 0.5%float)] fresh 0.03%float 0.5%float);
    reflexivity.
Defined.

(** ** The radius *)

(** The three rounded operations for CDELT2 between [2^-500] and [2^500]
    and a radius between [2^-500] and [2^501]. *)
Lemma dx_mag_normal_radius k a :
  2 ^ 574 <= a <= 2 ^ 1574 -> 2 ^ 574 <= k <= 2 ^ 1575 ->
  let z1 := R prec (a * K2pi) (2 ^ 1074) in
  let z2 := R prec (z1 * k) (2 ^ 1074) in
  let z3 := R prec (z2 * 2 ^ 1074) K360 in
  dx_mag k a = z3 /\
  (prec <= Zdigits2 (a * K2pi / 2 ^ 1074) /\ 2 ^ 576 <= z1 <= 2 ^ 1577) /\
  (prec <= Zdigits2 (z1 * k / 2 ^ 1074) /\ 2 ^ 76 <= z2 <= 2 ^ 2078) /\
  (prec <= Zdigits2 (z2 * 2 ^ 1074 / K360) /\ 2 ^ 67 <= z3 <= 2 ^ 2070).
Proof.
  intros Ha Hk z1 z2 z3.
  assert (HK := K2pi_bounds). assert (HK3 := K360_bounds).
  assert (P574 : 0 < 2 ^ 574) by reflexivity.
  assert (P1574 : 2 ^ 1574 < 2 ^ 2098) by reflexivity.
  assert (P1076 : 0 < 2 ^ 1076) by reflexivity.
  assert (S1 : 2 ^ 576 * 2 ^ 1074 <= a * K2pi <= 2 ^ 1577 * 2 ^ 1074).
  { replace (2 ^ 576 * 2 ^ 1074) with (2 ^ 574 * 2 ^ 1076) by reflexivity.
    replace (2 ^ 1577 * 2 ^ 1074) with (2 ^ 1574 * 2 ^ 1077) by reflexivity.
    apply mul_between; blia. }
  destruct (mulmag_normal K2pi a 576 1577 K2pi_pos ltac:(blia) ltac:(blia) ltac:(blia) S1)
    as (E1 & B1 & N1).
  fold z1 in E1, B1.
  assert (P576 : 0 < 2 ^ 576) by reflexivity.
  assert (P1577 : 2 ^ 1577 < 2 ^ 2098) by reflexivity.
  assert (S2 : 2 ^ 76 * 2 ^ 1074 <= z1 * k <= 2 ^ 2078 * 2 ^ 1074).
  { replace (2 ^ 76 * 2 ^ 1074) with (2 ^ 576 * 2 ^ 574) by reflexivity.
    replace (2 ^ 2078 * 2 ^ 1074) with (2 ^ 1577 * 2 ^ 1575) by reflexivity.
    apply mul_between; blia. }
  destruct (mulmag_normal k z1 76 2078 ltac:(blia) ltac:(blia) ltac:(blia) ltac:(blia) S2)
    as (E2 & B2 & N2).
  fold z2 in E2, B2.
  assert (P76 : 0 < 2 ^ 76) by reflexivity.
  assert (P2078 : 2 ^ 2078 < 2 ^ 2098) by reflexivity.
  assert (P1074 : 0 < 2 ^ 1074) by reflexivity.
  assert (P67 : 0 < 2 ^ 67) by reflexivity.
  assert (P2070 : 0 < 2 ^ 2070) by reflexivity.
  assert (S3 : 2 ^ 67 * K360 <= z2 * 2 ^ 1074 <= 2 ^ 2070 * K360).
  { split.
    - apply Z.le_trans with (2 ^ 67 * 2 ^ 1083).
      + apply Z.mul_le_mono_nonneg_l; blia.
      + replace (2 ^ 67 * 2 ^ 1083) with (2 ^ 76 * 2 ^ 1074) by reflexivity.
        apply Z.mul_le_mono_nonneg_r; blia.
    - apply Z.le_trans with (2 ^ 2070 * 2 ^ 1082).
      + replace (2 ^ 2070 * 2 ^ 1082) with (2 ^ 2078 * 2 ^ 1074) by reflexivity.
        apply Z.mul_le_mono_nonneg_r; blia.
      + apply Z.mul_le_mono_nonneg_l; blia. }
  destruct (divmag_normal K360 z2 67 2070 K360_pos ltac:(blia) ltac:(blia) ltac:(blia) S3)
    as (E3 & B3 & N3).
  fold z3 in E3, B3.
  unfold dx_mag. rewrite E1, E2, E3.
  repeat split; try assumption; apply B1 || apply B2 || apply B3.
Qed.

Lemma dx_mag_double_radius k a :
  2 ^ 574 <= a <= 2 ^ 1574 -> 2 ^ 574 <= k <= 2 ^ 1574 ->
  dx_mag (2 * k) a = 2 * dx_mag k a.
Proof.
  intros Ha Hk.
  assert (P574 : 0 < 2 ^ 574) by reflexivity.
  assert (E1575 : 2 ^ 1575 = 2 * 2 ^ 1574) by reflexivity.
  assert (HK := K2pi_pos). assert (HK3 := K360_pos).
  destruct (dx_mag_normal_radius k a Ha ltac:(blia))
    as (E & (N1 & B1) & (N2 & B2) & (N3 & B3)).
  destruct (dx_mag_normal_radius (2 * k) a Ha ltac:(blia)) as (E' & _).
  rewrite E, E'.
  assert (P576 : 0 < 2 ^ 576) by reflexivity.
  assert (P76 : 0 < 2 ^ 76) by reflexivity.
  assert (P1074 : 0 < 2 ^ 1074) by reflexivity.
  set (z1 := R prec (a * K2pi) (2 ^ 1074)) in *.
  replace (z1 * (2 * k)) with (2 * (z1 * k)) by ring.
  rewrite (R_double prec emax prec_pos prec_lt_emax (z1 * k)); [|bnia|blia|exact N2].
  set (z2 := R prec (z1 * k) (2 ^ 1074)) in *.
  replace (2 * z2 * 2 ^ 1074) with (2 * (z2 * 2 ^ 1074)) by ring.
  rewrite (R_double prec emax prec_pos prec_lt_emax (z2 * 2 ^ 1074)); [|bnia|blia|exact N3].
  reflexivity.
Qed.

(** A finite float above zero is its own rounding, doubled too. *)
Lemma R_two_finite m e :
  bounded prec emax m e = true ->
  let a := Zpos m * 2 ^ (e - SpecFloat.emin prec emax) in
  R prec (2 * a) 1 = 2 * a.
Proof.
  intros Bc a. unfold a.
  destruct (bounded_canonical prec emax prec_pos prec_lt_emax _ _ Bc) as (He & Hd & _).
  rewrite Z.mul_assoc, (Z.mul_comm 2), <- Z.mul_assoc.
  replace (2 * 2 ^ (e - SpecFloat.emin prec emax))
    with (2 ^ (e - SpecFloat.emin prec emax + 1))
    by (rewrite Z.pow_add_r by lia; ring).
  apply (R_exact prec emax prec_pos prec_lt_emax); [|lia].
  split; [lia|].
  assert (B := Zdigits2_bounds (Zpos m) ltac:(lia)).
  assert (2 ^ Zdigits2 (Zpos m) <= 2 ^ prec) by (apply Z.pow_le_mono_r; lia).
  lia.
Qed.

(** X15: the size is linear in the radius as well: for CDELT2 and radius
    between 2^-500 and 2^500, doubling the radius doubles the pixel size
    exactly. *)
Theorem doubling_radius (c r : float) :
  in_range c = true -> in_range r = true ->
  exists d, pixel_size c r = Ok d /\
            pixel_size c (2 * r)%float = Ok (2 * d)%float /\
            is_nan d = false.
Proof.
  intros Hc Hr.
  destruct (in_range_cases c Hc) as (mc & ec & Ec & Bc & Rc).
  destruct (in_range_cases r Hr) as (mr & er & Er & Br & Rr).
  set (a := Zpos mc * 2 ^ (ec - SpecFloat.emin prec emax)) in *.
  set (k := Zpos mr * 2 ^ (er - SpecFloat.emin prec emax)) in *.
  assert (P574 : 0 < 2 ^ 574) by reflexivity.
  assert (P1574 : 2 * 2 ^ 1574 < 2 ^ 2098) by reflexivity.
  assert (E1575 : 2 ^ 1574 <= 2 ^ 1575) by (apply Z.leb_le; reflexivity).
  exists (2 * np_pi * c * r / 360)%float.
  split; [reflexivity|].
  assert (Nc : not_nan (Prim2SF c) = true) by (rewrite Ec; reflexivity).
  assert (Oc : Z.abs (ord prec emax (Prim2SF c)) = a).
  { rewrite Ec. cbn [ord]. fold a. blia. }
  assert (Sc : sign_of (Prim2SF c) = false) by (rewrite Ec; reflexivity).
  destruct (dx_chain c r mr er Nc Er) as (Ed & Nd & Sd & Ad).
  fold k in Ed, Ad. rewrite Oc in Ed, Ad. rewrite Sc in Ed, Sd.
  destruct (dx_mag_normal k a ltac:(blia) Rr) as (Ez & _ & _ & (_ & B3)).
  set (z3 := R prec (R prec (R prec (a * K2pi) (2 ^ 1074) * k) (2 ^ 1074) * 2 ^ 1074) K360) in *.
  assert (P67 : 0 < 2 ^ 67) by reflexivity.
  assert (P2070 : 2 * 2 ^ 2070 < 2 ^ 2098) by reflexivity.
  split.
  - rewrite pixel_size_eq. f_equal. apply Prim2SF_inj.
    (* the radius 2*r *)
    assert (Nr : not_nan (Prim2SF r) = true) by (rewrite Er; reflexivity).
    destruct (double_float r Nr) as (_ & N2 & S2 & A2).
    rewrite Er in S2, A2. cbn [sign_of ord] in S2, A2. fold k in A2.
    rewrite (Z.abs_eq k) in A2 by blia.
    rewrite (mulmag_two k ltac:(blia) (R_two_finite mr er Br) ltac:(blia)) in A2.
    assert (V2 := Prim2SF_valid (2 * r)%float).
    destruct (Prim2SF (2 * r)%float) as [s2|s2| |s2 m2 e2] eqn:E2; try discriminate.
    { cbn [ord] in A2. simpl Z.abs in A2. blia. }
    { cbn [ord] in A2. rewrite INF64_eq in A2. destruct s2; blia. }
    cbn [sign_of] in S2. subst s2. cbn [SpecFloat.valid_binary] in V2.
    destruct (mag_finite_lt_INF prec emax prec_pos prec_lt_emax false m2 e2 V2) as [A2' _].
    rewrite A2' in A2.
    destruct (dx_chain c (2 * r)%float m2 e2 Nc E2) as (Ed2 & _).
    rewrite Sc, Oc, A2 in Ed2.
    rewrite dx_mag_double_radius in Ed2 by assumption.
    rewrite Ed2.
    (* twice the size at r *)
    destruct (double_float _ Nd) as (E2d & _).
    rewrite Sd, Ad in E2d. rewrite E2d. f_equal.
    rewrite Ez. symmetry. apply mulmag_two; [blia | | blia].
    assert (HK := K360_pos).
    assert (P1074 : 0 < 2 ^ 1074) by reflexivity.
    apply (R_twice prec emax prec_pos prec_lt_emax).
    + apply Z.mul_nonneg_nonneg; [|blia].
      apply (R_nonneg prec emax prec_pos prec_lt_emax); [|blia].
      apply Z.mul_nonneg_nonneg; [|blia].
      apply (R_nonneg prec emax prec_pos prec_lt_emax); [|blia].
      assert (HK2 := K2pi_pos). apply Z.mul_nonneg_nonneg; blia.
    + exact HK.
    + fold z3. apply Z.le_trans with 68; [apply Z.leb_le; reflexivity|].
      apply Zdigits2_ge; [blia|]. exact (proj1 B3).
  - rewrite is_nan_spec, Nd. reflexivity.
Qed.

Lemma doubling_radius_witness :
  exists d, pixel_size 0.03%float solar_radius = Ok d /\
            pixel_size 0.03%float (2 * solar_radius)%float = Ok (2 * d)%float /\
            is_nan d = false.
Proof. apply (doubling_radius 0.03%float solar_radius); reflexivity. Defined.

(** ** The area, up to rounding *)

Lemma dx_mag_mono_radius k k' a :
  0 < k <= k' -> 0 <= a -> dx_mag k a <= dx_mag k' a.
Proof.
  intros Hk Ha. unfold dx_mag.
  assert (R1 := mulmag_range prec emax prec_pos prec_lt_emax K2pi a K2pi_pos Ha).
  assert (R2 := mulmag_range prec emax prec_pos prec_lt_emax k _ ltac:(lia) (proj1 R1)).
  apply (divmag_mono prec emax prec_pos prec_lt_emax); [apply K360_pos|].
  split; [lia|]. apply mulmag_mono_l; lia.
Qed.

(** The magnitude of the size for CDELT2 and radius between [2^-200] and
    [2^200]. *)
Lemma dx_mag_bounds_200 k a :
  2 ^ 874 <= a <= 2 ^ 1274 -> 2 ^ 874 <= k <= 2 ^ 1274 ->
  2 ^ 666 <= dx_mag k a <= 2 ^ 1470.
Proof.
  intros Ha Hk.
  assert (P874 : 0 < 2 ^ 874) by reflexivity.
  assert (L : 2 ^ 666 <= dx_mag (2 ^ 874) (2 ^ 874))
    by (apply Z.leb_le; vm_compute; reflexivity).
  assert (U : dx_mag (2 ^ 1274) (2 ^ 1274) <= 2 ^ 1470)
    by (apply Z.leb_le; vm_compute; reflexivity).
  assert (M1 := dx_mag_mono (2 ^ 874) (2 ^ 874) a P874 ltac:(blia)).
  assert (M2 := dx_mag_mono_radius (2 ^ 874) k a ltac:(blia) ltac:(blia)).
  assert (M3 := dx_mag_mono k a (2 ^ 1274) ltac:(blia) ltac:(blia)).
  assert (M4 := dx_mag_mono_radius k (2 ^ 1274) (2 ^ 1274) ltac:(blia) ltac:(blia)).
  blia.
Qed.

Lemma range_200_cases c :
  (0x1p-200 <=? c)%float = true -> (c <=? 0x1p200)%float = true ->
  in_range c = true /\
  exists m e, Prim2SF c = S754_finite false m e /\
              bounded prec emax m e = true /\
              2 ^ 874 <= Zpos m * 2 ^ (e - SpecFloat.emin prec emax) <= 2 ^ 1274.
Proof.
  intros L U.
  assert (HL := L). assert (HU := U).
  apply leb_ord in L. apply leb_ord in U.
  destruct L as (_ & Nc & L). destruct U as (_ & _ & U).
  replace (ord prec emax (Prim2SF 0x1p-200)) with (2 ^ 874) in L
    by (vm_compute; reflexivity).
  replace (ord prec emax (Prim2SF 0x1p200)) with (2 ^ 1274) in U
    by (vm_compute; reflexivity).
  assert (P574 : 2 ^ 574 <= 2 ^ 874) by (apply Z.leb_le; reflexivity).
  assert (P1574 : 2 ^ 1274 <= 2 ^ 1574) by (apply Z.leb_le; reflexivity).
  assert (I : in_range c = true).
  { unfold in_range. apply andb_true_iff. split; apply leb_ord.
    - split; [reflexivity|]. split; [exact Nc|].
      replace (ord prec emax (Prim2SF 0x1p-500)) with (2 ^ 574)
        by (vm_compute; reflexivity). blia.
    - split; [exact Nc|]. split; [reflexivity|].
      replace (ord prec emax (Prim2SF 0x1p500)) with (2 ^ 1574)
        by (vm_compute; reflexivity). blia. }
  split; [exact I|].
  destruct (in_range_cases c I) as (m & e & E & B & _).
  exists m, e. split; [exact E|]. split; [exact B|].
  rewrite E in L, U. cbn [ord] in L, U. blia.
Qed.

Lemma square_error W X V U :
  0 <= W -> 0 <= X -> 0 <= V -> 0 <= U ->
  X <= W + U -> 2 ^ 51 * U <= W -> 2 ^ 53 * V <= X * X ->
  2 ^ 49 * (V + U * (X + W)) <= W * W.
Proof.
  change (2 ^ 51) with 2251799813685248. change (2 ^ 53) with 9007199254740992.
  change (2 ^ 49) with 562949953421312.
  intros HW HX HV HU H1 H2 H3.
  assert (X2 : X <= 2 * W) by lia.
  assert (XX : X * X <= (2 * W) * (2 * W)) by (apply Z.mul_le_mono_nonneg; lia).
  assert (A : 2251799813685248 * V <= W * W) by lia.
  assert (B : 2251799813685248 * U * (X + W) <= W * (3 * W))
    by (apply Z.mul_le_mono_nonneg; lia).
  lia.
Qed.

Lemma Q_div_err (x w D u : Q) :
  (0 < D)%Q -> (Qabs (x - w) <= u * w)%Q ->
  (Qabs (x / D - w / D) <= u * (w / D))%Q.
Proof.
  intros HD H.
  apply Qabs_Qle_condition in H. apply Qabs_Qle_condition.
  assert (Hi : (0 < / D)%Q) by (apply Qinv_lt_0_compat; exact HD).
  unfold Qdiv. destruct H as [H1 H2]. split.
  - apply Qle_trans with ((- (u * w)) * / D)%Q; [lra|].
    apply Qle_trans with ((x - w) * / D)%Q; [|lra].
    apply Qmult_le_compat_r; [exact H1 | lra].
  - apply Qle_trans with ((x - w) * / D)%Q; [lra|].
    apply Qle_trans with ((u * w) * / D)%Q; [|lra].
    apply Qmult_le_compat_r; [exact H2 | lra].
Qed.

Lemma Q_scaled_49 (x w : Z) :
  2 ^ 49 * x <= w -> (inject_Z x <= (1 # 562949953421312) * inject_Z w)%Q.
Proof.
  intros H. unfold Qle, Qmult, inject_Z. cbn [Qnum Qden].
  change (2 ^ 49) with 562949953421312 in H.
  change (Z.pos (562949953421312 * 1)) with 562949953421312. lia.
Qed.

(** The value of a float above zero from its order value. *)
Lemma F2Q_ord x z :
  not_nan (Prim2SF x) = true -> ord prec emax (Prim2SF x) = z ->
  0 < z < 2 ^ 2098 ->
  (F2Q x == inject_Z z / inject_Z (2 ^ 1074))%Q.
Proof.
  intros N O Hz.
  assert (Hb := Prim2SF_valid x).
  destruct (Prim2SF x) as [s|s| |s m e] eqn:Ex; try discriminate;
    cbn [SpecFloat.valid_binary] in Hb.
  - cbn [ord] in O. blia.
  - cbn [ord] in O. rewrite INF64_eq in O. destruct s; blia.
  - destruct (mag_finite_lt_INF prec emax prec_pos prec_lt_emax s m e Hb) as [Em Bm].
    destruct s.
    + cbn [ord] in O. cbn [ord] in Em. blia.
    + rewrite (F2Q_pos _ m e Ex Hb). cbn [ord] in O. rewrite O. reflexivity.
Qed.

(** The four roundings together, in units of [2^-1074]: the magnitude
    [za] of the area against the square of the exact product. *)
Lemma area_mag_error k a :
  2 ^ 874 <= a <= 2 ^ 1274 -> 2 ^ 874 <= k <= 2 ^ 1274 ->
  let z := dx_mag k a in
  let za := mulmag prec emax z z in
  let C := 360 * 2 ^ 1074 * 2 ^ 1074 in
  let W := a * K2pi * k in
  2 ^ 258 <= za <= 2 ^ 1866 /\
  2 ^ 49 * Z.abs (za * 2 ^ 1074 * (C * C) - W * W) <= W * W.
Proof.
  intros Ha Hk z za C W.
  assert (P574 : 2 ^ 574 <= 2 ^ 874) by (apply Z.leb_le; reflexivity).
  assert (P1574 : 2 ^ 1274 <= 2 ^ 1574) by (apply Z.leb_le; reflexivity).
  assert (P874 : 0 < 2 ^ 874) by reflexivity.
  assert (Bz := dx_mag_bounds_200 k a Ha Hk). fold z in Bz.
  assert (Herr := dx_mag_error k a ltac:(blia) ltac:(blia)). fold z W in Herr.
  assert (P666 : 0 < 2 ^ 666) by reflexivity.
  assert (P1470 : 2 ^ 1470 < 2 ^ 2098) by reflexivity.
  assert (P1074 : 0 < 2 ^ 1074) by reflexivity.
  assert (S : 2 ^ 258 * 2 ^ 1074 <= z * z <= 2 ^ 1866 * 2 ^ 1074).
  { replace (2 ^ 258 * 2 ^ 1074) with (2 ^ 666 * 2 ^ 666) by reflexivity.
    replace (2 ^ 1866 * 2 ^ 1074) with (2 ^ 1470 * 2 ^ 1470) by reflexivity.
    apply mul_between; blia. }
  destruct (mulmag_normal z z 258 1866 ltac:(blia) ltac:(blia) ltac:(blia) ltac:(blia) S)
    as (E & B & N).
  fold za in E. rewrite <- E in B. split; [exact B|].
  assert (Hz : 0 <= z * z) by (apply Z.mul_nonneg_nonneg; blia).
  assert (He := R_error prec emax prec_pos prec_lt_emax (z * z) (2 ^ 1074) Hz P1074 N).
  rewrite <- E in He. change (2 ^ prec) with (2 ^ 53) in He.
  assert (HC : 0 < C) by reflexivity.
  assert (HW : 0 <= W).
  { assert (HK := K2pi_pos). unfold W.
    apply Z.mul_nonneg_nonneg; [apply Z.mul_nonneg_nonneg|]; blia. }
  set (X := z * C).
  assert (EX : z * 360 * 2 ^ 1074 * 2 ^ 1074 = X) by (unfold X, C; ring).
  rewrite EX in Herr.
  assert (HX : 0 <= X) by (unfold X; apply Z.mul_nonneg_nonneg; blia).
  set (V := Z.abs (za * 2 ^ 1074 - z * z) * (C * C)).
  set (U := Z.abs (X - W)).
  assert (HCC : 0 <= C * C) by (apply Z.mul_nonneg_nonneg; blia).
  assert (HV : 0 <= V) by (unfold V; apply Z.mul_nonneg_nonneg; [apply Z.abs_nonneg | blia]).
  assert (HU : 0 <= U) by apply Z.abs_nonneg.
  assert (H3 : 2 ^ 53 * V <= X * X).
  { unfold V. rewrite Z.mul_assoc.
    replace (X * X) with (z * z * (C * C)) by (unfold X; ring).
    apply Z.mul_le_mono_nonneg_r; [exact HCC | exact He]. }
  assert (T : za * 2 ^ 1074 * (C * C) - W * W
              = (za * 2 ^ 1074 - z * z) * (C * C) + (X - W) * (X + W))
    by (unfold X; ring).
  assert (AT : Z.abs (za * 2 ^ 1074 * (C * C) - W * W) <= V + U * (X + W)).
  { rewrite T. eapply Z.le_trans; [apply Z.abs_triangle|].
    rewrite (Z.abs_mul (za * 2 ^ 1074 - z * z)), (Z.abs_mul (X - W)).
    rewrite (Z.abs_eq (C * C)) by blia.
    rewrite (Z.abs_eq (X + W)) by blia. unfold V, U. blia. }
  assert (SE := square_error W X V U HW HX HV HU ltac:(unfold U; blia) Herr H3).
  clearbody V U X C W za z.
  apply Z.le_trans with (2 ^ 49 * (V + U * (X + W))); [|exact SE].
  apply Z.mul_le_mono_nonneg_l; [apply Z.lt_le_incl; reflexivity | exact AT].
Qed.

(** X16: for CDELT2 and radius between 2^-200 and 2^200 the area is the
    square of the closed form [(2 pi cdelt / 360) R] (pi the double
    [np.pi]) up to the rounding of the four operations: a relative error
    of at most [2^-49]. *)
Theorem area_accuracy (c r : float) :
  (0x1p-200 <=? c)%float = true -> (c <=? 0x1p200)%float = true ->
  (0x1p-200 <=? r)%float = true -> (r <=? 0x1p200)%float = true ->
  exists m, compute c r = Ok m /\
            (Qabs (F2Q (pixel_area_m2 m) - closed_form_Q c r * closed_form_Q c r)
             <= (1 # 562949953421312) * (closed_form_Q c r * closed_form_Q c r))%Q.
Proof.
  intros Lc Uc Lr Ur.
  destruct (range_200_cases c Lc Uc) as (Ic & mc & ec & Ec & Bc & Rc).
  destruct (range_200_cases r Lr Ur) as (Ir & mr & er & Er & Br & Rr).
  assert (Fc := F2Q_pos c mc ec Ec Bc).
  assert (Fr := F2Q_pos r mr er Er Br).
  destruct (ord_pixel_size_pos c r mc ec mr er Ec Er) as [Nd Od]. cbv zeta in Od.
  set (a := Zpos mc * 2 ^ (ec - SpecFloat.emin prec emax)) in *.
  set (k := Zpos mr * 2 ^ (er - SpecFloat.emin prec emax)) in *.
  eexists. split; [reflexivity|]. cbn [pixel_area_m2]. unfold np_power2.
  set (d := (2 * np_pi * c * r / 360)%float) in *.
  destruct (area_mag_error k a Rc Rr) as (Ba & Herr). cbv zeta in Ba, Herr.
  assert (Bz := dx_mag_bounds_200 k a Rc Rr).
  assert (P666 : 0 < 2 ^ 666) by reflexivity.
  destruct (ord_square _ (Prim2SF_valid d) Nd) as [Na Oa].
  rewrite Od, (Z.abs_eq (dx_mag k a)) in Oa by blia.
  rewrite <- Prim2SF_mul in Na, Oa.
  set (za := mulmag prec emax (dx_mag k a) (dx_mag k a)) in *.
  assert (P258 : 0 < 2 ^ 258) by reflexivity.
  assert (P1866 : 2 ^ 1866 < 2 ^ 2098) by reflexivity.
  assert (Fa := F2Q_ord (d * d)%float za Na Oa ltac:(blia)).
  assert (Fw : (closed_form_Q c r
                == inject_Z (a * K2pi * k)
                   / (360 * inject_Z (2 ^ 1074) * inject_Z (2 ^ 1074) * inject_Z (2 ^ 1074)))%Q).
  { unfold closed_form_Q. rewrite F2Q_2pi, Fc, Fr. rewrite !inject_Z_mult.
    field. discriminate. }
  rewrite Fa, Fw.
  set (W := a * K2pi * k) in *.
  set (C := 360 * 2 ^ 1074 * 2 ^ 1074) in *.
  set (p := inject_Z (2 ^ 1074)).
  assert (Hp : (0 < p)%Q) by reflexivity.
  set (D := ((360 * p * p * p) * (360 * p * p * p))%Q).
  assert (HD : (0 < D)%Q).
  { unfold D. repeat apply Qmult_lt_0_compat; try assumption; reflexivity. }
  assert (E1 : (inject_Z za / p
                == (inject_Z za * p * ((360 * p * p) * (360 * p * p))) / D)%Q).
  { unfold D. field. lra. }
  assert (E2 : (inject_Z W / (360 * p * p * p) * (inject_Z W / (360 * p * p * p))
                == (inject_Z W * inject_Z W) / D)%Q).
  { unfold D. field. lra. }
  rewrite E1, E2.
  apply Q_div_err; [exact HD|].
  assert (EX : (inject_Z za * p * ((360 * p * p) * (360 * p * p)) - inject_Z W * inject_Z W
                == inject_Z (za * 2 ^ 1074 * (C * C) - W * W))%Q).
  { unfold C, Z.sub, p. rewrite inject_Z_plus, inject_Z_opp, !inject_Z_mult. reflexivity. }
  rewrite EX. rewrite <- inject_Z_mult.
  apply Qabs_Qle_condition.
  set (T := za * 2 ^ 1074 * (C * C) - W * W) in *.
  clearbody T W. split.
  - assert (H := Q_scaled_49 (- T) (W * W) ltac:(blia)).
    rewrite inject_Z_opp in H. lra.
  - apply Q_scaled_49. blia.
Qed.

Lemma area_accuracy_witness :
  exists m, compute 0.03%float solar_radius = Ok m /\
            (Qabs (F2Q (pixel_area_m2 m)
                   - closed_form_Q 0.03%float solar_radius
                     * closed_form_Q 0.03%float solar_radius)
             <= (1 # 562949953421312)
                * (closed_form_Q 0.03%float solar_radius
                   * closed_form_Q 0.03%float solar_radius))%Q.
Proof. apply (area_accuracy 0.03%float solar_radius); reflexivity. Defined.
